(** * canvas-gauge: needle physics, value-to-angle mapping, sweep machine
      and the renderer's zone / tick / gradient helpers

    A shallow embedding of the JavaScript sources
      - [src/presets.js]        (constants, defaults, presets)
      - [src/NeedlePhysics.js]  (spring-damper simulator)
      - [src/Gauge.js]          (value mapping, sweep state machine)
      - [src/GaugeRenderer.js]  (zones, ticks, numbers, gradient utility,
                                 active ticks, gradient arcs, progress
                                 arc, rings, needle and face colors)
    followed by the properties of the specification that were checked
    against it.

    Numbers.  A JavaScript number is an IEEE-754 double.  The embedding
    keeps the three special values (NaN, +Infinity, -Infinity) and
    represents every finite value by an exact, canonical rational
    ([Qc]); rounding, overflow and the sign of zero are not represented.
    A zero divisor is taken to be +0, which is what [x - x] evaluates to
    in the places where the sources divide by a difference.  Modules
    [Ieee] and [IeeeNeedle] re-state the value mapping and the simulator
    on binary64 floats, to replay the inputs on which rounding or
    overflow decides the outcome.  The properties below are stated so
    that they hold of the binary64 program as well: an equation relates
    a result to the expression the code evaluates, a step count is
    bounded rather than given, and where a property needs a quantity
    not to overflow its finiteness is a hypothesis. *)

From Stdlib Require Import ZArith QArith Qcanon Qround Lia Lqa.
From Stdlib Require Import Bool List String Ascii Sorted.
From Stdlib Require Floats.
Import ListNotations.
Local Open Scope string_scope.

Set Implicit Arguments.

(* ===================================================================== *)
(** * JavaScript numbers                                                  *)
(* ===================================================================== *)

Module JS.

Inductive num : Type :=
| Fin (q : Qc)
| PInf
| NInf
| NaN.

Definition ofZ (z : Z) : num := Fin (Q2Qc (inject_Z z)).
Definition ofQ (q : Q) : num := Fin (Q2Qc q).

Definition qc_ltb (a b : Qc) : bool :=
  match (a ?= b)%Qc with Lt => true | _ => false end.
Definition qc_leb (a b : Qc) : bool :=
  match (a ?= b)%Qc with Gt => false | _ => true end.
Definition qc_eqb (a b : Qc) : bool :=
  match (a ?= b)%Qc with Eq => true | _ => false end.

(** unary minus *)
Definition neg (x : num) : num :=
  match x with
  | Fin a => Fin (- a)
  | PInf => NInf
  | NInf => PInf
  | NaN => NaN
  end.

(** [x + y] *)
Definition add (x y : num) : num :=
  match x, y with
  | NaN, _ | _, NaN => NaN
  | Fin a, Fin b => Fin (a + b)
  | PInf, NInf | NInf, PInf => NaN
  | PInf, _ | _, PInf => PInf
  | NInf, _ | _, NInf => NInf
  end.

(** [x - y] *)
Definition sub (x y : num) : num := add x (neg y).

(** the infinity carrying the sign of a non-zero rational, NaN at zero *)
Definition signed_inf (a : Qc) (positive : bool) : num :=
  if qc_eqb a 0 then NaN
  else if Bool.eqb (qc_ltb 0 a) positive then PInf else NInf.

(** [x * y] *)
Definition mul (x y : num) : num :=
  match x, y with
  | NaN, _ | _, NaN => NaN
  | Fin a, Fin b => Fin (a * b)
  | Fin a, PInf | PInf, Fin a => signed_inf a true
  | Fin a, NInf | NInf, Fin a => signed_inf a false
  | PInf, PInf | NInf, NInf => PInf
  | PInf, NInf | NInf, PInf => NInf
  end.

(** [x / y]; a zero divisor is +0 *)
Definition div (x y : num) : num :=
  match x, y with
  | NaN, _ | _, NaN => NaN
  | Fin a, Fin b =>
      if qc_eqb b 0 then signed_inf a true else Fin (a / b)
  | Fin _, (PInf | NInf) => Fin 0
  | PInf, Fin b => if qc_ltb b 0 then NInf else PInf
  | NInf, Fin b => if qc_ltb b 0 then PInf else NInf
  | (PInf | NInf), (PInf | NInf) => NaN
  end.

(** [x < y] *)
Definition ltb (x y : num) : bool :=
  match x, y with
  | NaN, _ | _, NaN => false
  | Fin a, Fin b => qc_ltb a b
  | NInf, NInf | PInf, _ | _, NInf => false
  | NInf, _ | _, PInf => true
  end.

(** [x <= y] *)
Definition leb (x y : num) : bool :=
  match x, y with
  | NaN, _ | _, NaN => false
  | Fin a, Fin b => qc_leb a b
  | NInf, _ | _, PInf => true
  | PInf, _ | _, NInf => false
  end.

(** [x > y], [x >= y] *)
Definition gtb (x y : num) : bool := ltb y x.
Definition geb (x y : num) : bool := leb y x.

(** [x === y] on numbers *)
Definition seq (x y : num) : bool :=
  match x, y with
  | Fin a, Fin b => qc_eqb a b
  | PInf, PInf | NInf, NInf => true
  | _, _ => false
  end.

(** the global [isFinite] *)
Definition isFinite (x : num) : bool :=
  match x with Fin _ => true | _ => false end.

(** [Math.abs], [Math.max], [Math.min] (two arguments), [Math.round] *)
Definition Math_abs (x : num) : num :=
  match x with
  | Fin a => if qc_ltb a 0 then Fin (- a) else Fin a
  | PInf | NInf => PInf
  | NaN => NaN
  end.

Definition Math_max (x y : num) : num :=
  match x, y with
  | NaN, _ | _, NaN => NaN
  | _, _ => if ltb x y then y else x
  end.

Definition Math_min (x y : num) : num :=
  match x, y with
  | NaN, _ | _, NaN => NaN
  | _, _ => if ltb y x then y else x
  end.

Definition Math_round (x : num) : num :=
  match x with
  | Fin a => ofZ (Qfloor (a + Q2Qc (1 # 2))%Qc)
  | _ => x
  end.

(** [Math.ceil] *)
Definition Math_ceil (x : num) : num :=
  match x with
  | Fin a => ofZ (Qceiling a)
  | _ => x
  end.

(** [Math.PI]: the double 0x1.921fb54442d18p+1, an exact rational *)
Definition Math_PI : num := ofQ (884279719003555 # 281474976710656).

(** ToBoolean of a number: 0 and NaN are falsy *)
Definition truthy (x : num) : bool :=
  match x with
  | Fin a => negb (qc_eqb a 0)
  | PInf | NInf => true
  | NaN => false
  end.

(** ToBoolean of a numeric property that may be missing ([undefined]) *)
Definition truthy_opt (x : option num) : bool :=
  match x with Some v => truthy v | None => false end.

(** [x || d] where [x] is a numeric property that may be missing *)
Definition or_else (x : option num) (d : num) : num :=
  match x with
  | Some v => if truthy v then v else d
  | None => d
  end.

(** A numeric property that may be missing, used as a number:
    [undefined] converts to NaN. *)
Definition read (x : option num) : num :=
  match x with Some v => v | None => NaN end.

(** ToBoolean of a string: only the empty string is falsy *)
Definition truthy_str (s : option string) : bool :=
  match s with
  | Some EmptyString | None => false
  | Some _ => true
  end.

Definition str_or_else (s : option string) (d : string) : string :=
  match s with
  | Some (String c r) => String c r
  | _ => d
  end.

End JS.

Import JS.

Declare Scope js_scope.
Delimit Scope js_scope with js.
Bind Scope js_scope with num.
Notation "x + y" := (add x y) : js_scope.
Notation "x - y" := (sub x y) : js_scope.
Notation "x * y" := (mul x y) : js_scope.
Notation "x / y" := (div x y) : js_scope.
Notation "- x" := (neg x) : js_scope.
Notation "x <? y" := (ltb x y) : js_scope.
Notation "x <=? y" := (leb x y) : js_scope.
Notation "x >? y" := (gtb x y) : js_scope.
Notation "x >=? y" := (geb x y) : js_scope.
Notation "x === y" := (seq x y) (at level 70, no associativity) : js_scope.

Local Open Scope js_scope.

(* ===================================================================== *)
(** * src/presets.js                                                      *)
(* ===================================================================== *)

Module Presets.

(** [export const FIXED_TIMESTEP = 1 / 120;] *)
Definition FIXED_TIMESTEP : num := ofZ 1 / ofZ 120.
(** [export const MAX_FRAME_TIME = 0.1;] *)
Definition MAX_FRAME_TIME : num := ofQ (1 # 10).

(** An entry of [config.zones]. *)
Record Zone : Type := mkZone {
  zone_start : num;
  zone_end : num;
  zone_color : string;
  zone_offset : option num;
  zone_width : option num
}.

(** [config.colors]: user overrides, each key optional. *)
Record Colors : Type := mkColors {
  c_face : option string;
  c_needle : option string;
  c_ticks : option string;
  c_minorTicks : option string;
  c_numbers : option string;
  c_label : option string;
  c_units : option string;
  c_redline : option string
}.

Definition no_colors : Colors :=
  mkColors None None None None None None None None.

(** The resolved configuration object [{ ...defaults, ...config }],
    restricted to the keys read by the embedded functions.  A key that
    may be missing is an [option]; tick counts are natural numbers. *)
Record Config : Type := mkConfig {
  min : num;
  max : num;
  majorTicks : nat;
  minorTicks : nat;
  startAngle : num;
  endAngle : num;
  stiffness : option num;
  damping : option num;
  maxVelocity : option num;
  maxAccel : option num;
  faceStyle : string;
  colors : Colors;
  zones : list Zone;
  redlineStart : option num;
  dangerStart : option num;
  customLabels : option (list string);
  microTicks : bool
}.

Definition defaults : Config :=
  {| min := ofZ 0; max := ofZ 100;
     majorTicks := 5; minorTicks := 4;
     startAngle := ofZ (-225); endAngle := ofZ 45;
     stiffness := Some (ofZ 120); damping := Some (ofZ 18);
     maxVelocity := None; maxAccel := None;
     faceStyle := "light"; colors := no_colors;
     zones := [];
     redlineStart := None; dangerStart := None;
     customLabels := None; microTicks := false |}.

(** [presets.speed], [presets.rpm], [presets.temp], [presets.modern]
    merged over [defaults]. *)
Definition speed : Config :=
  {| min := ofZ 0; max := ofZ 140;
     majorTicks := 8; minorTicks := 4;
     startAngle := ofZ (-225); endAngle := ofZ 45;
     stiffness := Some (ofZ 120); damping := Some (ofZ 18);
     maxVelocity := None; maxAccel := None;
     faceStyle := "light"; colors := no_colors;
     zones := [];
     redlineStart := None; dangerStart := None;
     customLabels := None; microTicks := false |}.

Definition rpm : Config :=
  {| min := ofZ 0; max := ofZ 80;
     majorTicks := 9; minorTicks := 5;
     startAngle := ofZ (-225); endAngle := ofZ 45;
     stiffness := Some (ofZ 150); damping := Some (ofZ 16);
     maxVelocity := None; maxAccel := None;
     faceStyle := "light"; colors := no_colors;
     zones := [];
     redlineStart := Some (ofZ 60); dangerStart := None;
     customLabels := None; microTicks := false |}.

Definition temp : Config :=
  {| min := ofZ 100; max := ofZ 250;
     majorTicks := 4; minorTicks := 5;
     startAngle := ofZ (-135); endAngle := ofZ (-45);
     stiffness := Some (ofZ 80); damping := Some (ofZ 20);
     maxVelocity := None; maxAccel := None;
     faceStyle := "light"; colors := no_colors;
     zones := [];
     redlineStart := None; dangerStart := Some (ofZ 220);
     customLabels := None; microTicks := false |}.

Definition modern : Config :=
  {| min := ofZ 0; max := ofZ 320;
     majorTicks := 9; minorTicks := 4;
     startAngle := ofZ (-130); endAngle := ofZ 130;
     stiffness := Some (ofZ 120); damping := Some (ofZ 18);
     maxVelocity := None; maxAccel := None;
     faceStyle := "dark";
     colors := mkColors (Some "#0A0A0A") (Some "#FF8800") (Some "#CCCCCC")
                        (Some "#666666") (Some "#AAAAAA") None None None;
     zones := [];
     redlineStart := None; dangerStart := None;
     customLabels := None; microTicks := true |}.

End Presets.

(* ===================================================================== *)
(** * src/NeedlePhysics.js                                                *)
(* ===================================================================== *)

Module NeedlePhysics.
Import Presets.

(** The fields of a [NeedlePhysics] instance.  [lastTime] is [null]
    ([None]) until the first [update]. *)
Record t : Type := mk {
  angle : num;
  velocity : num;
  targetAngle : num;
  stiffness : num;
  damping : num;
  maxVelocity : num;
  maxAccel : num;
  accumulator : num;
  lastTime : option num;
  vibrationEnabled : bool;
  vibrationAmount : num;
  reducedMotion : bool
}.

(** [constructor(config)]; [prefersReduced] is the value of
    [window.matchMedia('(prefers-reduced-motion: reduce)').matches]. *)
Definition constructor (config : Config) (prefersReduced : bool) : t :=
  {| angle := ofZ 0;
     velocity := ofZ 0;
     targetAngle := ofZ 0;
     stiffness := or_else (Presets.stiffness config) (ofZ 120);
     damping := or_else (Presets.damping config) (ofZ 18);
     maxVelocity := or_else (Presets.maxVelocity config) (ofZ 20);
     maxAccel := or_else (Presets.maxAccel config) (ofZ 100);
     accumulator := ofZ 0;
     lastTime := None;
     vibrationEnabled := false;
     vibrationAmount := ofQ (2 # 1000);
     reducedMotion := prefersReduced |}.

(** [setTarget(angle, immediate = false)] *)
Definition setTarget (a : num) (immediate : bool) (p : t) : t :=
  let p1 :=
    {| angle := angle p; velocity := velocity p; targetAngle := a;
       stiffness := stiffness p; damping := damping p;
       maxVelocity := maxVelocity p; maxAccel := maxAccel p;
       accumulator := accumulator p; lastTime := lastTime p;
       vibrationEnabled := vibrationEnabled p;
       vibrationAmount := vibrationAmount p;
       reducedMotion := reducedMotion p |} in
  if immediate || reducedMotion p then
    {| angle := a; velocity := ofZ 0; targetAngle := a;
       stiffness := stiffness p; damping := damping p;
       maxVelocity := maxVelocity p; maxAccel := maxAccel p;
       accumulator := accumulator p; lastTime := lastTime p;
       vibrationEnabled := vibrationEnabled p;
       vibrationAmount := vibrationAmount p;
       reducedMotion := reducedMotion p |}
  else p1.

(** [step(dt)] *)
Definition step (dt : num) (p : t) : t :=
  let displacement := targetAngle p - angle p in
  let acceleration := stiffness p * displacement - damping p * velocity p in
  let acceleration :=
    Math_max (- maxAccel p) (Math_min (maxAccel p) acceleration) in
  let velocity1 := velocity p + acceleration * dt in
  let velocity2 :=
    Math_max (- maxVelocity p) (Math_min (maxVelocity p) velocity1) in
  {| angle := angle p + velocity2 * dt;
     velocity := velocity2;
     targetAngle := targetAngle p;
     stiffness := stiffness p; damping := damping p;
     maxVelocity := maxVelocity p; maxAccel := maxAccel p;
     accumulator := accumulator p; lastTime := lastTime p;
     vibrationEnabled := vibrationEnabled p;
     vibrationAmount := vibrationAmount p;
     reducedMotion := reducedMotion p |}.

Definition set_accumulator (a : num) (p : t) : t :=
  {| angle := angle p; velocity := velocity p;
     targetAngle := targetAngle p;
     stiffness := stiffness p; damping := damping p;
     maxVelocity := maxVelocity p; maxAccel := maxAccel p;
     accumulator := a; lastTime := lastTime p;
     vibrationEnabled := vibrationEnabled p;
     vibrationAmount := vibrationAmount p;
     reducedMotion := reducedMotion p |}.

Definition set_lastTime (l : option num) (p : t) : t :=
  {| angle := angle p; velocity := velocity p;
     targetAngle := targetAngle p;
     stiffness := stiffness p; damping := damping p;
     maxVelocity := maxVelocity p; maxAccel := maxAccel p;
     accumulator := accumulator p; lastTime := l;
     vibrationEnabled := vibrationEnabled p;
     vibrationAmount := vibrationAmount p;
     reducedMotion := reducedMotion p |}.

(** One iteration of the body of
    [while (this.accumulator >= FIXED_TIMESTEP) { ... }]. *)
Definition loop_body (p : t) : t :=
  let p1 := step FIXED_TIMESTEP p in
  set_accumulator (accumulator p1 - FIXED_TIMESTEP) p1.

(** The [while] loop, with an iteration budget: [None] when the budget
    is used up before the loop condition turns false. *)
Fixpoint while_loop (fuel : nat) (p : t) : option t :=
  if accumulator p >=? FIXED_TIMESTEP then
    match fuel with
    | O => None
    | S fuel' => while_loop fuel' (loop_body p)
    end
  else Some p.

(** Iterations the loop makes from accumulator value [a]; the loop
    condition only reads the accumulator and [step] leaves it alone.
    With the accumulator at +Infinity the loop never exits, and the
    budget [0] below makes [while_loop] answer [None]. *)
Definition iterations (a : num) : nat :=
  match (a / FIXED_TIMESTEP)%js with
  | Fin q => Z.to_nat (Qfloor q)
  | _ => O
  end.

(** [update(currentTime)]: the new instance and the returned angle,
    or [None] when the call does not return.  [random] is the value
    drawn by [Math.random()] in this call. *)
Definition update (currentTime random : num) (p : t) : option (t * num) :=
  match lastTime p with
  | None => Some (set_lastTime (Some currentTime) p, angle p)
  | Some last =>
      let frameTime := (currentTime - last) / ofZ 1000 in
      let p := set_lastTime (Some currentTime) p in
      let frameTime :=
        if negb (isFinite frameTime) || (frameTime <? ofZ 0)
        then ofZ 0 else frameTime in
      let frameTime :=
        if frameTime >? MAX_FRAME_TIME then MAX_FRAME_TIME else frameTime in
      if reducedMotion p then
        let p :=
          {| angle := targetAngle p; velocity := ofZ 0;
             targetAngle := targetAngle p;
             stiffness := stiffness p; damping := damping p;
             maxVelocity := maxVelocity p; maxAccel := maxAccel p;
             accumulator := accumulator p; lastTime := lastTime p;
             vibrationEnabled := vibrationEnabled p;
             vibrationAmount := vibrationAmount p;
             reducedMotion := reducedMotion p |} in
        Some (p, angle p)
      else
        let p := set_accumulator (accumulator p + frameTime) p in
        match while_loop (iterations (accumulator p)) p with
        | None => None
        | Some p =>
            let outputAngle := angle p in
            let outputAngle :=
              if vibrationEnabled p
                 && (Math_abs (targetAngle p) >? ofQ (1 # 10))
              then outputAngle
                   + (random - ofQ (1 # 2)) * vibrationAmount p
                     * (targetAngle p / Math_PI)
              else outputAngle in
            Some (p, outputAngle)
        end
  end.

(** [isSettled(threshold = 0.001)] *)
Definition isSettled (threshold : num) (p : t) : bool :=
  let angleDiff := Math_abs (angle p - targetAngle p) in
  let velMag := Math_abs (velocity p) in
  if negb (isFinite angleDiff) || negb (isFinite velMag) then true
  else (angleDiff <? threshold) && (velMag <? threshold).

(** The setter behind [gauge.vibration = enabled]. *)
Definition set_vibrationEnabled (b : bool) (p : t) : t :=
  {| angle := angle p; velocity := velocity p;
     targetAngle := targetAngle p;
     stiffness := stiffness p; damping := damping p;
     maxVelocity := maxVelocity p; maxAccel := maxAccel p;
     accumulator := accumulator p; lastTime := lastTime p;
     vibrationEnabled := b;
     vibrationAmount := vibrationAmount p;
     reducedMotion := reducedMotion p |}.

End NeedlePhysics.

(* ===================================================================== *)
(** * src/Gauge.js                                                        *)
(* ===================================================================== *)

Module Gauge.
Import Presets.

(** [_sweepPhase]: ['idle' | 'up' | 'down'] *)
Inductive SweepPhase : Type := idle | up | down.

(** The custom events dispatched on the container element. *)
Inductive Event : Type :=
| gauge_ready
| gauge_valuechange (value : num)
| gauge_sweepcomplete.

(** The fields of a [Gauge] the embedded methods read or write.
    [_config] and [_physics] are assigned by the constructor before any
    other method can run, hence not optional here; [_renderer] records
    whether the renderer (and with it the 2d context) exists;
    [dispatched] is the sequence of events dispatched so far, oldest
    first.  The canvas, its aria-label and the drawing calls are left
    out. *)
Record t : Type := mk {
  _targetValue : num;
  _size : option num;
  _renderer : bool;
  _physics : NeedlePhysics.t;
  _config : Config;
  _isSweeping : bool;
  _sweepPhase : SweepPhase;
  _sweepStartTime : num;
  dispatched : list Event
}.

(** [_valueToAngle(value)]; the first argument is [this._config],
    [None] standing for a config that is not set. *)
Definition _valueToAngle (config : option Config) (value : num) : num :=
  match config with
  | None => ofZ 0
  | Some config =>
      let value := if negb (isFinite value) then min config else value in
      let range := max config - min config in
      if range === ofZ 0 then ofZ 0
      else
        let normalized := (value - min config) / range in
        let clamped := Math_max (ofZ 0) (Math_min (ofZ 1) normalized) in
        let startAngle := (startAngle config - ofZ 90) * Math_PI / ofZ 180 in
        let endAngle := (endAngle config - ofZ 90) * Math_PI / ofZ 180 in
        let result := startAngle + clamped * (endAngle - startAngle) in
        if isFinite result then result else ofZ 0
  end.

Definition set_physics (p : NeedlePhysics.t) (g : t) : t :=
  {| _targetValue := _targetValue g; _size := _size g;
     _renderer := _renderer g; _physics := p; _config := _config g;
     _isSweeping := _isSweeping g; _sweepPhase := _sweepPhase g;
     _sweepStartTime := _sweepStartTime g; dispatched := dispatched g |}.

(** The constructor, after [_resolveConfig]: [_initializeComponent]
    followed by the dispatch of ['gauge:ready']. *)
Definition constructor (config : Config) (prefersReduced : bool) : t :=
  let physics := NeedlePhysics.constructor config prefersReduced in
  let initialValue := min config in
  {| _targetValue := initialValue;
     _size := None;
     _renderer := false;
     _physics :=
       NeedlePhysics.setTarget
         (_valueToAngle (Some config) initialValue) true physics;
     _config := config;
     _isSweeping := false;
     _sweepPhase := idle;
     _sweepStartTime := ofZ 0;
     dispatched := [gauge_ready] |}.

(** [_rebuildRenderer()] *)
Definition _rebuildRenderer (g : t) : t :=
  match _size g with
  | None => g
  | Some size =>
      if negb (truthy size) || (size <=? ofZ 0) then g
      else
        let p := _physics g in
        let p :=
          {| NeedlePhysics.angle := NeedlePhysics.angle p;
             NeedlePhysics.velocity := NeedlePhysics.velocity p;
             NeedlePhysics.targetAngle := NeedlePhysics.targetAngle p;
             NeedlePhysics.stiffness := read (stiffness (_config g));
             NeedlePhysics.damping := read (damping (_config g));
             NeedlePhysics.maxVelocity := NeedlePhysics.maxVelocity p;
             NeedlePhysics.maxAccel := NeedlePhysics.maxAccel p;
             NeedlePhysics.accumulator := NeedlePhysics.accumulator p;
             NeedlePhysics.lastTime := NeedlePhysics.lastTime p;
             NeedlePhysics.vibrationEnabled :=
               NeedlePhysics.vibrationEnabled p;
             NeedlePhysics.vibrationAmount :=
               NeedlePhysics.vibrationAmount p;
             NeedlePhysics.reducedMotion := NeedlePhysics.reducedMotion p |}
        in
        {| _targetValue := _targetValue g; _size := _size g;
           _renderer := true; _physics := p; _config := _config g;
           _isSweeping := _isSweeping g; _sweepPhase := _sweepPhase g;
           _sweepStartTime := _sweepStartTime g;
           dispatched := dispatched g |}
  end.

(** [_handleResize(rect)] with [rect.width], [rect.height] *)
Definition _handleResize (width height : num) (g : t) : t :=
  let size := Math_min width height in
  let differs :=
    match _size g with Some s => negb (s === size) | None => true end in
  if (size >? ofZ 0) && (differs || negb (_renderer g)) then
    _rebuildRenderer
      {| _targetValue := _targetValue g; _size := Some size;
         _renderer := _renderer g; _physics := _physics g;
         _config := _config g;
         _isSweeping := _isSweeping g; _sweepPhase := _sweepPhase g;
         _sweepStartTime := _sweepStartTime g;
         dispatched := dispatched g |}
  else g.

(** [_updateSweep(timestamp)] *)
Definition _updateSweep (timestamp : num) (g : t) : t :=
  let elapsed := timestamp - _sweepStartTime g in
  let sweepDuration := ofZ 800 in
  match _sweepPhase g with
  | up =>
      if elapsed >=? sweepDuration then
        {| _targetValue := _targetValue g; _size := _size g;
           _renderer := _renderer g;
           _physics :=
             NeedlePhysics.setTarget
               (_valueToAngle (Some (_config g)) (min (_config g))) false
               (_physics g);
           _config := _config g;
           _isSweeping := _isSweeping g;
           _sweepPhase := down;
           _sweepStartTime := timestamp;
           dispatched := dispatched g |}
      else g
  | down =>
      if NeedlePhysics.isSettled (ofQ (1 # 100)) (_physics g) then
        {| _targetValue := _targetValue g; _size := _size g;
           _renderer := _renderer g;
           _physics :=
             NeedlePhysics.setTarget
               (_valueToAngle (Some (_config g)) (_targetValue g)) false
               (_physics g);
           _config := _config g;
           _isSweeping := false;
           _sweepPhase := idle;
           _sweepStartTime := _sweepStartTime g;
           dispatched := dispatched g ++ [gauge_sweepcomplete] |}
      else g
  | idle => g
  end.

(** [_render(timestamp)] up to the drawing calls: the new state and the
    angle handed to [drawNeedle] ([None] when the method returns before
    drawing); the outer [None] is a call that does not return. *)
Definition _render (timestamp random : num) (g : t)
  : option (t * option num) :=
  if negb (_renderer g) then Some (g, None)
  else
    match _size g with
    | None => Some (g, None)
    | Some size =>
        if negb (truthy size) || (size <=? ofZ 0) then Some (g, None)
        else
          let g := if _isSweeping g then _updateSweep timestamp g else g in
          match NeedlePhysics.update timestamp random (_physics g) with
          | None => None
          | Some (p, currentAngle) =>
              if negb (isFinite currentAngle) then
                let currentAngle :=
                  _valueToAngle (Some (_config g)) (min (_config g)) in
                let p :=
                  {| NeedlePhysics.angle := currentAngle;
                     NeedlePhysics.velocity := ofZ 0;
                     NeedlePhysics.targetAngle :=
                       NeedlePhysics.targetAngle p;
                     NeedlePhysics.stiffness := NeedlePhysics.stiffness p;
                     NeedlePhysics.damping := NeedlePhysics.damping p;
                     NeedlePhysics.maxVelocity :=
                       NeedlePhysics.maxVelocity p;
                     NeedlePhysics.maxAccel := NeedlePhysics.maxAccel p;
                     NeedlePhysics.accumulator :=
                       NeedlePhysics.accumulator p;
                     NeedlePhysics.lastTime := NeedlePhysics.lastTime p;
                     NeedlePhysics.vibrationEnabled :=
                       NeedlePhysics.vibrationEnabled p;
                     NeedlePhysics.vibrationAmount :=
                       NeedlePhysics.vibrationAmount p;
                     NeedlePhysics.reducedMotion :=
                       NeedlePhysics.reducedMotion p |} in
                Some (set_physics p g, Some currentAngle)
              else Some (set_physics p g, Some currentAngle)
          end
    end.

(** [setValue(value, options = {})] with [options.immediate] *)
Definition setValue (value : num) (immediate : bool) (g : t) : t :=
  if negb (_isSweeping g) then
    {| _targetValue := value; _size := _size g;
       _renderer := _renderer g;
       _physics :=
         NeedlePhysics.setTarget
           (_valueToAngle (Some (_config g)) value) immediate (_physics g);
       _config := _config g;
       _isSweeping := _isSweeping g; _sweepPhase := _sweepPhase g;
       _sweepStartTime := _sweepStartTime g;
       dispatched := dispatched g ++ [gauge_valuechange value] |}
  else
    {| _targetValue := value; _size := _size g;
       _renderer := _renderer g; _physics := _physics g;
       _config := _config g;
       _isSweeping := _isSweeping g; _sweepPhase := _sweepPhase g;
       _sweepStartTime := _sweepStartTime g;
       dispatched := dispatched g |}.

(** [sweep()]; [now] is the value of [performance.now()] *)
Definition sweep (now : num) (g : t) : t :=
  {| _targetValue := _targetValue g; _size := _size g;
     _renderer := _renderer g;
     _physics :=
       NeedlePhysics.setTarget
         (_valueToAngle (Some (_config g)) (max (_config g))) false
         (_physics g);
     _config := _config g;
     _isSweeping := true;
     _sweepPhase := up;
     _sweepStartTime := now;
     dispatched := dispatched g |}.

(** [set vibration(enabled)] *)
Definition set_vibration (enabled : bool) (g : t) : t :=
  set_physics (NeedlePhysics.set_vibrationEnabled enabled (_physics g)) g.

End Gauge.

(* ===================================================================== *)
(** * src/GaugeRenderer.js                                                *)
(* ===================================================================== *)

Module GaugeRenderer.
Import Presets.

(** ** Strings (ASCII code units) *)

(** [s.replace('#', '')]: the first ['#'] removed *)
Fixpoint remove_first_hash (s : string) : string :=
  match s with
  | EmptyString => EmptyString
  | String c r =>
      if Ascii.eqb c "#"%char then r else String c (remove_first_hash r)
  end.

(** [s.slice(from, to)] for [0 <= from <= to] *)
Definition slice (from to : nat) (s : string) : string :=
  substring from (to - from) s.

Definition is_whitespace (c : ascii) : bool :=
  let n := nat_of_ascii c in
  (Nat.eqb n 32) || ((Nat.leb 9 n) && (Nat.leb n 13)).

Fixpoint skip_whitespace (s : string) : string :=
  match s with
  | String c r => if is_whitespace c then skip_whitespace r else s
  | EmptyString => s
  end.

Definition hex_digit (c : ascii) : option Z :=
  let n := Z.of_nat (nat_of_ascii c) in
  if (48 <=? n)%Z && (n <=? 57)%Z then Some (n - 48)%Z
  else if (65 <=? n)%Z && (n <=? 70)%Z then Some (n - 55)%Z
  else if (97 <=? n)%Z && (n <=? 102)%Z then Some (n - 87)%Z
  else None.

(** the value of the longest prefix of hexadecimal digits, if any *)
Fixpoint hex_prefix (s : string) (acc : option Z) : option Z :=
  match s with
  | String c r =>
      match hex_digit c with
      | Some d =>
          hex_prefix r
            (Some (16 * match acc with Some a => a | None => 0 end + d)%Z)
      | None => acc
      end
  | EmptyString => acc
  end.

Definition strip_0x (s : string) : string :=
  match s with
  | String "0" (String "x" r) => r
  | String "0" (String "X" r) => r
  | _ => s
  end.

(** [parseInt(s, 16)] *)
Definition parseInt16 (s : string) : num :=
  let s := skip_whitespace s in
  let '(negative, s) :=
    match s with
    | String "-" r => (true, r)
    | String "+" r => (false, r)
    | _ => (false, s)
    end in
  match hex_prefix (strip_0x s) None with
  | None => NaN
  | Some v => ofZ (if negative then - v else v)
  end.

(** ** Colors *)

(** [_resolvedColors] *)
Record Palette : Type := mkPalette {
  face : string;
  needle : string;
  ticks : string;
  minorTicksColor : string;
  numbers : string;
  label : string;
  units : string;
  redline : string
}.

Definition lightDefaults : Palette :=
  mkPalette "#FEFEFE" "#CC1010" "#1A1A1A" "#404040"
            "#1A1A1A" "#2A2A2A" "#555555" "#CC2020".

Definition darkDefaults : Palette :=
  mkPalette "#1A1A1A" "#CC1010" "#E0E0E0" "#888888"
            "#D0D0D0" "#E0E0E0" "#AAAAAA" "#FF4040".

(** [_buildColors(config)] *)
Definition _buildColors (config : Config) : Palette :=
  let userColors := colors config in
  let isDark := String.eqb (faceStyle config) "dark" in
  let base := if isDark then darkDefaults else lightDefaults in
  {| face := str_or_else (c_face userColors) (face base);
     needle := str_or_else (c_needle userColors) (needle base);
     ticks := str_or_else (c_ticks userColors) (ticks base);
     minorTicksColor :=
       str_or_else (c_minorTicks userColors) (minorTicksColor base);
     numbers := str_or_else (c_numbers userColors) (numbers base);
     label := str_or_else (c_label userColors) (label base);
     units := str_or_else (c_units userColors) (units base);
     redline := str_or_else (c_redline userColors) (redline base) |}.

(** [_parseHex(hex)] *)
Definition _parseHex (hex : string) : num * num * num :=
  let h := remove_first_hash hex in
  (parseInt16 (slice 0 2 h), parseInt16 (slice 2 4 h),
   parseInt16 (slice 4 6 h)).

(** A CSS color as the renderer produces it: a string taken over as it
    is, or the template literal [`rgb(${r},${g},${b})`]. *)
Inductive Css : Type :=
| css (s : string)
| rgb (r g b : num).

(** ** Gradient stops *)

Record Stop : Type := mkStop { at_ : num; color : string }.

(** The search loop of [_interpolateGradient]: the first [i] with
    [t >= stops[i].at && t <= stops[i + 1].at]. *)
Fixpoint find_bracket (stops : list Stop) (t : num) : option (Stop * Stop) :=
  match stops with
  | s0 :: rest =>
      match rest with
      | s1 :: _ =>
          if (t >=? at_ s0) && (t <=? at_ s1) then Some (s0, s1)
          else find_bracket rest t
      | [] => None
      end
  | [] => None
  end.

(** [_interpolateGradient(stops, t)] *)
Definition _interpolateGradient (stops : list Stop) (t : num) : Css :=
  match stops with
  | [] => css "rgba(255,255,255,0.5)"
  | [s] => css (color s)
  | first :: _ =>
      let t := Math_max (ofZ 0) (Math_min (ofZ 1) t) in
      let '(lower, upper) :=
        match find_bracket stops t with
        | Some b => b
        | None => (first, List.last stops first)
        end in
      let range := at_ upper - at_ lower in
      let localT :=
        if range >? ofZ 0 then (t - at_ lower) / range else ofZ 0 in
      let '(r1, g1, b1) := _parseHex (color lower) in
      let '(r2, g2, b2) := _parseHex (color upper) in
      let r := Math_round (r1 + (r2 - r1) * localT) in
      let g := Math_round (g1 + (g2 - g1) * localT) in
      let b := Math_round (b1 + (b2 - b1) * localT) in
      rgb r g b
  end.

(** ** The renderer instance *)

Record t : Type := mk {
  size : num;
  config : Config;
  _resolvedColors : Palette
}.

Definition constructor (size : num) (config : Config) : t :=
  {| size := size; config := config;
     _resolvedColors := _buildColors config |}.

(** [valueToAngle(value)] *)
Definition valueToAngle (this : t) (value : num) : num :=
  let config := config this in
  let normalized := (value - min config) / (max config - min config) in
  let clamped := Math_max (ofZ 0) (Math_min (ofZ 1) normalized) in
  let startAngle := (startAngle config - ofZ 90) * Math_PI / ofZ 180 in
  let endAngle := (endAngle config - ofZ 90) * Math_PI / ofZ 180 in
  startAngle + clamped * (endAngle - startAngle).

(** ** Zones *)

(** The value of [zones] when the loop of [drawZones] is reached: the
    configured list, or the zone generated from the legacy scalars. *)
Definition resolveZones (config : Config) : list Zone :=
  let zones := zones config in
  if (Nat.eqb (List.length zones) 0)
     && (truthy_opt (redlineStart config) || truthy_opt (dangerStart config))
  then
    let start :=
      if truthy_opt (redlineStart config)
      then read (redlineStart config)
      else read (dangerStart config) in
    [ {| zone_start := start; zone_end := max config;
         zone_color := "rgba(204, 32, 32, 0.15)";
         zone_offset := None; zone_width := None |} ]
  else zones.

(** One filled band: the two [ctx.arc] calls and the fill style. *)
Record Band : Type := mkBand {
  band_from : num;
  band_to : num;
  band_outer : num;
  band_inner : num;
  band_fill : string
}.

(** [drawZones(ctx, center, radius)]: the bands filled, in order. *)
Definition drawZones (this : t) (center radius : num) : list Band :=
  let config := config this in
  let faceRadius := radius * ofQ (88 # 100) in
  let startAngle := (startAngle config - ofZ 90) * Math_PI / ofZ 180 in
  let endAngle := (endAngle config - ofZ 90) * Math_PI / ofZ 180 in
  let totalAngle := endAngle - startAngle in
  let range := max config - min config in
  List.map
    (fun zone =>
       let zoneStartAngle :=
         startAngle + ((zone_start zone - min config) / range) * totalAngle in
       let zoneEndAngle :=
         startAngle + ((zone_end zone - min config) / range) * totalAngle in
       let outerR :=
         match zone_offset zone with
         | Some o => faceRadius * o
         | None => faceRadius * ofQ (88 # 100)
         end in
       let zoneWidth :=
         match zone_width zone with
         | Some w => faceRadius * w
         | None => outerR - faceRadius * ofQ (72 # 100)
         end in
       let innerR := outerR - zoneWidth in
       {| band_from := zoneStartAngle; band_to := zoneEndAngle;
          band_outer := outerR; band_inner := innerR;
          band_fill := zone_color zone |})
    (resolveZones config).

(** ** Major ticks and numbers *)

(** [config.min + (i / (majorCount - 1)) * (config.max - config.min)] *)
Definition tickValue (config : Config) (i : nat) : num :=
  let majorCount := ofZ (Z.of_nat (majorTicks config)) in
  min config
  + (ofZ (Z.of_nat i) / (majorCount - ofZ 1)) * (max config - min config).

(** [(config.redlineStart && value >= config.redlineStart) ||
     (config.dangerStart && value >= config.dangerStart)], as the
    condition of [isDanger ? ... : ...] *)
Definition isDanger (config : Config) (value : num) : bool :=
  (truthy_opt (redlineStart config)
   && (value >=? read (redlineStart config)))
  || (truthy_opt (dangerStart config)
      && (value >=? read (dangerStart config))).

(** A stroked major tick: its angle and [ctx.strokeStyle]. *)
Record Tick : Type := mkTick { tick_angle : num; tick_style : string }.

(** The major-tick loop of [drawTicks]. *)
Definition drawTicks (this : t) : list Tick :=
  let config := config this in
  let colors := _resolvedColors this in
  let startAngle := (startAngle config - ofZ 90) * Math_PI / ofZ 180 in
  let endAngle := (endAngle config - ofZ 90) * Math_PI / ofZ 180 in
  let totalAngle := endAngle - startAngle in
  let majorCount := ofZ (Z.of_nat (majorTicks config)) in
  List.map
    (fun i =>
       let angle :=
         startAngle
         + (ofZ (Z.of_nat i) / (majorCount - ofZ 1)) * totalAngle in
       let value := tickValue config i in
       {| tick_angle := angle;
          tick_style :=
            if isDanger config value then redline colors
            else ticks colors |})
    (List.seq 0 (majorTicks config)).

(** The text of a label: a custom string or
    [Math.round(value).toString()] with the number kept as it is. *)
Inductive LabelText : Type :=
| custom (s : string)
| numeric (n : num).

(** A filled label: its text, angle and [ctx.fillStyle]. *)
Record Number : Type :=
  mkNumber { number_text : LabelText; number_angle : num;
             number_style : string }.

(** The second loop of [drawNumbers]. *)
Definition drawNumbers (this : t) : list Number :=
  let config := config this in
  let colors := _resolvedColors this in
  let startAngle := (startAngle config - ofZ 90) * Math_PI / ofZ 180 in
  let endAngle := (endAngle config - ofZ 90) * Math_PI / ofZ 180 in
  let totalAngle := endAngle - startAngle in
  let majorCount := ofZ (Z.of_nat (majorTicks config)) in
  List.map
    (fun i =>
       let text :=
         match customLabels config with
         | Some l => custom (str_or_else (List.nth_error l i) "")
         | None => numeric (Math_round (tickValue config i))
         end in
       let angle :=
         startAngle
         + (ofZ (Z.of_nat i) / (majorCount - ofZ 1)) * totalAngle in
       let value := tickValue config i in
       {| number_text := text; number_angle := angle;
          number_style :=
            if isDanger config value then redline colors
            else numbers colors |})
    (List.seq 0 (majorTicks config)).

End GaugeRenderer.

(* ===================================================================== *)
(** * The value mapping on binary64 floats                                *)
(* ===================================================================== *)

(** [Gauge._valueToAngle] once more, over Rocq's primitive floats, which
    are IEEE-754 binary64 with round-to-nearest-even as JavaScript
    numbers are.  It is used to evaluate the mapping bit for bit on
    concrete configurations. *)
Module Ieee.
Import Stdlib.Floats.PrimFloat.
Local Open Scope float_scope.

Record Config : Type := mkConfig {
  min : float;
  max : float;
  startAngle : float;
  endAngle : float
}.

Definition Math_PI : float := 0x1.921fb54442d18p+1.

Definition isFinite (x : float) : bool := is_finite x.

(** [Math.max(x, y)], [Math.min(x, y)]: NaN if an argument is NaN,
    and [+0] counts as larger than [-0]. *)
Definition Math_max (x y : float) : float :=
  if is_nan x || is_nan y then nan
  else if x <? y then y
  else if y <? x then x
  else if is_zero x then x + y
  else x.

Definition Math_min (x y : float) : float :=
  if is_nan x || is_nan y then nan
  else if y <? x then y
  else if x <? y then x
  else if is_zero x then - ((- x) + (- y))
  else x.

Definition toRadians (degrees : float) : float := degrees * Math_PI / 180.

Definition _valueToAngle (config : option Config) (value : float) : float :=
  match config with
  | None => 0
  | Some config =>
      let value := if negb (isFinite value) then min config else value in
      let range := max config - min config in
      if range =? 0 then 0
      else
        let normalized := (value - min config) / range in
        let clamped := Math_max 0 (Math_min 1 normalized) in
        let startAngle := (startAngle config - 90) * Math_PI / 180 in
        let endAngle := (endAngle config - 90) * Math_PI / 180 in
        let result := startAngle + clamped * (endAngle - startAngle) in
        if isFinite result then result else 0
  end.

(** The expression [_valueToAngle] evaluates before its last guard. *)
Definition angle_formula (config : Config) (value : float) : float :=
  toRadians (startAngle config - 90)
  + Math_max 0 (Math_min 1 ((value - min config) / (max config - min config)))
    * (toRadians (endAngle config - 90) - toRadians (startAngle config - 90)).

(** [presets.modern] and [presets.speed] *)
Definition modern : Config :=
  {| min := 0; max := 320; startAngle := -130; endAngle := 130 |}.
Definition speed : Config :=
  {| min := 0; max := 140; startAngle := -225; endAngle := 45 |}.
(** [defaults] with [max] equal to [min] *)
Definition flat : Config :=
  {| min := 0; max := 0; startAngle := -225; endAngle := 45 |}.

(** [defaults] with [min = -1e308] and [max = 1e308]: finite bounds
    whose difference overflows. *)
Definition wide : Config :=
  {| min := -0x1.1ccf385ebc8ap+1023; max := 0x1.1ccf385ebc8ap+1023;
     startAngle := -225; endAngle := 45 |}.

(** [max - min === 0] *)
Definition zero_range (config : Config) : bool :=
  max config - min config =? 0.

(** [angle(min) === toRadians(startAngle - 90)] and
    [angle(max) === toRadians(endAngle - 90)] *)
Definition hits_lower (config : Config) : bool :=
  _valueToAngle (Some config) (min config)
  =? toRadians (startAngle config - 90).
Definition hits_upper (config : Config) : bool :=
  _valueToAngle (Some config) (max config)
  =? toRadians (endAngle config - 90).

End Ieee.

(** ** The simulator on binary64 floats *)

Module IeeeNeedle.
Import Stdlib.Floats.PrimFloat.
Import Ieee.
Local Open Scope float_scope.

(** [export const FIXED_TIMESTEP = 1 / 120;] and
    [export const MAX_FRAME_TIME = 0.1;] on binary64 *)
Definition FIXED_TIMESTEP : float := 1 / 120.
Definition MAX_FRAME_TIME : float := 0x1.999999999999ap-4.

Record t : Type := mk {
  angle : float;
  velocity : float;
  targetAngle : float;
  stiffness : float;
  damping : float;
  maxVelocity : float;
  maxAccel : float;
  accumulator : float;
  lastTime : option float;
  vibrationEnabled : bool;
  vibrationAmount : float;
  reducedMotion : bool
}.

(** [step(dt)] *)
Definition step (dt : float) (p : t) : t :=
  let displacement := targetAngle p - angle p in
  let acceleration := stiffness p * displacement - damping p * velocity p in
  let acceleration :=
    Math_max (- maxAccel p) (Math_min (maxAccel p) acceleration) in
  let velocity1 := velocity p + acceleration * dt in
  let velocity2 :=
    Math_max (- maxVelocity p) (Math_min (maxVelocity p) velocity1) in
  {| angle := angle p + velocity2 * dt;
     velocity := velocity2;
     targetAngle := targetAngle p;
     stiffness := stiffness p; damping := damping p;
     maxVelocity := maxVelocity p; maxAccel := maxAccel p;
     accumulator := accumulator p; lastTime := lastTime p;
     vibrationEnabled := vibrationEnabled p;
     vibrationAmount := vibrationAmount p;
     reducedMotion := reducedMotion p |}.

Definition set_accumulator (a : float) (p : t) : t :=
  {| angle := angle p; velocity := velocity p;
     targetAngle := targetAngle p;
     stiffness := stiffness p; damping := damping p;
     maxVelocity := maxVelocity p; maxAccel := maxAccel p;
     accumulator := a; lastTime := lastTime p;
     vibrationEnabled := vibrationEnabled p;
     vibrationAmount := vibrationAmount p;
     reducedMotion := reducedMotion p |}.

Definition set_lastTime (l : option float) (p : t) : t :=
  {| angle := angle p; velocity := velocity p;
     targetAngle := targetAngle p;
     stiffness := stiffness p; damping := damping p;
     maxVelocity := maxVelocity p; maxAccel := maxAccel p;
     accumulator := accumulator p; lastTime := l;
     vibrationEnabled := vibrationEnabled p;
     vibrationAmount := vibrationAmount p;
     reducedMotion := reducedMotion p |}.

(** The [while] loop of [update] with an iteration budget, counting the
    steps it runs; [None] when the budget is used up. *)
Fixpoint while_loop (fuel : nat) (p : t) (ran : nat) : option (t * nat) :=
  if FIXED_TIMESTEP <=? accumulator p then
    match fuel with
    | O => None
    | S fuel' =>
        let p1 := step FIXED_TIMESTEP p in
        while_loop fuel' (set_accumulator (accumulator p1 - FIXED_TIMESTEP) p1)
                   (S ran)
    end
  else Some (p, ran).

(** [update(currentTime)]: the new instance, the returned angle and
    the number of steps run; [None] when the loop has not ended after
    64 iterations.  [random] is the value drawn by [Math.random()]. *)
Definition update (currentTime random : float) (p : t)
  : option (t * float * nat) :=
  match lastTime p with
  | None => Some (set_lastTime (Some currentTime) p, angle p, O)
  | Some last =>
      let frameTime := (currentTime - last) / 1000 in
      let p := set_lastTime (Some currentTime) p in
      let frameTime :=
        if negb (isFinite frameTime) || (frameTime <? 0) then 0
        else frameTime in
      let frameTime :=
        if MAX_FRAME_TIME <? frameTime then MAX_FRAME_TIME else frameTime in
      if reducedMotion p then
        let p :=
          {| angle := targetAngle p; velocity := 0;
             targetAngle := targetAngle p;
             stiffness := stiffness p; damping := damping p;
             maxVelocity := maxVelocity p; maxAccel := maxAccel p;
             accumulator := accumulator p; lastTime := lastTime p;
             vibrationEnabled := vibrationEnabled p;
             vibrationAmount := vibrationAmount p;
             reducedMotion := reducedMotion p |} in
        Some (p, angle p, O)
      else
        let p := set_accumulator (accumulator p + frameTime) p in
        match while_loop 64 p O with
        | None => None
        | Some (p, ran) =>
            let outputAngle := angle p in
            let outputAngle :=
              if vibrationEnabled p
                 && (0x1.999999999999ap-4 <? abs (targetAngle p))
              then outputAngle
                   + (random - 0.5) * vibrationAmount p
                     * (targetAngle p / Math_PI)
              else outputAngle in
            Some (p, outputAngle, ran)
        end
  end.

(** Successive [update] calls: the final instance and the steps run. *)
Fixpoint updates (times : list float) (p : t) (ran : nat)
  : option (t * nat) :=
  match times with
  | [] => Some (p, ran)
  | currentTime :: rest =>
      match update currentTime 0.5 p with
      | Some (p', _, k) => updates rest p' (ran + k)
      | None => None
      end
  end.

(** The steps run by a series of calls, and the angle they end at. *)
Definition steps_run (times : list float) (p : t) : option nat :=
  option_map snd (updates times p O).
Definition final_angle (times : list float) (p : t) : option float :=
  option_map (fun r => angle (fst r)) (updates times p O).

(** A simulator at angle 0 aimed at 30 rad, with the default limits,
    its first frame at time 0 and [acc] in the accumulator. *)
Definition running (stiffness damping acc : float) : t :=
  {| angle := 0; velocity := 0; targetAngle := 30;
     stiffness := stiffness; damping := damping;
     maxVelocity := 20; maxAccel := 100;
     accumulator := acc; lastTime := Some 0;
     vibrationEnabled := false; vibrationAmount := 0x1.0624dd2f1a9fcp-9;
     reducedMotion := false |}.

(** The default tuning with an empty accumulator; with the largest
    double below [FIXED_TIMESTEP] in the accumulator; and a stiffness
    and damping of 1e308. *)
Definition started : t := running 120 18 0.
Definition carrying : t := running 120 18 (next_down FIXED_TIMESTEP).
Definition stiff : t :=
  running 0x1.1ccf385ebc8ap+1023 0x1.1ccf385ebc8ap+1023 0.

(** One frame after a gap of one second. *)
Definition long_gap : list float := [1000].

(** A span of 50 ms in one frame, and in three frames 50/3 ms apart. *)
Definition one_frame : list float := [50].
Definition three_frames : list float :=
  [0x1.0aaaaaaaaaaabp+4; 0x1.0aaaaaaaaaaabp+5; 50].

(** [n] frames 1000/60 ms apart, at the times [k * 1000 / 60],
    [(k + 1) * 1000 / 60], ...; sixty of them make up one second. *)
Fixpoint frames_every (n : nat) (k : float) : list float :=
  match n with
  | O => []
  | S n' => k * 1000 / 60 :: frames_every n' (k + 1)
  end.
Definition sixty_calls : list float := frames_every 60 1.

(** Whether the angle [b] lies more than 17 rad beyond the angle [a]. *)
Definition far_beyond (a b : option float) : bool :=
  match a, b with
  | Some a, Some b => a + 17 <? b
  | _, _ => false
  end.

End IeeeNeedle.

(* ===================================================================== *)
(** * Vocabulary of the statements                                        *)
(* ===================================================================== *)

(** ** The simulator: call sequences and invariants *)

Module Simulation.
Import Presets NeedlePhysics.

(** The elapsed time [update] adds to the accumulator: the value of
    [frameTime] after the two guards. *)
Definition frameTime (last currentTime : num) : num :=
  let frameTime := (currentTime - last) / ofZ 1000 in
  let frameTime :=
    if negb (isFinite frameTime) || (frameTime <? ofZ 0)
    then ofZ 0 else frameTime in
  if frameTime >? MAX_FRAME_TIME then MAX_FRAME_TIME else frameTime.

(** The value [update] returns once the loop is done. *)
Definition outputAngle (random : num) (p : t) : num :=
  if vibrationEnabled p && (Math_abs (targetAngle p) >? ofQ (1 # 10))
  then angle p
       + (random - ofQ (1 # 2)) * vibrationAmount p * (targetAngle p / Math_PI)
  else angle p.

(** [n] consecutive calls of [step(FIXED_TIMESTEP)]. *)
Definition steps (n : nat) (p : t) : t := Nat.iter n (step FIXED_TIMESTEP) p.


(** The fixed timestep as a rational, and the number of whole steps an
    accumulator value [x] holds. *)
Definition dtq : Qc := Q2Qc (1 # 120).
Definition due (x : Qc) : nat := Z.to_nat (Qfloor (this x * 120)).


(** A call on a simulator. *)
Inductive call : Type :=
| SetTarget (angle : num) (immediate : bool)
| Update (currentTime random : num).

Definition apply_call (c : call) (p : t) : option t :=
  match c with
  | SetTarget a immediate => Some (setTarget a immediate p)
  | Update currentTime random => option_map fst (update currentTime random p)
  end.

Fixpoint run (calls : list call) (p : t) : option t :=
  match calls with
  | [] => Some p
  | c :: rest =>
      match apply_call c p with
      | Some p' => run rest p'
      | None => None
      end
  end.

Definition finite_call (c : call) : Prop :=
  match c with
  | SetTarget a _ => isFinite a = true
  | Update currentTime _ => isFinite currentTime = true
  end.

(** Successive [update] calls, collecting the returned angles. *)
Fixpoint updates (frames : list (num * num)) (p : t)
  : option (t * list num) :=
  match frames with
  | [] => Some (p, [])
  | (currentTime, random) :: rest =>
      match update currentTime random p with
      | Some (p', out) =>
          match updates rest p' with
          | Some (p'', outs) => Some (p'', out :: outs)
          | None => None
          end
      | None => None
      end
  end.

(** The angle stored after the given frames. *)
Definition final_angle (frames : list (num * num)) (p : t) : option num :=
  option_map (fun r => angle (fst r)) (updates frames p).


(** The accumulator invariant: [0 <= accumulator < FIXED_TIMESTEP]. *)
Definition accumulator_ok (p : t) : Prop :=
  (ofZ 0 <=? accumulator p) = true
  /\ (accumulator p <? FIXED_TIMESTEP) = true.

(** The velocity does not exceed [maxVelocity]. *)
Definition velocity_capped (p : t) : Prop :=
  (Math_abs (velocity p) >? maxVelocity p) = false.

(** The tuning and the flags of two instances agree. *)
Definition same_parameters (p p' : t) : Prop :=
  stiffness p' = stiffness p /\ damping p' = damping p
  /\ maxVelocity p' = maxVelocity p /\ maxAccel p' = maxAccel p
  /\ reducedMotion p' = reducedMotion p
  /\ vibrationEnabled p' = vibrationEnabled p
  /\ vibrationAmount p' = vibrationAmount p.

(** Finite tuning with a positive velocity limit. *)
Record finite_parameters (p : t) : Prop := {
  fp_stiffness : isFinite (stiffness p) = true;
  fp_damping : isFinite (damping p) = true;
  fp_maxVelocity : exists q : Qc, maxVelocity p = Fin q /\ (0 < q)%Qc;
  fp_maxAccel : maxAccel p <> NaN
}.

(** Finite motion state within the velocity limit. *)
Record finite_motion (p : t) : Prop := {
  fm_angle : isFinite (angle p) = true;
  fm_target : isFinite (targetAngle p) = true;
  fm_velocity : isFinite (velocity p) = true;
  fm_capped : (Math_abs (velocity p) <=? maxVelocity p) = true
}.

(** Finite stiffness and damping, limits that are not negative. *)
Record sane_parameters (p : t) : Prop := {
  sp_stiffness : isFinite (stiffness p) = true;
  sp_damping : isFinite (damping p) = true;
  sp_maxAccel : (ofZ 0 <=? maxAccel p) = true;
  sp_maxVelocity : (ofZ 0 <=? maxVelocity p) = true
}.

(** At rest at [x]: on target with no velocity. *)
Record at_rest (x : Qc) (p : t) : Prop := {
  ar_angle : angle p = Fin x;
  ar_target : targetAngle p = Fin x;
  ar_velocity : velocity p = ofZ 0
}.

(** No jitter is added to the angle [update] returns. *)
Definition quiet (x : Qc) (p : t) : Prop :=
  vibrationEnabled p = false \/ (Math_abs (Fin x) >? ofQ (1 # 10)) = false.

(** A default simulator at angle 0 aimed at 30 rad, far enough for the
    acceleration to stay at [maxAccel] for over a second; its first frame
    came at time 0. *)
Definition started : t :=
  set_lastTime (Some (ofZ 0))
    (setTarget (ofZ 30) false (constructor defaults false)).



(** A default simulator with vibration switched on, snapped to 1 rad. *)
Definition vibrating : t :=
  setTarget (ofZ 1) true
    (set_vibrationEnabled true (constructor defaults false)).

End Simulation.

(** ** The value mapping *)

Module Mapping.
Import Presets.

Definition toRadians (degrees : num) : num := degrees * Math_PI / ofZ 180.

Definition clamp01 (x : num) : num := Math_max (ofZ 0) (Math_min (ofZ 1) x).

(** The mapping as the specification writes it. *)
Definition angle_formula (config : Config) (value : num) : num :=
  toRadians (startAngle config - ofZ 90)
  + clamp01 ((value - min config) / (max config - min config))
    * (toRadians (endAngle config - ofZ 90)
       - toRadians (startAngle config - ofZ 90)).

(** [defaults] with [max] equal to [min]. *)
Definition flat : Config :=
  {| min := ofZ 0; max := ofZ 0;
     majorTicks := 5; minorTicks := 4;
     startAngle := ofZ (-225); endAngle := ofZ 45;
     stiffness := Some (ofZ 120); damping := Some (ofZ 18);
     maxVelocity := None; maxAccel := None;
     faceStyle := "light"; colors := no_colors;
     zones := [];
     redlineStart := None; dangerStart := None;
     customLabels := None; microTicks := false |}.

(** [defaults] with [max] below [min]. *)
Definition inverted : Config :=
  {| min := ofZ 100; max := ofZ 0;
     majorTicks := 5; minorTicks := 4;
     startAngle := ofZ (-225); endAngle := ofZ 45;
     stiffness := Some (ofZ 120); damping := Some (ofZ 18);
     maxVelocity := None; maxAccel := None;
     faceStyle := "light"; colors := no_colors;
     zones := [];
     redlineStart := None; dangerStart := None;
     customLabels := None; microTicks := false |}.

End Mapping.

(** ** The sweep *)

Module SweepRun.
Import Presets Gauge.

(** A call on a gauge: an animation frame or [setValue]. *)
Inductive op : Type :=
| Frame (timestamp random : num)
| SetValue (value : num) (immediate : bool).

Definition apply_op (o : op) (g : t) : option t :=
  match o with
  | Frame timestamp random => option_map fst (_render timestamp random g)
  | SetValue value immediate => Some (setValue value immediate g)
  end.

Fixpoint run_gauge (ops : list op) (g : t) : option t :=
  match ops with
  | [] => Some g
  | o :: rest =>
      match apply_op o g with
      | Some g' => run_gauge rest g'
      | None => None
      end
  end.

(** How many ['gauge:sweepcomplete'] events a log holds. *)
Definition completions (log : list Event) : nat :=
  List.length
    (List.filter
       (fun e => match e with gauge_sweepcomplete => true | _ => false end)
       log).

(** The angle of a value under the gauge's configuration. *)
Definition angleOf (g : t) (value : num) : num :=
  _valueToAngle (Some (_config g)) value.

(** A sweep under way: going up aimed at [max], or down aimed at [min]. *)
Definition sweeping (g : t) : Prop :=
  _isSweeping g = true
  /\ ((_sweepPhase g = up
       /\ NeedlePhysics.targetAngle (_physics g) = angleOf g (max (_config g)))
      \/ (_sweepPhase g = down
          /\ NeedlePhysics.targetAngle (_physics g)
             = angleOf g (min (_config g)))).

(** The sweep is over. *)
Definition completed (g : t) : Prop :=
  _isSweeping g = false /\ _sweepPhase g = idle.

(** The value remembered after a sequence of calls. *)
Definition remembered (ops : list op) (value : num) : num :=
  List.fold_left
    (fun v o => match o with SetValue v' _ => v' | Frame _ _ => v end)
    ops value.

(** Where a sweep stands after some calls: still under way with no
    completion signalled, or over with exactly one and the simulator
    aimed at the remembered value. *)
Definition sweep_progress (before : nat) (g : t) : Prop :=
  (sweeping g /\ completions (dispatched g) = before)
  \/ (completed g
      /\ completions (dispatched g) = S before
      /\ NeedlePhysics.targetAngle (_physics g) = angleOf g (_targetValue g)).

End SweepRun.

(** ** Zones, ticks and gradients *)

Module Faceplate.
Import Presets GaugeRenderer.

(** The zone generated from a legacy threshold. *)
Definition legacyZone (start : num) (config : Config) : Zone :=
  {| zone_start := start; zone_end := max config;
     zone_color := "rgba(204, 32, 32, 0.15)";
     zone_offset := None; zone_width := None |}.

(** [presets.rpm] with the redline moved to zero. *)
Definition rpm_from_zero : Config :=
  {| min := ofZ 0; max := ofZ 80;
     majorTicks := 9; minorTicks := 5;
     startAngle := ofZ (-225); endAngle := ofZ 45;
     stiffness := Some (ofZ 150); damping := Some (ofZ 16);
     maxVelocity := None; maxAccel := None;
     faceStyle := "light"; colors := no_colors;
     zones := [];
     redlineStart := Some (ofZ 0); dangerStart := None;
     customLabels := None; microTicks := false |}.

(** A value reaches a legacy threshold that is set and truthy. *)
Definition reaches (threshold : option num) (value : num) : bool :=
  match threshold with
  | Some th => truthy th && (value >=? th)
  | None => false
  end.

(** One channel of the interpolated color. *)
Definition channel (c1 c2 localT : num) : num :=
  Math_round (c1 + (c2 - c1) * localT).

(** The rounded linear interpolation of two stops at position [t]. *)
Definition mix (lower upper : Stop) (t : num) : Css :=
  let range := at_ upper - at_ lower in
  let localT := if range >? ofZ 0 then (t - at_ lower) / range else ofZ 0 in
  let '(r1, g1, b1) := _parseHex (color lower) in
  let '(r2, g2, b2) := _parseHex (color upper) in
  rgb (channel r1 r2 localT) (channel g1 g2 localT) (channel b1 b2 localT).

(** The color of a stop, channel by channel. *)
Definition rgb_of (s : Stop) : Css :=
  let '(r, g, b) := _parseHex (color s) in rgb r g b.

(** The color of a stop parses to three numbers. *)
Definition hex_ok (s : Stop) : Prop :=
  let '(r, g, b) := _parseHex (color s) in
  isFinite r = true /\ isFinite g = true /\ isFinite b = true.

(** Stops in strictly increasing position. *)
Fixpoint increasing (stops : list Stop) : Prop :=
  match stops with
  | s0 :: rest =>
      match rest with
      | s1 :: _ => (at_ s0 <? at_ s1) = true /\ increasing rest
      | [] => True
      end
  | [] => True
  end.

(** Two stops that do not reach the ends of [[0, 1]]. *)
Definition inner_stops : list Stop :=
  [ {| at_ := ofQ (1 # 4); color := "#000000" |};
    {| at_ := ofQ (3 # 4); color := "#646464" |} ].

End Faceplate.

(* ===================================================================== *)
(** * src/GaugeRenderer.js, continued, and further vocabulary            *)
(* ===================================================================== *)

(** ** Configurations used as examples *)

Module Configs.
Import Presets.


(** [defaults] with the two ends of the dial exchanged. *)
Definition counter_clockwise : Config :=
  {| min := ofZ 0; max := ofZ 100;
     majorTicks := 5; minorTicks := 4;
     startAngle := ofZ 45; endAngle := ofZ (-225);
     stiffness := Some (ofZ 120); damping := Some (ofZ 18);
     maxVelocity := None; maxAccel := None;
     faceStyle := "light"; colors := no_colors;
     zones := [];
     redlineStart := None; dangerStart := None;
     customLabels := None; microTicks := false |}.

(** [defaults] with the face color in the short form [#RGB]. *)
Definition short_face : Config :=
  {| min := ofZ 0; max := ofZ 100;
     majorTicks := 5; minorTicks := 4;
     startAngle := ofZ (-225); endAngle := ofZ 45;
     stiffness := Some (ofZ 120); damping := Some (ofZ 18);
     maxVelocity := None; maxAccel := None;
     faceStyle := "light";
     colors := mkColors (Some "#FFF") None None None None None None None;
     zones := [];
     redlineStart := None; dangerStart := None;
     customLabels := None; microTicks := false |}.

(** [defaults] with a single major tick. *)
Definition one_tick : Config :=
  {| min := ofZ 0; max := ofZ 100;
     majorTicks := 1; minorTicks := 4;
     startAngle := ofZ (-225); endAngle := ofZ 45;
     stiffness := Some (ofZ 120); damping := Some (ofZ 18);
     maxVelocity := None; maxAccel := None;
     faceStyle := "light"; colors := no_colors;
     zones := [];
     redlineStart := None; dangerStart := None;
     customLabels := None; microTicks := false |}.

End Configs.

(** ** A simulator without a spring *)

Module Spring.
Import Presets NeedlePhysics Simulation.

(** A simulator whose spring is switched off and that stands still
    at [a]. *)
Record springless (a : Qc) (p : t) : Prop := {
  sl_stiffness : stiffness p = ofZ 0;
  sl_velocity : velocity p = ofZ 0;
  sl_angle : angle p = Fin a;
  sl_target : isFinite (targetAngle p) = true;
  sl_damping : isFinite (damping p) = true;
  sl_maxAccel : (ofZ 0 <=? maxAccel p) = true;
  sl_maxVelocity : (ofZ 0 <=? maxVelocity p) = true;
  sl_reducedMotion : reducedMotion p = false
}.

End Spring.

(** ** Calls that leave the needle to the simulator *)

Module Frames.
Import Presets Gauge SweepRun.


(** The [setValue] calls of a sequence, without its frames. *)
Definition setValues (ops : list op) : list op :=
  List.filter
    (fun o => match o with SetValue _ _ => true | Frame _ _ => false end)
    ops.

End Frames.

(** ** [drawTicks]: the minor ticks *)

Module Scale.
Import Presets GaugeRenderer.

(** [(majorCount - 1) * config.minorTicks] *)
Definition totalMinor (config : Config) : Z :=
  ((Z.of_nat (majorTicks config) - 1) * Z.of_nat (minorTicks config))%Z.

(** [startAngle + (i / totalMinor) * totalAngle] *)
Definition minorAngle (config : Config) (i : nat) : num :=
  let startAngle := (startAngle config - ofZ 90) * Math_PI / ofZ 180 in
  let endAngle := (endAngle config - ofZ 90) * Math_PI / ofZ 180 in
  let totalAngle := endAngle - startAngle in
  startAngle + (ofZ (Z.of_nat i) / ofZ (totalMinor config)) * totalAngle.

(** The minor-tick loop of [drawTicks]: [i] runs from 0 to [totalMinor]
    and the positions with [i % config.minorTicks === 0] are skipped. *)
Definition drawTicks_minor (this : t) : list Tick :=
  let config := config this in
  let colors := _resolvedColors this in
  if Nat.ltb 0 (minorTicks config) then
    List.map
      (fun i =>
         {| tick_angle := minorAngle config i;
            tick_style := minorTicksColor colors |})
      (List.filter
         (fun i => negb (Nat.eqb (i mod minorTicks config) 0))
         (List.seq 0 (Z.to_nat (totalMinor config + 1))))
  else [].

End Scale.

(** ** [drawActiveTicks] *)

Module ActiveTickLayer.
Import Presets GaugeRenderer Scale.

(** [config.activeTicks] *)
Record ActiveTicks : Type := mkActiveTicks { at_color : option string }.

(** A tick loop with [if (angle > currentAngle) break;]: the ticks
    stroked before the loop is left. *)
Fixpoint until_beyond (currentAngle : num) (ticks : list Tick) : list Tick :=
  match ticks with
  | [] => []
  | tk :: rest =>
      if tick_angle tk >? currentAngle then []
      else tk :: until_beyond currentAngle rest
  end.

(** [drawActiveTicks(ctx, center, radius, currentAngle, config)] with
    [config.activeTicks] as an argument of its own: the major and the
    minor ticks stroked. *)
Definition drawActiveTicks (activeTicks : option ActiveTicks)
  (currentAngle : num) (config : Config) : list Tick * list Tick :=
  match activeTicks with
  | None => ([], [])
  | Some active =>
      let startAngle := (startAngle config - ofZ 90) * Math_PI / ofZ 180 in
      let endAngle := (endAngle config - ofZ 90) * Math_PI / ofZ 180 in
      let totalAngle := endAngle - startAngle in
      let color := str_or_else (at_color active) "#FF8800" in
      let majorCount := ofZ (Z.of_nat (majorTicks config)) in
      let major :=
        until_beyond currentAngle
          (List.map
             (fun i =>
                {| tick_angle :=
                     startAngle
                     + (ofZ (Z.of_nat i) / (majorCount - ofZ 1)) * totalAngle;
                   tick_style := color |})
             (List.seq 0 (majorTicks config))) in
      let minor :=
        if Nat.ltb 0 (minorTicks config) then
          until_beyond currentAngle
            (List.map
               (fun i =>
                  {| tick_angle := minorAngle config i;
                     tick_style := color |})
               (List.filter
                  (fun i => negb (Nat.eqb (i mod minorTicks config) 0))
                  (List.seq 0 (Z.to_nat (totalMinor config + 1)))))
        else [] in
      (major, minor)
  end.

End ActiveTickLayer.

(** ** [_drawGradientArc] and [drawProgressArc] *)

Module Arcs.
Import Presets GaugeRenderer Scale ActiveTickLayer.

(** One stroked piece of a gradient arc: [segStart], [segEnd], the end
    angle handed to [ctx.arc] and [ctx.strokeStyle]. *)
Record ArcSegment : Type := mkArcSegment {
  seg_start : num;
  seg_end : num;
  seg_drawn_to : num;
  seg_style : Css
}.

(** The body of the loop of [_drawGradientArc] at index [i]. *)
Definition gradientSegment (fromAngle totalSweep segments startAngle
  fullSweep : num) (gradient : list Stop) (i : nat) : ArcSegment :=
  let segStart := fromAngle + (ofZ (Z.of_nat i) / segments) * totalSweep in
  let segEnd :=
    fromAngle + ((ofZ (Z.of_nat i) + ofZ 1) / segments) * totalSweep in
  let midT :=
    if negb (fullSweep === ofZ 0)
    then ((segStart + segEnd) / ofZ 2 - startAngle) / fullSweep
    else ofZ 0 in
  {| seg_start := segStart; seg_end := segEnd;
     seg_drawn_to := segEnd + ofQ (5 # 1000);
     seg_style := _interpolateGradient gradient midT |}.

(** [_drawGradientArc(ctx, cx, cy, arcRadius, arcWidth, fromAngle,
    toAngle, startAngle, endAngle, gradient)]: the segments stroked;
    [None] when the loop does not end ([segments] is +Infinity). *)
Definition _drawGradientArc (fromAngle toAngle startAngle endAngle : num)
  (gradient : list Stop) : option (list ArcSegment) :=
  let totalSweep := toAngle - fromAngle in
  if Math_abs totalSweep <? ofQ (1 # 1000) then Some []
  else
    let fullSweep := endAngle - startAngle in
    let segmentAngle := ofZ 2 * Math_PI / ofZ 180 in
    let segments :=
      Math_max (ofZ 1) (Math_ceil (Math_abs totalSweep / segmentAngle)) in
    match segments with
    | Fin n =>
        Some (List.map
                (gradientSegment fromAngle totalSweep segments startAngle
                   fullSweep gradient)
                (List.seq 0 (Z.to_nat (Qceiling n))))
    | PInf => None
    | _ => Some []
    end.

(** [config.progressArc] *)
Record ProgressArc : Type := mkProgressArc {
  pa_offset : option num;
  pa_width : option num;
  pa_background : option string;
  pa_gradient : option (list Stop);
  pa_glow : bool
}.

(** What [drawProgressArc] strokes: the background track (its two
    angles), the segments of the fill, and the glow (two angles and a
    style); radius and line width of the arc. *)
Record ProgressDrawn : Type := mkProgressDrawn {
  pd_radius : num;
  pd_width : num;
  pd_track : option (num * num);
  pd_fill : list ArcSegment;
  pd_glow : option (num * num * Css)
}.

(** [[{ at: 0, color: '#0066FF' }, { at: 1, color: '#FF2200' }]] *)
Definition progressGradient : list Stop :=
  [ {| at_ := ofZ 0; color := "#0066FF" |};
    {| at_ := ofZ 1; color := "#FF2200" |} ].

(** [progressArc: {}]: every key left to its default. *)
Definition bareProgressArc : ProgressArc :=
  mkProgressArc None None None None false.

(** [drawProgressArc(ctx, center, radius, currentAngle, config)] with
    [config.progressArc] as an argument of its own; the outer [None] is
    a call that does not return, the inner one a call that returns at
    [if (!arc) return]. *)
Definition drawProgressArc (progressArc : option ProgressArc)
  (radius currentAngle : num) (config : Config)
  : option (option ProgressDrawn) :=
  match progressArc with
  | None => Some None
  | Some arc =>
      let startAngle := (startAngle config - ofZ 90) * Math_PI / ofZ 180 in
      let endAngle := (endAngle config - ofZ 90) * Math_PI / ofZ 180 in
      let arcRadius := radius * or_else (pa_offset arc) (ofQ (92 # 100)) in
      let arcWidth := radius * or_else (pa_width arc) (ofQ (4 # 100)) in
      let track :=
        if truthy_str (pa_background arc) then Some (startAngle, endAngle)
        else None in
      if currentAngle <=? startAngle then
        Some (Some {| pd_radius := arcRadius; pd_width := arcWidth;
                      pd_track := track; pd_fill := []; pd_glow := None |})
      else
        let fillEnd := Math_min currentAngle endAngle in
        let gradient :=
          match pa_gradient arc with
          | Some g => g
          | None => progressGradient
          end in
        match _drawGradientArc startAngle fillEnd startAngle endAngle
                gradient with
        | None => None
        | Some segs =>
            Some (Some
              {| pd_radius := arcRadius; pd_width := arcWidth;
                 pd_track := track; pd_fill := segs;
                 pd_glow :=
                   if pa_glow arc then
                     Some (fillEnd - ofQ (5 # 100), fillEnd,
                           _interpolateGradient gradient
                             ((fillEnd - startAngle)
                              / (endAngle - startAngle)))
                   else None |})
        end
  end.

(** [2 * Math.PI / 180], the span of a segment, as a rational. *)
Definition sigmaq : Qc :=
  (Q2Qc (inject_Z 2) * Q2Qc (884279719003555 # 281474976710656)
   / Q2Qc (inject_Z 180))%Qc.

End Arcs.

(** ** [drawRings] *)

Module Rings.
Import Presets GaugeRenderer Scale ActiveTickLayer Arcs.

(** [ring.flash] *)
Record Flash : Type := mkFlash {
  flash_above : option num;
  flash_rate : option num;
  flash_color : option string
}.

(** An entry of [config.rings]. *)
Record Ring : Type := mkRing {
  ring_min : option num;
  ring_max : option num;
  ring_offset : option num;
  ring_width : option num;
  ring_startAngle : option num;
  ring_endAngle : option num;
  ring_segments : option num;
  ring_gradient : option (list Stop);
  ring_background : option string;
  ring_flash : option Flash
}.

(** [[{ at: 0, color: '#00CC44' }, { at: 1, color: '#FF2200' }]] *)
Definition ringGradient : list Stop :=
  [ {| at_ := ofZ 0; color := "#00CC44" |};
    {| at_ := ofZ 1; color := "#FF2200" |} ].

(** [presets.modern.rings[0]] *)
Definition modernRing : Ring :=
  {| ring_min := Some (ofZ 0);
     ring_max := Some (ofZ 8000);
     ring_offset := Some (ofQ (108 # 100));
     ring_width := Some (ofQ (4 # 100));
     ring_startAngle := Some (ofZ (-75));
     ring_endAngle := Some (ofZ 75);
     ring_segments := Some (ofZ 30);
     ring_gradient :=
       Some [ {| at_ := ofZ 0; color := "#2255FF" |};
              {| at_ := ofQ (15 # 100); color := "#00CC44" |};
              {| at_ := ofQ (7 # 10); color := "#CCCC00" |};
              {| at_ := ofZ 1; color := "#FF2200" |} ];
     ring_background := Some "rgba(255,255,255,0.04)";
     ring_flash :=
       Some {| flash_above := Some (ofZ 7000);
               flash_rate := Some (ofZ 4);
               flash_color := Some "rgba(255, 0, 0, 0.5)" |} |}.

(** [ringValues[i] != null ? ringValues[i] : ring.min || 0] *)
Definition ringValue (ringValues : list (option num)) (i : nat) (ring : Ring)
  : num :=
  match List.nth_error ringValues i with
  | Some (Some v) => v
  | _ => or_else (ring_min ring) (ofZ 0)
  end.

(** [ring.startAngle != null ? (ring.startAngle - 90) * Math.PI / 180
     : defaultStartAngle], and the same for the end *)
Definition ringStart (ring : Ring) (config : Config) : num :=
  match ring_startAngle ring with
  | Some a => (a - ofZ 90) * Math_PI / ofZ 180
  | None => (startAngle config - ofZ 90) * Math_PI / ofZ 180
  end.

Definition ringEnd (ring : Ring) (config : Config) : num :=
  match ring_endAngle ring with
  | Some a => (a - ofZ 90) * Math_PI / ofZ 180
  | None => (endAngle config - ofZ 90) * Math_PI / ofZ 180
  end.

(** [range > 0 ? Math.max(0, Math.min(1, (value - min) / range)) : 0] *)
Definition ringNormalized (ring : Ring) (value : num) (config : Config)
  : num :=
  let min := or_else (ring_min ring) (ofZ 0) in
  let max :=
    match ring_max ring with Some m => m | None => Presets.max config end in
  let range := max - min in
  if range >? ofZ 0
  then Math_max (ofZ 0) (Math_min (ofZ 1) ((value - min) / range))
  else ofZ 0.

(** The loop over the blocks of a segmented ring, left at the first
    block with [segEnd > fillEnd + segAngle * 0.5]. *)
Fixpoint blocks_until (bound : num) (blocks : list ArcSegment)
  : list ArcSegment :=
  match blocks with
  | [] => []
  | sg :: rest =>
      if seg_end sg >? bound then []
      else sg :: blocks_until bound rest
  end.

(** What one pass of the loop of [drawRings] strokes. *)
Record RingDrawn : Type := mkRingDrawn {
  rd_radius : num;
  rd_width : num;
  rd_track : option (num * num);
  rd_fill : list ArcSegment;
  rd_flash : bool
}.

(** The body of the loop of [drawRings] for ring [i], the flash reduced
    to whether it is drawn; [None] when a loop does not end. *)
Definition drawRing (radius : num) (ringValues : list (option num))
  (config : Config) (i : nat) (ring : Ring) : option RingDrawn :=
  let value := ringValue ringValues i ring in
  let ringRadius := radius * or_else (ring_offset ring) (ofQ (96 # 100)) in
  let ringWidth := radius * or_else (ring_width ring) (ofQ (3 # 100)) in
  let startAngle := ringStart ring config in
  let endAngle := ringEnd ring config in
  let normalized := ringNormalized ring value config in
  let fillEnd := startAngle + normalized * (endAngle - startAngle) in
  let track :=
    if truthy_str (ring_background ring) then Some (startAngle, endAngle)
    else None in
  let flash :=
    match ring_flash ring with
    | Some f => value >=? read (flash_above f)
    | None => false
    end in
  let fill :=
    if normalized >? ofZ 0 then
      let gradient :=
        match ring_gradient ring with
        | Some g => g
        | None => ringGradient
        end in
      if truthy_opt (ring_segments ring) then
        let totalSweep := endAngle - startAngle in
        let segCount := read (ring_segments ring) in
        let gapAngle := totalSweep * ofQ (3 # 1000) in
        let segAngle :=
          (totalSweep - gapAngle * (segCount - ofZ 1)) / segCount in
        let filledSegments := Math_ceil (normalized * segCount) in
        let block (s : nat) :=
          let segStart :=
            startAngle + ofZ (Z.of_nat s) * (segAngle + gapAngle) in
          let segEnd := segStart + segAngle in
          let midT :=
            if negb (endAngle - startAngle === ofZ 0)
            then (segStart + segEnd) / ofZ 2 - startAngle
            else ofZ 0 in
          let t := midT / totalSweep in
          {| seg_start := segStart; seg_end := segEnd;
             seg_drawn_to := segEnd;
             seg_style := _interpolateGradient gradient t |} in
        match filledSegments with
        | Fin n =>
            Some (blocks_until (fillEnd + segAngle * ofQ (1 # 2))
                    (List.map block (List.seq 0 (Z.to_nat (Qceiling n)))))
        | PInf => None
        | _ => Some []
        end
      else
        _drawGradientArc startAngle fillEnd startAngle endAngle gradient
    else Some [] in
  match fill with
  | Some segs =>
      Some {| rd_radius := ringRadius; rd_width := ringWidth;
              rd_track := track; rd_fill := segs; rd_flash := flash |}
  | None => None
  end.

(** All results of a list of calls, if each of them returns. *)
Fixpoint all_some (A : Type) (l : list (option A)) : option (list A) :=
  match l with
  | [] => Some []
  | None :: _ => None
  | Some x :: rest =>
      match all_some rest with
      | Some xs => Some (x :: xs)
      | None => None
      end
  end.

(** [drawRings(ctx, center, radius, ringValues, timestamp, config)]
    with [config.rings] as an argument of its own. *)
Definition drawRings (rings : list Ring) (radius : num)
  (ringValues : list (option num)) (config : Config)
  : option (list RingDrawn) :=
  all_some
    (List.map (fun ir => drawRing radius ringValues config (fst ir) (snd ir))
              (List.combine (List.seq 0 (List.length rings)) rings)).

End Rings.

(** ** [_needleGradient], [drawNeedle], [_lightenColor], [_darkenColor] and [drawFace] *)

Module Paint.
Import Presets GaugeRenderer.

(** [needleColor.match(/^#[0-9a-fA-F]{6}$/)] *)
Definition is_hex_digit (c : ascii) : bool :=
  match hex_digit c with Some _ => true | None => false end.

Definition matches_hex6 (s : string) : bool :=
  match s with
  | String "#" (String c1 (String c2 (String c3 (String c4 (String c5
      (String c6 EmptyString)))))) =>
      is_hex_digit c1 && is_hex_digit c2 && is_hex_digit c3
      && is_hex_digit c4 && is_hex_digit c5 && is_hex_digit c6
  | _ => false
  end.

(** A color stop of a canvas gradient as the renderer adds it: a
    position with a color string taken over as it is, or with the
    template literal [`rgb(${r}, ${g}, ${b})`]. *)
Inductive StopColor : Type :=
| plain (s : string)
| rgbOf (r g b : num).

(** [_needleGradient(ctx, baseColor, needleWidth)]: the stops added. *)
Definition _needleGradient (baseColor : string) : list (num * StopColor) :=
  let r := parseInt16 (slice 1 3 baseColor) in
  let g := parseInt16 (slice 3 5 baseColor) in
  let b := parseInt16 (slice 5 7 baseColor) in
  let lighter :=
    rgbOf (Math_min (ofZ 255) (r + ofZ 50)) (Math_min (ofZ 255) (g + ofZ 30))
          (Math_min (ofZ 255) (b + ofZ 30)) in
  let darker :=
    rgbOf (Math_max (ofZ 0) (r - ofZ 30)) (Math_max (ofZ 0) (g - ofZ 16))
          (Math_max (ofZ 0) (b - ofZ 16)) in
  let base := rgbOf r g b in
  [ (ofZ 0, lighter); (ofQ (3 # 10), base); (ofQ (5 # 10), darker);
    (ofQ (7 # 10), base); (ofZ 1, lighter) ].

(** [ctx.fillStyle] of the needle body in [drawNeedle]: the gradient
    for a color of the form [#RRGGBB], the color itself otherwise. *)
Inductive NeedleFill : Type :=
| gradientFill (stops : list (num * StopColor))
| colorFill (s : string).

Definition needleFill (this : t) : NeedleFill :=
  let needleColor := needle (_resolvedColors this) in
  if matches_hex6 needleColor then gradientFill (_needleGradient needleColor)
  else colorFill needleColor.

(** [_lightenColor(hex, amount)] and [_darkenColor(hex, amount)] for a
    string [hex]; [_parseHex] does not throw on a string, so the
    [catch] branch is not reached. *)
Definition _lightenColor (hex : string) (amount : num) : StopColor :=
  let '(r, g, b) := _parseHex hex in
  rgbOf (Math_min (ofZ 255) (r + amount)) (Math_min (ofZ 255) (g + amount))
        (Math_min (ofZ 255) (b + amount)).

Definition _darkenColor (hex : string) (amount : num) : StopColor :=
  let '(r, g, b) := _parseHex hex in
  rgbOf (Math_max (ofZ 0) (r - amount)) (Math_max (ofZ 0) (g - amount))
        (Math_max (ofZ 0) (b - amount)).

(** [drawFace(ctx, center, radius)]: the stops of the face gradient. *)
Definition drawFace (this : t) : list (num * StopColor) :=
  let colors := _resolvedColors this in
  let isDark := String.eqb (faceStyle (config this)) "dark" in
  let base := face colors in
  if isDark then
    [ (ofZ 0, _lightenColor base (ofZ 20)); (ofQ (3 # 10), plain base);
      (ofQ (7 # 10), _darkenColor base (ofZ 10));
      (ofZ 1, _darkenColor base (ofZ 20)) ]
  else
    [ (ofZ 0, plain base); (ofQ (3 # 10), _darkenColor base (ofZ 3));
      (ofQ (7 # 10), _darkenColor base (ofZ 7));
      (ofZ 1, _darkenColor base (ofZ 12)) ].

(** A channel that the CSS notation [rgb(r, g, b)] accepts here: an
    integer from 0 to 255. *)
Definition byte_channel (n : num) : Prop :=
  exists z : Z, n = ofZ z /\ (0 <= z <= 255)%Z.

(** A stop color that is a string taken over, or three such channels. *)
Definition byte_color (c : StopColor) : Prop :=
  match c with
  | plain _ => True
  | rgbOf r g b => byte_channel r /\ byte_channel g /\ byte_channel b
  end.

(** A stop color that is the string [s], or is computed with a blue
    channel that is not a number. *)
Definition blue_lost (s : string) (c : StopColor) : Prop :=
  match c with
  | plain s' => s' = s
  | rgbOf _ _ b => b = NaN
  end.

End Paint.

(* ===================================================================== *)
(** * Facts about the number model                                        *)
(* ===================================================================== *)

Section NumFacts.

Lemma qc_ltb_iff (a b : Qc) : qc_ltb a b = true <-> (a < b)%Qc.
Proof.
  unfold qc_ltb. rewrite Qclt_alt.
  destruct (a ?= b)%Qc; split; congruence.
Qed.

Lemma qc_leb_iff (a b : Qc) : qc_leb a b = true <-> (a <= b)%Qc.
Proof.
  unfold qc_leb. rewrite Qcle_alt.
  destruct (a ?= b)%Qc; split; congruence.
Qed.

Lemma qc_eqb_iff (a b : Qc) : qc_eqb a b = true <-> a = b.
Proof.
  unfold qc_eqb. rewrite Qceq_alt.
  destruct (a ?= b)%Qc; split; congruence.
Qed.

Lemma qc_ltb_false_iff (a b : Qc) : qc_ltb a b = false <-> (b <= a)%Qc.
Proof.
  rewrite <- not_true_iff_false, qc_ltb_iff. split.
  - apply Qcnot_lt_le.
  - apply Qcle_not_lt.
Qed.

Lemma qc_leb_false_iff (a b : Qc) : qc_leb a b = false <-> (b < a)%Qc.
Proof.
  rewrite <- not_true_iff_false, qc_leb_iff. split.
  - apply Qcnot_le_lt.
  - apply Qclt_not_le.
Qed.

Lemma qc_eqb_false_iff (a b : Qc) : qc_eqb a b = false <-> a <> b.
Proof. rewrite <- not_true_iff_false, qc_eqb_iff. tauto. Qed.

Lemma qc_eq_Qeq (a b : Qc) : a = b -> (this a == this b)%Q.
Proof. intros ->. reflexivity. Qed.

End NumFacts.

(** Goals and hypotheses on [Qc] are sent to [Q], where [lra] and [nra]
    decide them. *)
Ltac qc_to_q :=
  repeat match goal with
         | H : qc_ltb _ _ = true |- _ => apply qc_ltb_iff in H
         | H : qc_leb _ _ = true |- _ => apply qc_leb_iff in H
         | H : qc_eqb _ _ = true |- _ => apply qc_eqb_iff in H
         | H : qc_ltb _ _ = false |- _ => apply qc_ltb_false_iff in H
         | H : qc_leb _ _ = false |- _ => apply qc_leb_false_iff in H
         | H : qc_eqb _ _ = false |- _ => apply qc_eqb_false_iff in H
         | H : @eq Qc _ _ |- _ => apply qc_eq_Qeq in H
         | H : ~ @eq Qc _ _ |- _ =>
             let H' := fresh in
             assert (H' : ~ (this _ == this _)%Q)
               by (intro; apply H; apply Qc_is_canon; assumption);
             clear H
         | |- @eq Qc _ _ => apply Qc_is_canon
         | |- qc_ltb _ _ = true => apply qc_ltb_iff
         | |- qc_leb _ _ = true => apply qc_leb_iff
         | |- qc_eqb _ _ = true => apply qc_eqb_iff
         | |- qc_ltb _ _ = false => apply qc_ltb_false_iff
         | |- qc_leb _ _ = false => apply qc_leb_false_iff
         end;
  unfold Qcminus, Qcdiv in *;
  unfold Qcle, Qclt, Qcplus, Qcmult, Qcopp, Qcinv in *;
  unfold Q2Qc in *; cbn [this] in *;
  rewrite ?Qred_correct in *;
  change (inject_Z 0) with 0%Q in *;
  repeat match goal with
         | |- context [inject_Z (Zpos ?p)] =>
             change (inject_Z (Zpos p)) with (Zpos p # 1) in *
         | H : context [inject_Z (Zpos ?p)] |- _ =>
             change (inject_Z (Zpos p)) with (Zpos p # 1) in *
         | |- context [inject_Z (Zneg ?p)] =>
             change (inject_Z (Zneg p)) with (Zneg p # 1) in *
         | H : context [inject_Z (Zneg ?p)] |- _ =>
             change (inject_Z (Zneg p)) with (Zneg p # 1) in *
         end;
  repeat match goal with
         | |- context [Qinv (?a # ?b)] =>
             let v := eval cbv in (Qinv (a # b)) in
             change (Qinv (a # b)) with v
         | H : context [Qinv (?a # ?b)] |- _ =>
             let v := eval cbv in (Qinv (a # b)) in
             change (Qinv (a # b)) with v in H
         end.

Ltac qc_lra := qc_to_q; lra.
Ltac qc_nra := qc_to_q; nra.

(** Case analysis on the next comparison of rationals in the goal. *)
Ltac case_cmp :=
  match goal with
  | |- context [qc_ltb ?a ?b] => destruct (qc_ltb a b) eqn:?
  | |- context [qc_leb ?a ?b] => destruct (qc_leb a b) eqn:?
  | |- context [qc_eqb ?a ?b] => destruct (qc_eqb a b) eqn:?
  end.

(** Order facts on numbers, by cases on their shape. *)
Ltac num_order :=
  repeat match goal with x : num |- _ => destruct x end;
  cbn [ltb leb gtb geb seq] in *;
  try discriminate; try reflexivity; try qc_lra.

Section FloorFacts.

(** The floor of a rational is the only integer just below it. *)
Lemma Qfloor_unique (x : Q) (z : Z) :
  (inject_Z z <= x)%Q -> (x < inject_Z (z + 1))%Q -> Qfloor x = z.
Proof.
  intros Hlo Hhi.
  pose proof (Qfloor_le x) as H1.
  pose proof (Qlt_floor x) as H2.
  assert (Hz1 : (z < Qfloor x + 1)%Z).
  { rewrite Zlt_Qlt. eapply Qle_lt_trans; eassumption. }
  assert (Hz2 : (Qfloor x < z + 1)%Z).
  { rewrite Zlt_Qlt. eapply Qle_lt_trans; eassumption. }
  lia.
Qed.

Lemma inject_Z_sub (a b : Z) :
  inject_Z (a - b) = (inject_Z a + - inject_Z b)%Q.
Proof. unfold Z.sub. now rewrite inject_Z_plus, inject_Z_opp. Qed.

Lemma Qfloor_minus_nat (x : Q) (n : nat) :
  Qfloor (x - inject_Z (Z.of_nat n)) = (Qfloor x - Z.of_nat n)%Z.
Proof.
  apply Qfloor_unique.
  - pose proof (Qfloor_le x). rewrite inject_Z_sub. lra.
  - pose proof (Qlt_floor x) as H.
    replace (Qfloor x - Z.of_nat n + 1)%Z
      with ((Qfloor x + 1) - Z.of_nat n)%Z by lia.
    rewrite inject_Z_sub. lra.
Qed.

End FloorFacts.

(* ===================================================================== *)
(** * The simulator                                                     *)
(* ===================================================================== *)

Section SimulatorFacts.
Import Presets NeedlePhysics Simulation.

Lemma FIXED_TIMESTEP_Fin : FIXED_TIMESTEP = Fin dtq.
Proof. reflexivity. Qed.

Lemma iterations_Fin (a : Qc) :
  iterations (Fin a) = Z.to_nat (Qfloor (this a * 120)).
Proof.
  unfold iterations. rewrite FIXED_TIMESTEP_Fin. cbn [div].
  replace (qc_eqb dtq 0) with false by reflexivity.
  f_equal. apply Qfloor_comp. unfold dtq. qc_lra.
Qed.

Lemma loop_body_set_accumulator (a : Qc) (p : t) :
  loop_body (set_accumulator (Fin a) p)
  = set_accumulator (Fin (a - dtq)) (step FIXED_TIMESTEP p).
Proof. reflexivity. Qed.

Lemma iter_loop_body (n : nat) (a : Qc) (p : t) :
  accumulator p = Fin a ->
  Nat.iter n loop_body p
  = set_accumulator (Fin (a - Q2Qc (inject_Z (Z.of_nat n)) * dtq)%Qc) (steps n p).
Proof.
  intros Ha. induction n as [|n IH].
  - cbn [Nat.iter steps Z.of_nat].
    replace (a - Q2Qc (inject_Z 0) * dtq)%Qc with a by (unfold dtq; qc_lra).
    destruct p; cbn in Ha; subst; reflexivity.
  - unfold steps in *. rewrite !Nat.iter_succ, IH.
    rewrite loop_body_set_accumulator. f_equal. f_equal.
    rewrite Nat2Z.inj_succ. unfold Z.succ. rewrite inject_Z_plus.
    unfold dtq. qc_lra.
Qed.

Lemma while_loop_iter (n : nat) :
  forall (a : Qc) (p : t) (fuel : nat),
    accumulator p = Fin a ->
    Z.to_nat (Qfloor (this a * 120)) = n ->
    (n <= fuel)%nat ->
    while_loop fuel p = Some (Nat.iter n loop_body p).
Proof.
  induction n as [|n IH]; intros a p fuel Ha Hn Hfuel.
  - assert (Hlt : (accumulator p >=? FIXED_TIMESTEP) = false).
    { rewrite Ha, FIXED_TIMESTEP_Fin. cbn [geb leb].
      pose proof (Qlt_floor (this a * 120)) as H.
      assert (Qfloor (this a * 120) <= 0)%Z by lia.
      assert (inject_Z (Qfloor (this a * 120) + 1) <= 1)%Q.
      { change 1%Q with (inject_Z 1). rewrite <- Zle_Qle. lia. }
      unfold dtq. qc_lra. }
    destruct fuel; cbn [while_loop]; rewrite Hlt; reflexivity.
  - assert (Hge : (accumulator p >=? FIXED_TIMESTEP) = true).
    { rewrite Ha, FIXED_TIMESTEP_Fin. cbn [geb leb].
      pose proof (Qfloor_le (this a * 120)) as H.
      assert (1 <= Qfloor (this a * 120))%Z by lia.
      assert (1 <= inject_Z (Qfloor (this a * 120)))%Q.
      { change 1%Q with (inject_Z 1). rewrite <- Zle_Qle. lia. }
      unfold dtq. qc_lra. }
    destruct fuel as [|fuel]; [lia|].
    cbn [while_loop]. rewrite Hge.
    rewrite (IH (a - dtq)%Qc).
    + rewrite Nat.iter_succ_r. reflexivity.
    + unfold loop_body. cbn [set_accumulator accumulator step].
      rewrite Ha, FIXED_TIMESTEP_Fin. reflexivity.
    + assert (Qfloor (this (a - dtq)%Qc * 120) = (Qfloor (this a * 120) - 1)%Z).
      { pose proof (Qfloor_minus_nat (this a * 120) 1) as E.
        change (Z.of_nat 1) with 1%Z in E. rewrite <- E.
        apply Qfloor_comp. unfold dtq. qc_lra. }
      lia.
    + lia.
Qed.

Lemma frameTime_Fin (last currentTime : num) :
  exists f : Qc,
    frameTime last currentTime = Fin f /\ (0 <= f)%Qc /\ (f <= Q2Qc (1 # 10))%Qc.
Proof.
  unfold frameTime, MAX_FRAME_TIME, ofQ, ofZ.
  destruct ((currentTime - last) / Fin (Q2Qc (inject_Z 1000))) as [q| | |];
    cbn [isFinite negb orb ltb gtb].
  - repeat case_cmp; eexists; (split; [reflexivity|]); split; qc_lra.
  - case_cmp; eexists; (split; [reflexivity|]); split; qc_lra.
  - case_cmp; eexists; (split; [reflexivity|]); split; qc_lra.
  - case_cmp; eexists; (split; [reflexivity|]); split; qc_lra.
Qed.

Lemma update_first (currentTime random : num) (p : t) :
  lastTime p = None ->
  update currentTime random p
  = Some (set_lastTime (Some currentTime) p, angle p).
Proof. intros H. unfold update. rewrite H. reflexivity. Qed.

Lemma update_reduced (currentTime random last : num) (p : t) :
  lastTime p = Some last ->
  reducedMotion p = true ->
  exists p',
    update currentTime random p = Some (p', targetAngle p)
    /\ angle p' = targetAngle p /\ velocity p' = ofZ 0
    /\ accumulator p' = accumulator p /\ lastTime p' = Some currentTime
    /\ targetAngle p' = targetAngle p
    /\ stiffness p' = stiffness p /\ damping p' = damping p
    /\ maxVelocity p' = maxVelocity p /\ maxAccel p' = maxAccel p
    /\ reducedMotion p' = reducedMotion p
    /\ vibrationEnabled p' = vibrationEnabled p.
Proof.
  intros Hl Hr. unfold update. rewrite Hl.
  cbn [set_lastTime reducedMotion]. rewrite Hr.
  eexists. split; [reflexivity|]. cbn. repeat split; auto.
Qed.

Lemma update_running (currentTime random last : num) (p : t) :
  lastTime p = Some last ->
  reducedMotion p = false ->
  update currentTime random p
  = let p1 :=
      set_accumulator (accumulator p + frameTime last currentTime)
        (set_lastTime (Some currentTime) p) in
    match while_loop (iterations (accumulator p1)) p1 with
    | Some p2 => Some (p2, outputAngle random p2)
    | None => None
    end.
Proof.
  intros Hl Hr. unfold update. rewrite Hl.
  cbn [set_lastTime reducedMotion]. rewrite Hr. reflexivity.
Qed.

Lemma due_remainder (x : Qc) :
  (0 <= x)%Qc ->
  (0 <= x - Q2Qc (inject_Z (Z.of_nat (due x))) * dtq)%Qc
  /\ (x - Q2Qc (inject_Z (Z.of_nat (due x))) * dtq < dtq)%Qc.
Proof.
  intros Hx. unfold due.
  assert (H0 : (0 <= Qfloor (this x * 120))%Z).
  { rewrite <- (Qfloor_Z 0). apply Qfloor_resp_le. qc_lra. }
  rewrite Z2Nat.id by assumption.
  pose proof (Qfloor_le (this x * 120)).
  pose proof (Qlt_floor (this x * 120)) as Hlt.
  rewrite inject_Z_plus in Hlt.
  unfold dtq. split; qc_lra.
Qed.

Lemma steps_set_accumulator (n : nat) (x : num) (p : t) :
  steps n (set_accumulator x p) = set_accumulator x (steps n p).
Proof.
  unfold steps. induction n as [|n IH]; [reflexivity|].
  rewrite !Nat.iter_succ, IH. reflexivity.
Qed.

Lemma update_running_spec (currentTime random last : num) (p : t) (a : Qc) :
  lastTime p = Some last ->
  reducedMotion p = false ->
  accumulator p = Fin a ->
  exists f : Qc,
    frameTime last currentTime = Fin f /\ (0 <= f)%Qc
    /\ (f <= Q2Qc (1 # 10))%Qc
    /\ let n := due (a + f) in
       let p' :=
         set_accumulator
           (Fin (a + f - Q2Qc (inject_Z (Z.of_nat n)) * dtq)%Qc)
           (steps n (set_lastTime (Some currentTime) p)) in
       update currentTime random p = Some (p', outputAngle random p').
Proof.
  intros Hl Hr Ha.
  destruct (frameTime_Fin last currentTime) as (f & Hf & Hf0 & Hf1).
  exists f. repeat (split; [assumption|]).
  cbv zeta. rewrite (@update_running currentTime random last p Hl Hr). cbv zeta.
  rewrite Ha, Hf. cbn [add set_accumulator accumulator].
  rewrite iterations_Fin.
  rewrite (@while_loop_iter (due (a + f)) (a + f)%Qc); try reflexivity.
  - rewrite (@iter_loop_body _ (a + f)%Qc) by reflexivity.
    rewrite steps_set_accumulator. reflexivity.
Qed.

(** ** Clamping *)

Lemma clamp_not_above (m x : num) :
  (ofZ 0 <? m) = true ->
  (Math_abs (Math_max (- m) (Math_min m x)) >? m) = false.
Proof.
  unfold ofZ. intros Hm.
  destruct m as [q| | |]; cbn [ltb] in Hm; try discriminate;
    destruct x as [a| | |];
    cbn [neg Math_min Math_max Math_abs ltb gtb];
    repeat (case_cmp; cbn [neg Math_min Math_max Math_abs ltb gtb]);
    try reflexivity; qc_lra.
Qed.

Lemma clamp_within (q : Qc) (x : num) :
  (0 < q)%Qc -> x <> NaN ->
  exists v : Qc,
    Math_max (- Fin q) (Math_min (Fin q) x) = Fin v
    /\ (- q <= v)%Qc /\ (v <= q)%Qc.
Proof.
  intros Hq Hx.
  destruct x as [a| | |]; try congruence;
    cbn [neg Math_min Math_max ltb];
    repeat (case_cmp; cbn [neg Math_min Math_max ltb]);
    eexists; (split; [reflexivity|]); split; qc_lra.
Qed.

Lemma abs_leb (q v : Qc) :
  (- q <= v)%Qc -> (v <= q)%Qc -> (Math_abs (Fin v) <=? Fin q) = true.
Proof.
  intros. cbn [Math_abs]. case_cmp; cbn [leb]; qc_lra.
Qed.

(** ** What [step] and [setTarget] keep *)

Lemma same_parameters_refl p : same_parameters p p.
Proof. repeat split. Qed.

Lemma same_parameters_trans p q r :
  same_parameters p q -> same_parameters q r -> same_parameters p r.
Proof.
  unfold same_parameters.
  intros (?&?&?&?&?&?&?) (?&?&?&?&?&?&?). repeat split; congruence.
Qed.

Lemma steps_same_parameters (n : nat) (p : t) :
  same_parameters p (steps n p)
  /\ targetAngle (steps n p) = targetAngle p
  /\ accumulator (steps n p) = accumulator p
  /\ lastTime (steps n p) = lastTime p.
Proof.
  unfold steps. induction n as [|n IH].
  - repeat split.
  - rewrite Nat.iter_succ.
    destruct IH as ((?&?&?&?&?&?&?)&?&?&?).
    unfold same_parameters. cbn [step stiffness damping maxVelocity maxAccel
      reducedMotion vibrationEnabled vibrationAmount targetAngle accumulator
      lastTime].
    repeat split; assumption.
Qed.

Lemma zero_capped (m : num) :
  (ofZ 0 <? m) = true -> (Math_abs (ofZ 0) >? m) = false.
Proof.
  unfold ofZ. intros Hm.
  destruct m as [q| | |]; cbn [ltb] in Hm; try discriminate;
    cbn [Math_abs]; case_cmp; cbn [gtb ltb]; try reflexivity; qc_lra.
Qed.

Lemma step_velocity_capped (dt : num) (p : t) :
  (ofZ 0 <? maxVelocity p) = true -> velocity_capped (step dt p).
Proof.
  intros Hm. unfold velocity_capped. cbn [step velocity maxVelocity].
  apply clamp_not_above. assumption.
Qed.

Lemma steps_velocity_capped (n : nat) (p : t) :
  (ofZ 0 <? maxVelocity p) = true ->
  velocity_capped p -> velocity_capped (steps n p).
Proof.
  intros Hm Hp. destruct n as [|n]; [assumption|].
  unfold steps. rewrite Nat.iter_succ.
  apply step_velocity_capped.
  destruct (steps_same_parameters n p) as ((_&_&E&_)&_).
  unfold steps in E. rewrite E. assumption.
Qed.

(** ** Finite states *)

Lemma isFinite_Fin (x : num) : isFinite x = true -> exists q, x = Fin q.
Proof. destruct x; try discriminate. eauto. Qed.

Lemma step_finite_motion (p : t) :
  finite_parameters p -> finite_motion p ->
  finite_motion (step FIXED_TIMESTEP p).
Proof.
  intros [Hs Hd (q & Hq & Hq0) Hma] [Ha Ht Hv _].
  apply isFinite_Fin in Hs, Hd, Ha, Ht, Hv.
  destruct Hs as (ks & Hs), Hd as (kd & Hd), Ha as (a & Ha),
    Ht as (tg & Ht), Hv as (v & Hv).
  assert (Hacc : exists acc,
    Math_max (- maxAccel p)
      (Math_min (maxAccel p)
         (stiffness p * (targetAngle p - angle p) - damping p * velocity p))
    = acc /\ acc <> NaN).
  { rewrite Hs, Hd, Ha, Ht, Hv. cbn [sub neg add mul].
    destruct (maxAccel p) as [ma| | |]; try congruence;
      cbn [neg Math_min Math_max ltb];
      repeat (case_cmp; cbn [neg Math_min Math_max ltb]);
      eexists; (split; [reflexivity|]); discriminate. }
  destruct Hacc as (acc & Hacc & Hnan).
  assert (Hv1 : velocity p + acc * FIXED_TIMESTEP <> NaN).
  { rewrite Hv, FIXED_TIMESTEP_Fin.
    destruct acc as [c| | |]; try congruence; cbn [mul add];
      unfold signed_inf;
      replace (qc_eqb dtq 0) with false by reflexivity;
      replace (qc_ltb 0 dtq) with true by reflexivity;
      cbn [Bool.eqb add]; discriminate. }
  destruct (clamp_within (x := velocity p + acc * FIXED_TIMESTEP) Hq0 Hv1)
    as (v2 & Hv2 & Hlo & Hhi).
  constructor; cbn [step angle targetAngle velocity maxVelocity];
    rewrite ?Hacc, ?Hq, ?Hv2, ?Ha, ?Ht, ?FIXED_TIMESTEP_Fin; try reflexivity.
  apply abs_leb; assumption.
Qed.

Lemma steps_finite_motion (n : nat) (p : t) :
  finite_parameters p -> finite_motion p -> finite_motion (steps n p).
Proof.
  intros Hp Hm. unfold steps. induction n as [|n IH]; [assumption|].
  rewrite Nat.iter_succ. apply step_finite_motion; [|assumption].
  destruct (steps_same_parameters n p) as ((E1&E2&E3&E4&_)&_).
  unfold steps in *.
  destruct Hp as [Hs Hd Hv Ha].
  constructor; rewrite ?E1, ?E2, ?E3, ?E4; assumption.
Qed.

(** ** The invariant of the simulator *)

Lemma accumulator_ok_iff (p : t) :
  accumulator_ok p
  <-> exists a : Qc, accumulator p = Fin a /\ (0 <= a)%Qc /\ (a < dtq)%Qc.
Proof.
  unfold accumulator_ok. rewrite FIXED_TIMESTEP_Fin. unfold ofZ. split.
  - intros [H1 H2]. destruct (accumulator p) as [a| | |];
      cbn [leb ltb] in *; try discriminate.
    exists a. split; [reflexivity|]. split; qc_lra.
  - intros (a & -> & H1 & H2). cbn [leb ltb]. split; qc_lra.
Qed.

Lemma finite_parameters_same (p p' : t) :
  same_parameters p p' -> finite_parameters p -> finite_parameters p'.
Proof.
  intros (E1&E2&E3&E4&_) [Hs Hd Hv Ha].
  constructor; rewrite ?E1, ?E2, ?E3, ?E4; assumption.
Qed.

Lemma update_invariant (currentTime random : num) (p : t) :
  (ofZ 0 <? maxVelocity p) = true ->
  accumulator_ok p -> velocity_capped p ->
  exists p' out,
    update currentTime random p = Some (p', out)
    /\ same_parameters p p'
    /\ targetAngle p' = targetAngle p
    /\ lastTime p' = Some currentTime
    /\ accumulator_ok p' /\ velocity_capped p'
    /\ (finite_parameters p -> finite_motion p -> finite_motion p').
Proof.
  intros Hm Hacc Hcap.
  destruct (lastTime p) as [last|] eqn:Hl.
  - destruct (reducedMotion p) eqn:Hr.
    + destruct (@update_reduced currentTime random last p Hl Hr)
        as (p' & Hu & Ha & Hv & Hac & Hlt & Htg & E1 & E2 & E3 & E4 & E5 & E6).
      exists p', (targetAngle p). split; [assumption|].
      assert (Evib : vibrationAmount p' = vibrationAmount p).
      { unfold update in Hu. rewrite Hl in Hu.
        cbn [set_lastTime reducedMotion] in Hu. rewrite Hr in Hu.
        injection Hu as <-. reflexivity. }
      split; [repeat split; assumption|].
      split; [assumption|]. split; [assumption|].
      split; [unfold accumulator_ok; rewrite Hac; assumption|].
      split.
      * unfold velocity_capped. rewrite Hv, E3. apply zero_capped. assumption.
      * intros Hfp [Hfa Hft Hfv _].
        destruct Hfp as [_ _ (q & Hq & Hq0) _].
        constructor; rewrite ?Ha, ?Htg, ?Hv, ?E3, ?Hq; try assumption;
          try reflexivity.
        apply (@abs_leb q 0%Qc); qc_lra.
    + apply accumulator_ok_iff in Hacc. destruct Hacc as (a & Ha & Ha0 & Ha1).
      destruct (@update_running_spec currentTime random last p a Hl Hr Ha)
        as (f & Hf & Hf0 & Hf1 & Hu).
      cbv zeta in Hu.
      set (n := due (a + f)) in *.
      set (p0 := set_lastTime (Some currentTime) p) in *.
      destruct (steps_same_parameters n p0) as (Hsame & Htg & _ & Hlt).
      eexists _, _. split; [exact Hu|].
      split; [exact Hsame|].
      split; [exact Htg|].
      split; [exact Hlt|].
      split.
      * apply accumulator_ok_iff. eexists. split; [reflexivity|].
        apply due_remainder. qc_lra.
      * split.
        -- unfold velocity_capped. cbn [set_accumulator velocity maxVelocity].
           apply (@steps_velocity_capped n p0); assumption.
        -- intros Hfp Hfm.
           assert (Hfm0 : finite_motion (steps n p0)).
           { apply steps_finite_motion.
             - destruct Hfp. constructor; assumption.
             - destruct Hfm. constructor; assumption. }
           destruct Hfm0. constructor; assumption.
  - rewrite (update_first currentTime random p Hl).
    eexists _, _. split; [reflexivity|].
    split; [repeat split|].
    split; [reflexivity|]. split; [reflexivity|].
    split; [exact Hacc|]. split; [exact Hcap|].
    intros _ [? ? ? ?]. constructor; assumption.
Qed.

Lemma setTarget_invariant (a : num) (immediate : bool) (p : t) :
  (ofZ 0 <? maxVelocity p) = true ->
  accumulator_ok p -> velocity_capped p ->
  same_parameters p (setTarget a immediate p)
  /\ accumulator_ok (setTarget a immediate p)
  /\ velocity_capped (setTarget a immediate p)
  /\ (isFinite a = true -> finite_parameters p -> finite_motion p ->
      finite_motion (setTarget a immediate p)).
Proof.
  intros Hm Hacc Hcap. unfold setTarget.
  destruct (immediate || reducedMotion p).
  - split; [repeat split|]. split; [exact Hacc|]. split.
    + unfold velocity_capped. cbn [velocity maxVelocity].
      apply zero_capped. assumption.
    + intros Ha [_ _ (q & Hq & Hq0) _] [Hfa Hft Hfv Hfc].
      constructor; cbn [angle targetAngle velocity maxVelocity];
        try assumption; try reflexivity.
      rewrite Hq. apply (@abs_leb q 0%Qc); qc_lra.
  - split; [repeat split|]. split; [exact Hacc|]. split; [exact Hcap|].
    intros Ha _ [Hfa Hft Hfv Hfc]. constructor; assumption.
Qed.

Lemma run_invariant (calls : list call) :
  forall p : t,
    (ofZ 0 <? maxVelocity p) = true ->
    accumulator_ok p -> velocity_capped p ->
    exists p',
      run calls p = Some p'
      /\ same_parameters p p'
      /\ accumulator_ok p' /\ velocity_capped p'
      /\ (Forall finite_call calls -> finite_parameters p ->
          finite_motion p -> finite_motion p').
Proof.
  induction calls as [|c calls IH]; intros p Hm Hacc Hcap.
  - exists p. cbn [run]. split; [reflexivity|].
    split; [apply same_parameters_refl|]. auto.
  - cbn [run]. destruct c as [a immediate|currentTime random].
    + cbn [apply_call].
      destruct (setTarget_invariant a immediate Hm Hacc Hcap)
        as (Hs & Ha1 & Hc1 & Hf1).
      assert (Hm1 : (ofZ 0 <? maxVelocity (setTarget a immediate p)) = true).
      { destruct Hs as (_&_&E&_). rewrite E. assumption. }
      destruct (IH _ Hm1 Ha1 Hc1) as (p' & Hrun & Hs' & Ha' & Hc' & Hf').
      exists p'. split; [assumption|].
      split; [eapply same_parameters_trans; eassumption|].
      split; [assumption|]. split; [assumption|].
      intros Hall Hfp Hfm. inversion Hall; subst.
      apply Hf'; [assumption| |].
      * eapply finite_parameters_same; eassumption.
      * apply Hf1; assumption.
    + cbn [apply_call].
      destruct (update_invariant currentTime random Hm Hacc Hcap)
        as (p1 & out & Hu & Hs & _ & _ & Ha1 & Hc1 & Hf1).
      rewrite Hu. cbn [option_map fst].
      assert (Hm1 : (ofZ 0 <? maxVelocity p1) = true).
      { destruct Hs as (_&_&E&_). rewrite E. assumption. }
      destruct (IH _ Hm1 Ha1 Hc1) as (p' & Hrun & Hs' & Ha' & Hc' & Hf').
      exists p'. split; [assumption|].
      split; [eapply same_parameters_trans; eassumption|].
      split; [assumption|]. split; [assumption|].
      intros Hall Hfp Hfm. inversion Hall; subst.
      apply Hf'; [assumption| |].
      * eapply finite_parameters_same; eassumption.
      * apply Hf1; assumption.
Qed.

Lemma or_else_not_NaN (x : option num) (d : num) :
  d <> NaN -> or_else x d <> NaN.
Proof.
  intros Hd. destruct x as [[q| | |]|]; cbn [or_else truthy];
    try assumption; try discriminate.
  destruct (negb (qc_eqb q 0)); [discriminate|assumption].
Qed.

(** C10.  From the freshly constructed simulator (angle, velocity and
    accumulator at 0) with [maxVelocity > 0], every sequence of
    [setTarget] and [update] calls, whatever its arguments, returns and
    leaves the accumulator in [[0, FIXED_TIMESTEP)] and the velocity
    magnitude not above [maxVelocity]:
    [Math.abs(velocity) > maxVelocity] is false.  (The velocity itself
    need not stay a number: see [ieee_stiff_spring_overflows].) *)
Theorem simulator_invariant
  (config : Config) (prefersReduced : bool) (calls : list call) :
  let p0 := constructor config prefersReduced in
  (ofZ 0 <? maxVelocity p0) = true ->
  exists p,
    run calls p0 = Some p
    /\ maxVelocity p = maxVelocity p0
    /\ (ofZ 0 <=? accumulator p) = true
    /\ (accumulator p <? FIXED_TIMESTEP) = true
    /\ (Math_abs (velocity p) >? maxVelocity p) = false.
Proof.
  intros p0 Hm.
  assert (Hacc : accumulator_ok p0) by (split; reflexivity).
  assert (Hcap : velocity_capped p0).
  { unfold velocity_capped. apply zero_capped. assumption. }
  destruct (run_invariant calls Hm Hacc Hcap)
    as (p & Hrun & Hs & (Ha1 & Ha2) & Hc & Hf).
  exists p. split; [assumption|].
  split; [destruct Hs as (_&_&E&_); exact E|].
  split; [assumption|]. split; [assumption|]. assumption.
Qed.

(** The invariant on the rpm preset: a target, a first frame, a frame
    50 ms later, a snap and a frame after a long pause. *)
Lemma simulator_invariant_rpm :
  exists p,
    run [SetTarget (ofZ 1) false; Update (ofZ 0) (ofQ (1 # 2));
         Update (ofZ 50) (ofQ (1 # 2)); SetTarget (ofZ (-2)) true;
         Update (ofZ 5000) (ofQ (1 # 2))]
        (constructor rpm false) = Some p
    /\ (ofZ 0 <=? accumulator p) = true
    /\ (accumulator p <? FIXED_TIMESTEP) = true
    /\ (Math_abs (velocity p) >? maxVelocity p) = false.
Proof.
  destruct (simulator_invariant rpm false
              [SetTarget (ofZ 1) false; Update (ofZ 0) (ofQ (1 # 2));
               Update (ofZ 50) (ofQ (1 # 2)); SetTarget (ofZ (-2)) true;
               Update (ofZ 5000) (ofQ (1 # 2))] eq_refl)
    as (p & Hrun & _ & H0 & H1 & Hc).
  exists p. split; [exact Hrun|]. split; [exact H0|]. split; [exact H1|].
  exact Hc.
Defined.



Lemma steps_set_lastTime (n : nat) (l : option num) (p : t) :
  steps n (set_lastTime l p) = set_lastTime l (steps n p).
Proof.
  unfold steps. induction n as [|n IH]; [reflexivity|].
  rewrite !Nat.iter_succ, IH. reflexivity.
Qed.


Lemma update_total (currentTime random : num) (p : t) :
  accumulator_ok p ->
  exists p' out,
    update currentTime random p = Some (p', out)
    /\ accumulator_ok p' /\ lastTime p' = Some currentTime
    /\ reducedMotion p' = reducedMotion p
    /\ targetAngle p' = targetAngle p.
Proof.
  intros Hacc. destruct (lastTime p) as [last|] eqn:Hl.
  - destruct (reducedMotion p) eqn:Hr.
    + destruct (@update_reduced currentTime random last p Hl Hr)
        as (p' & Hu & _ & _ & Hac & Hlt & Htg & _ & _ & _ & _ & E5 & _).
      exists p', (targetAngle p). split; [assumption|].
      split; [unfold accumulator_ok; rewrite Hac; assumption|].
      split; [assumption|]. split; [congruence|assumption].
    + apply accumulator_ok_iff in Hacc. destruct Hacc as (a & Ha & Ha0 & Ha1).
      destruct (@update_running_spec currentTime random last p a Hl Hr Ha)
        as (f & Hf & Hf0 & Hf1 & Hu).
      cbv zeta in Hu. eexists _, _. split; [exact Hu|].
      set (n := due (a + f)) in *.
      destruct (steps_same_parameters n (set_lastTime (Some currentTime) p))
        as ((_&_&_&_&E&_) & Htg & _ & Hlt).
      split.
      * apply accumulator_ok_iff. eexists. split; [reflexivity|].
        apply due_remainder. qc_lra.
      * split; [exact Hlt|]. cbn [set_accumulator reducedMotion targetAngle].
        rewrite E, Htg. cbn. split; [congruence|reflexivity].
  - rewrite (update_first currentTime random p Hl).
    eexists _, _. split; [reflexivity|]. repeat split; apply Hacc.
Qed.

(** ** At rest *)

Lemma clamp_zero (m : num) (z : Qc) :
  (ofZ 0 <=? m) = true -> z = 0%Qc ->
  Math_max (- m) (Math_min m (Fin z)) = Fin 0%Qc.
Proof.
  unfold ofZ. intros Hm ->.
  destruct m as [q| | |]; cbn [leb] in Hm; try discriminate;
    cbn [neg Math_min Math_max ltb];
    repeat (case_cmp; cbn [neg Math_min Math_max ltb]);
    try reflexivity; f_equal; qc_lra.
Qed.

Lemma step_at_rest (x : Qc) (p : t) :
  sane_parameters p -> at_rest x p -> step FIXED_TIMESTEP p = p.
Proof.
  intros [Hs Hd Hma Hmv] [Ha Ht Hv].
  apply isFinite_Fin in Hs, Hd.
  destruct Hs as (ks & Hs), Hd as (kd & Hd).
  destruct p as [a v tg st da mv ma ac lt ve va rm].
  cbn [angle velocity targetAngle stiffness damping maxVelocity maxAccel]
    in *.
  subst. unfold step, ofZ.
  cbn [angle velocity targetAngle stiffness damping maxVelocity maxAccel
       accumulator lastTime vibrationEnabled vibrationAmount reducedMotion].
  rewrite FIXED_TIMESTEP_Fin. cbn [sub neg add mul].
  rewrite (@clamp_zero ma (ks * (x + - x) + - (kd * Q2Qc (inject_Z 0)))%Qc)
    by (try assumption; qc_lra).
  cbn [mul add].
  rewrite (@clamp_zero mv (Q2Qc (inject_Z 0) + 0 * dtq)%Qc)
    by (try assumption; unfold dtq; qc_lra).
  cbn [mul add]. f_equal; f_equal; unfold dtq; qc_lra.
Qed.

Lemma steps_at_rest (n : nat) (x : Qc) (p : t) :
  sane_parameters p -> at_rest x p -> steps n p = p.
Proof.
  intros Hs Hr. unfold steps. induction n as [|n IH]; [reflexivity|].
  rewrite Nat.iter_succ, IH. eapply step_at_rest; eassumption.
Qed.

Lemma update_at_rest (currentTime random : num) (x : Qc) (p : t) :
  accumulator_ok p -> sane_parameters p -> at_rest x p ->
  exists p' out,
    update currentTime random p = Some (p', out)
    /\ accumulator_ok p' /\ sane_parameters p' /\ at_rest x p'
    /\ vibrationEnabled p' = vibrationEnabled p
    /\ (quiet x p -> out = Fin x).
Proof.
  intros Hacc Hs Hr.
  destruct (lastTime p) as [last|] eqn:Hl.
  - destruct (reducedMotion p) eqn:Hrm.
    + destruct (@update_reduced currentTime random last p Hl Hrm)
        as (p' & Hu & Ha & Hv & Hac & Hlt & Htg & E1 & E2 & E3 & E4 & _ & E6).
      exists p', (targetAngle p). split; [assumption|].
      destruct Hr as [Hra Hrt Hrv]. destruct Hs as [H1 H2 H3 H4].
      split; [unfold accumulator_ok; rewrite Hac; assumption|].
      split; [constructor; rewrite ?E1, ?E2, ?E3, ?E4; assumption|].
      split; [constructor; congruence|].
      split; [assumption|]. intros _. assumption.
    + apply accumulator_ok_iff in Hacc. destruct Hacc as (a & Ha & Ha0 & Ha1).
      destruct (@update_running_spec currentTime random last p a Hl Hrm Ha)
        as (f & Hf & Hf0 & Hf1 & Hu).
      cbv zeta in Hu.
      set (n := due (a + f)) in *.
      assert (Hs0 : sane_parameters (set_lastTime (Some currentTime) p)).
      { destruct Hs. constructor; assumption. }
      assert (Hr0 : at_rest x (set_lastTime (Some currentTime) p)).
      { destruct Hr. constructor; assumption. }
      rewrite (steps_at_rest n Hs0 Hr0) in Hu.
      eexists _, _. split; [exact Hu|].
      split.
      { apply accumulator_ok_iff. eexists. split; [reflexivity|].
        apply due_remainder. qc_lra. }
      split; [destruct Hs; constructor; assumption|].
      split; [destruct Hr; constructor; assumption|].
      split; [reflexivity|].
      intros Hq. unfold outputAngle.
      cbn [set_accumulator set_lastTime vibrationEnabled targetAngle angle].
      destruct Hr as [Hra Hrt Hrv]. rewrite Hrt, Hra.
      destruct Hq as [Hq|Hq]; rewrite Hq; [reflexivity|].
      rewrite andb_false_r. reflexivity.
  - rewrite (update_first currentTime random p Hl).
    eexists _, _. split; [reflexivity|].
    split; [exact Hacc|].
    split; [destruct Hs; constructor; assumption|].
    split; [destruct Hr; constructor; assumption|].
    split; [reflexivity|]. intros _. apply Hr.
Qed.

(** C4, amended.  After [setTarget(x, true)] with a finite [x], on a
    simulator whose stiffness and damping are finite and whose limits are
    not negative, any number of [update] calls, at the same or at any
    other timestamps, return and leave the angle at [x], the velocity at
    0 and the target at [x]; each call returns exactly [x] when vibration
    is off or [|x| <= 0.1]. *)
Theorem rest_is_stable
  (p : t) (x : Qc) (frames : list (num * num)) :
  accumulator_ok p ->
  sane_parameters p ->
  exists p' outs,
    updates frames (setTarget (Fin x) true p) = Some (p', outs)
    /\ angle p' = Fin x
    /\ velocity p' = ofZ 0
    /\ targetAngle p' = Fin x
    /\ List.length outs = List.length frames
    /\ (vibrationEnabled p = false
        \/ (Math_abs (Fin x) >? ofQ (1 # 10)) = false ->
        Forall (fun out => out = Fin x) outs).
Proof.
  intros Hacc Hs.
  assert (Hacc0 : accumulator_ok (setTarget (Fin x) true p)) by exact Hacc.
  assert (Hs0 : sane_parameters (setTarget (Fin x) true p)).
  { destruct Hs. constructor; assumption. }
  assert (Hr0 : at_rest x (setTarget (Fin x) true p)).
  { constructor; reflexivity. }
  assert (Hv0 : vibrationEnabled (setTarget (Fin x) true p)
                = vibrationEnabled p) by reflexivity.
  revert Hacc0 Hs0 Hr0 Hv0.
  generalize (setTarget (Fin x) true p). clear Hacc Hs.
  induction frames as [|[currentTime random] frames IH];
    intros q Hacc Hs Hr Hv.
  - exists q, []. cbn [updates]. split; [reflexivity|].
    destruct Hr. repeat split; try assumption. intros _. constructor.
  - destruct (update_at_rest currentTime random Hacc Hs Hr)
      as (q1 & out & Hu & Hacc1 & Hs1 & Hr1 & Hv1 & Hout).
    destruct (IH q1 Hacc1 Hs1 Hr1 ltac:(congruence))
      as (p' & outs & Hus & Ha & Hve & Ht & Hlen & Hall).
    exists p', (out :: outs). cbn [updates]. rewrite Hu, Hus.
    split; [reflexivity|]. repeat (split; [assumption|]).
    split; [cbn [List.length]; congruence|].
    intros Hq. constructor.
    + apply Hout. unfold quiet. rewrite Hv. assumption.
    + apply Hall. assumption.
Qed.


(** The default simulator snapped to 1 rad: two frames at the same
    timestamp and one 16 ms later all return 1 rad. *)
Lemma rest_is_stable_default :
  exists p' outs,
    updates [(ofZ 0, ofQ (1 # 2)); (ofZ 0, ofQ (1 # 2));
             (ofZ 16, ofQ (1 # 2))]
            (setTarget (ofZ 1) true (constructor defaults false))
    = Some (p', outs)
    /\ angle p' = ofZ 1
    /\ velocity p' = ofZ 0
    /\ Forall (fun out => out = ofZ 1) outs.
Proof.
  destruct (@rest_is_stable (constructor defaults false)
              (Q2Qc (inject_Z 1))
              [(ofZ 0, ofQ (1 # 2)); (ofZ 0, ofQ (1 # 2));
               (ofZ 16, ofQ (1 # 2))])
    as (p' & outs & Hu & Ha & Hv & _ & _ & Hall).
  - split; reflexivity.
  - constructor; reflexivity.
  - exists p', outs. split; [exact Hu|]. split; [exact Ha|].
    split; [exact Hv|]. apply Hall. left. reflexivity.
Defined.



Lemma steps_motion (n : nat) (x : num) (l : option num) (p : t) :
  angle (set_accumulator x (steps n (set_lastTime l p))) = angle (steps n p)
  /\ velocity (set_accumulator x (steps n (set_lastTime l p)))
     = velocity (steps n p).
Proof.
  rewrite steps_set_lastTime. split; reflexivity.
Qed.




(** On binary64 a frame can hold a 13th step: [MAX_FRAME_TIME] is the
    double above 1/10, twelve times [FIXED_TIMESTEP] is below it, and
    an accumulator just under one step makes up the rest.  From an
    empty accumulator the same call runs 12 steps. *)
Lemma ieee_thirteen_steps :
  PrimFloat.ltb (IeeeNeedle.accumulator IeeeNeedle.carrying)
    IeeeNeedle.FIXED_TIMESTEP = true
  /\ IeeeNeedle.steps_run IeeeNeedle.long_gap IeeeNeedle.carrying = Some 13%nat
  /\ IeeeNeedle.steps_run IeeeNeedle.long_gap IeeeNeedle.started = Some 12%nat.
Proof. repeat split; vm_compute; reflexivity. Qed.

(** On binary64 the rounded accumulator can cost a step within the cap
    as well: 50 ms in one frame run 6 steps, the same 50 ms in three
    frames 50/3 ms apart run 5, and the needle ends at a smaller
    angle. *)
Lemma ieee_split_frames_lose_a_step :
  IeeeNeedle.steps_run IeeeNeedle.one_frame IeeeNeedle.started = Some 6%nat
  /\ IeeeNeedle.steps_run IeeeNeedle.three_frames IeeeNeedle.started
     = Some 5%nat
  /\ match IeeeNeedle.final_angle IeeeNeedle.three_frames IeeeNeedle.started,
           IeeeNeedle.final_angle IeeeNeedle.one_frame IeeeNeedle.started with
     | Some a, Some b => PrimFloat.ltb a b = true
     | _, _ => False
     end.
Proof. repeat split; vm_compute; reflexivity. Qed.

(** The one-second gap replayed on binary64: the single call runs 12
    steps, the sixty calls 1000/60 ms apart run 120, and the needle ends
    more than 17 rad further. *)
Lemma ieee_capped_frame_falls_behind :
  IeeeNeedle.steps_run IeeeNeedle.long_gap IeeeNeedle.started = Some 12%nat
  /\ IeeeNeedle.steps_run IeeeNeedle.sixty_calls IeeeNeedle.started
     = Some 120%nat
  /\ IeeeNeedle.far_beyond
       (IeeeNeedle.final_angle IeeeNeedle.long_gap IeeeNeedle.started)
       (IeeeNeedle.final_angle IeeeNeedle.sixty_calls IeeeNeedle.started)
     = true.
Proof. repeat split; vm_compute; reflexivity. Qed.

(** On binary64 a finite stiffness and damping of 1e308 make the fourth
    step compute [Infinity - Infinity]: velocity and angle are NaN from
    then on, while [Math.abs(velocity) > maxVelocity] stays false. *)
Lemma ieee_stiff_spring_overflows :
  let p3 := Nat.iter 3 (IeeeNeedle.step IeeeNeedle.FIXED_TIMESTEP)
              IeeeNeedle.stiff in
  let p4 := IeeeNeedle.step IeeeNeedle.FIXED_TIMESTEP p3 in
  PrimFloat.is_finite (IeeeNeedle.stiffness IeeeNeedle.stiff) = true
  /\ PrimFloat.is_finite (IeeeNeedle.damping IeeeNeedle.stiff) = true
  /\ PrimFloat.is_finite (IeeeNeedle.velocity p3) = true
  /\ PrimFloat.is_nan (IeeeNeedle.velocity p4) = true
  /\ PrimFloat.is_nan (IeeeNeedle.angle p4) = true
  /\ PrimFloat.ltb (IeeeNeedle.maxVelocity p4)
       (PrimFloat.abs (IeeeNeedle.velocity p4)) = false.
Proof. cbv zeta. repeat split; vm_compute; reflexivity. Qed.




Lemma started_ok :
  update (ofZ 0) (ofQ (1 # 2))
    (setTarget (ofZ 30) false (constructor defaults false))
  = Some (started, ofZ 0).
Proof. reflexivity. Qed.



(** C4, counterexample.  With vibration switched on and the needle
    snapped to 1 rad, the second of two [update] calls at the same
    timestamp returns an angle other than 1 rad (the stored angle is
    still 1 rad). *)
Lemma vibration_changes_returned_angle :
  exists p' out,
    updates [(ofZ 0, ofQ (3 # 4)); (ofZ 0, ofQ (3 # 4))] vibrating
    = Some (p', [ofZ 1; out])
    /\ angle p' = ofZ 1
    /\ velocity p' = ofZ 0
    /\ (out === ofZ 1) = false.
Proof.
  eexists _, _. split; [reflexivity|].
  split; [reflexivity|]. split; [reflexivity|]. vm_compute. reflexivity.
Qed.


End SimulatorFacts.

(* ===================================================================== *)
(** * The value mapping                                                 *)
(* ===================================================================== *)

Section MappingFacts.
Import Presets Mapping.

Lemma PI_Fin : exists q : Qc, Math_PI = Fin q /\ (0 < q)%Qc.
Proof. eexists. split; [reflexivity|]. qc_lra. Qed.

Lemma toRadians_Fin (d : Qc) :
  toRadians (Fin d)
  = Fin (d * Q2Qc (884279719003555 # 281474976710656) / Q2Qc (inject_Z 180))%Qc.
Proof. reflexivity. Qed.


(** C8, counterexample.  An inverted range ([min = 100], [max = 0]) is not
    treated as degenerate: the value 50 maps to [-Math.PI], half way
    along the sweep, not to 0. *)
Lemma inverted_range_is_not_zero :
  (max inverted <? min inverted) = true
  /\ (Gauge._valueToAngle (Some inverted) (ofZ 50) === ofZ 0) = false
  /\ Gauge._valueToAngle (Some inverted) (ofZ 50) = - Math_PI.
Proof.
  split; [reflexivity|]. split; [vm_compute; reflexivity|].
  unfold Gauge._valueToAngle, inverted, Math_PI, ofZ, ofQ.
  cbn. f_equal. apply Qc_is_canon. vm_compute. reflexivity.
Qed.

Lemma clamp01_Fin (x : Qc) :
  exists c : Qc, clamp01 (Fin x) = Fin c /\ (0 <= c)%Qc /\ (c <= 1)%Qc
                 /\ ((0 <= x)%Qc -> (x <= 1)%Qc -> c = x).
Proof.
  unfold clamp01, ofZ. cbn [Math_min Math_max ltb].
  repeat (case_cmp; cbn [Math_min Math_max ltb]);
    eexists; (split; [reflexivity|]); repeat split; try qc_lra;
    intros; qc_lra.
Qed.

Lemma _valueToAngle_formula (config : Config) (value : num) :
  isFinite (min config) = true ->
  isFinite (max config) = true ->
  isFinite (startAngle config) = true ->
  isFinite (endAngle config) = true ->
  (max config === min config) = false ->
  isFinite value = true ->
  Gauge._valueToAngle (Some config) value = angle_formula config value.
Proof.
  intros Hmin Hmax Hs He Hne Hv.
  apply isFinite_Fin in Hmin, Hmax, Hs, He, Hv.
  destruct Hmin as (mn & Hmin), Hmax as (mx & Hmax), Hs as (s & Hs),
    He as (e & He), Hv as (v & Hv).
  unfold Gauge._valueToAngle, angle_formula.
  rewrite Hmin, Hmax, Hs, He, Hv in *.
  cbn [seq] in Hne.
  cbn [isFinite negb sub neg add]. unfold ofZ at 1. cbn [seq].
  assert (Hr : qc_eqb (mx + - mn) (Q2Qc (inject_Z 0)) = false).
  { apply qc_eqb_false_iff. intros E. apply qc_eqb_false_iff in Hne.
    apply Hne. qc_lra. }
  rewrite Hr.
  assert (Hdiv : Fin (v + - mn) / Fin (mx + - mn)
                 = Fin ((v + - mn) / (mx + - mn))%Qc).
  { cbn [div]. change 0%Qc with (Q2Qc (inject_Z 0)). rewrite Hr. reflexivity. }
  rewrite Hdiv.
  destruct (clamp01_Fin ((v + - mn) / (mx + - mn))%Qc) as (c & Hc & _).
  fold (clamp01 (Fin ((v + - mn) / (mx + - mn))%Qc)). rewrite Hc.
  change (Fin s + - Fin (Q2Qc (inject_Z 90))) with (Fin s - ofZ 90).
  change (Fin e + - Fin (Q2Qc (inject_Z 90))) with (Fin e - ofZ 90).
  fold (toRadians (Fin s - ofZ 90)). fold (toRadians (Fin e - ofZ 90)).
  unfold ofZ. cbn [sub neg add]. rewrite !toRadians_Fin.
  cbn [sub neg add mul isFinite]. reflexivity.
Qed.


Lemma isFinite_sub (a b : num) :
  isFinite (a - b) = true -> isFinite a = true /\ isFinite b = true.
Proof. destruct a, b; cbn; intros H; try discriminate; split; reflexivity. Qed.




Lemma toRadians_minus_90 (x : num) (q : Qc) :
  x = Fin q ->
  toRadians (x - ofZ 90)
  = Fin ((q + - Q2Qc (inject_Z 90))
         * Q2Qc (884279719003555 # 281474976710656) / Q2Qc (inject_Z 180))%Qc.
Proof. intros ->. reflexivity. Qed.

Lemma div_NaN_r (x : num) : x / NaN = NaN.
Proof. destruct x; reflexivity. Qed.

Lemma Math_min_NaN_r (x : num) : Math_min x NaN = NaN.
Proof. destruct x; reflexivity. Qed.

Lemma Math_max_NaN_r (x : num) : Math_max x NaN = NaN.
Proof. destruct x; reflexivity. Qed.

Lemma mul_NaN_l (x : num) : NaN * x = NaN.
Proof. reflexivity. Qed.

Lemma add_NaN_r (x : num) : x + NaN = NaN.
Proof. destruct x; reflexivity. Qed.


(** On binary64 finite bounds can have a range that is not finite:
    with [min = -1e308] and [max = 1e308] the range is [+Infinity], the
    value [max] gives [Infinity / Infinity], and the guard on the result
    returns 0, which is not on the dial. *)
Lemma ieee_wide_range_maps_to_zero :
  Ieee.isFinite (Ieee.min Ieee.wide) = true
  /\ Ieee.isFinite (Ieee.max Ieee.wide) = true
  /\ Ieee.zero_range Ieee.wide = false
  /\ Ieee.isFinite (PrimFloat.sub (Ieee.max Ieee.wide) (Ieee.min Ieee.wide))
     = false
  /\ PrimFloat.is_nan (Ieee.angle_formula Ieee.wide (Ieee.max Ieee.wide))
     = true
  /\ PrimFloat.eqb (Ieee._valueToAngle (Some Ieee.wide) (Ieee.max Ieee.wide))
       PrimFloat.zero = true
  /\ Ieee.hits_upper Ieee.wide = false.
Proof. repeat split; vm_compute; reflexivity. Qed.

Lemma ieee_valueToAngle_finite (config : option Ieee.Config)
  (value : PrimFloat.float) :
  Ieee.isFinite (Ieee._valueToAngle config value) = true.
Proof.
  unfold Ieee._valueToAngle.
  destruct config as [c|]; [|reflexivity].
  destruct (PrimFloat.eqb _ _); [reflexivity|].
  match goal with |- context [if Ieee.isFinite ?r then _ else _] =>
    destruct (Ieee.isFinite r) eqn:E end; [exact E|reflexivity].
Qed.

Lemma ieee_valueToAngle_zero_range (c : Ieee.Config)
  (value : PrimFloat.float) :
  Ieee.zero_range c = true ->
  Ieee._valueToAngle (Some c) value = PrimFloat.zero.
Proof.
  unfold Ieee._valueToAngle, Ieee.zero_range. intros ->. reflexivity.
Qed.

(** On binary64 the upper endpoint is not always hit exactly: for the
    modern preset [angle(max)] is [start + 1 * (end - start)], one unit
    in the last place above [toRadians(endAngle - 90)]; the lower
    endpoint, and both endpoints of the speed preset, are exact. *)
Lemma ieee_modern_upper_endpoint :
  Ieee.hits_upper Ieee.modern = false
  /\ Ieee.hits_lower Ieee.modern = true
  /\ Ieee.hits_upper Ieee.speed = true
  /\ Ieee.hits_lower Ieee.speed = true.
Proof. repeat split; vm_compute; reflexivity. Qed.

Lemma _valueToAngle_isFinite (config : option Config) (value : num) :
  isFinite (Gauge._valueToAngle config value) = true.
Proof.
  unfold Gauge._valueToAngle. destruct config as [c|]; [|reflexivity].
  destruct (_ === _); [reflexivity|].
  match goal with |- context [if isFinite ?r then _ else _] =>
    destruct (isFinite r) eqn:E end; [exact E|reflexivity].
Qed.

(** C8, amended.  For every configuration and every value, finite or not,
    the mapping returns a finite angle, and it returns 0 when
    [max == min] (the guard on a zero range comes before the division).
    The same holds of the mapping on binary64 floats.  Inverted ranges
    are not among the degenerate ones. *)
Theorem valueToAngle_is_finite (config : option Config) (value : num) :
  isFinite (Gauge._valueToAngle config value) = true
  /\ (forall c, config = Some c -> (max c === min c) = true ->
      Gauge._valueToAngle config value = ofZ 0)
  /\ (forall (fconfig : option Ieee.Config) (fvalue : PrimFloat.float),
        Ieee.isFinite (Ieee._valueToAngle fconfig fvalue) = true
        /\ (forall c, fconfig = Some c -> Ieee.zero_range c = true ->
            Ieee._valueToAngle fconfig fvalue = PrimFloat.zero)).
Proof.
  split; [|split].
  - apply _valueToAngle_isFinite.
  - intros c -> Heq. unfold Gauge._valueToAngle.
    destruct (max c) as [mx| | |], (min c) as [mn| | |];
      cbn [seq] in Heq; try discriminate.
    + apply qc_eqb_iff in Heq. subst mx.
      cbn [sub neg add]. unfold ofZ at 1. cbn [seq].
      replace (qc_eqb (mn + - mn) (Q2Qc (inject_Z 0))) with true;
        [reflexivity|].
      symmetry. apply qc_eqb_iff. qc_lra.
    + cbn [sub neg add seq].
      rewrite div_NaN_r, Math_min_NaN_r, Math_max_NaN_r, mul_NaN_l, add_NaN_r.
      reflexivity.
    + cbn [sub neg add seq].
      rewrite div_NaN_r, Math_min_NaN_r, Math_max_NaN_r, mul_NaN_l, add_NaN_r.
      reflexivity.
  - intros fconfig fvalue. split; [apply ieee_valueToAngle_finite|].
    intros c ->. apply ieee_valueToAngle_zero_range.
Qed.

End MappingFacts.

(* ===================================================================== *)
(** * The sweep state machine                                           *)
(* ===================================================================== *)

Section SweepFacts.
Import Presets Simulation Gauge SweepRun.

Lemma setTarget_targetAngle (a : num) (immediate : bool) (p : NeedlePhysics.t) :
  NeedlePhysics.targetAngle (NeedlePhysics.setTarget a immediate p) = a
  /\ NeedlePhysics.accumulator (NeedlePhysics.setTarget a immediate p)
     = NeedlePhysics.accumulator p.
Proof.
  unfold NeedlePhysics.setTarget.
  destruct (immediate || NeedlePhysics.reducedMotion p); split; reflexivity.
Qed.

Lemma sweep_starts (now : num) (g : t) :
  let g' := sweep now g in
  _isSweeping g' = true /\ _sweepPhase g' = up /\ _sweepStartTime g' = now
  /\ NeedlePhysics.targetAngle (_physics g') = angleOf g (max (_config g))
  /\ _targetValue g' = _targetValue g
  /\ _config g' = _config g
  /\ dispatched g' = dispatched g.
Proof.
  cbv zeta. unfold sweep. cbn.
  repeat split. apply setTarget_targetAngle.
Qed.

Lemma sweep_up_phase (timestamp : num) (g : t) :
  _sweepPhase g = up ->
  ((timestamp - _sweepStartTime g >=? ofZ 800) = true ->
   let g' := _updateSweep timestamp g in
   _sweepPhase g' = down
   /\ _isSweeping g' = _isSweeping g
   /\ _sweepStartTime g' = timestamp
   /\ NeedlePhysics.targetAngle (_physics g') = angleOf g (min (_config g))
   /\ _targetValue g' = _targetValue g
   /\ dispatched g' = dispatched g)
  /\ ((timestamp - _sweepStartTime g >=? ofZ 800) = false ->
      _updateSweep timestamp g = g).
Proof.
  intros Hup. unfold _updateSweep. rewrite Hup. split; intros ->.
  - cbn. repeat split. apply setTarget_targetAngle.
  - reflexivity.
Qed.

Lemma sweep_down_phase (timestamp : num) (g : t) :
  _sweepPhase g = down ->
  (NeedlePhysics.isSettled (ofQ (1 # 100)) (_physics g) = true ->
   let g' := _updateSweep timestamp g in
   _sweepPhase g' = idle
   /\ _isSweeping g' = false
   /\ NeedlePhysics.targetAngle (_physics g') = angleOf g (_targetValue g)
   /\ _targetValue g' = _targetValue g
   /\ dispatched g' = (dispatched g ++ [gauge_sweepcomplete])%list)
  /\ (NeedlePhysics.isSettled (ofQ (1 # 100)) (_physics g) = false ->
      _updateSweep timestamp g = g).
Proof.
  intros Hdown. unfold _updateSweep. rewrite Hdown. split; intros ->.
  - cbn. repeat split. apply setTarget_targetAngle.
  - reflexivity.
Qed.

Lemma setValue_while_sweeping (value : num) (immediate : bool) (g : t) :
  _isSweeping g = true ->
  let g' := setValue value immediate g in
  _targetValue g' = value
  /\ _physics g' = _physics g
  /\ _isSweeping g' = true
  /\ _sweepPhase g' = _sweepPhase g
  /\ _sweepStartTime g' = _sweepStartTime g
  /\ dispatched g' = dispatched g.
Proof.
  intros Hs. cbv zeta. unfold setValue. rewrite Hs. cbn. repeat split.
Qed.

Lemma completions_app (l1 l2 : list Event) :
  completions (l1 ++ l2)%list = (completions l1 + completions l2)%nat.
Proof.
  unfold completions. rewrite List.filter_app, List.length_app. reflexivity.
Qed.

Lemma _updateSweep_step (timestamp : num) (g : t) :
  sweeping g ->
  let g' := _updateSweep timestamp g in
  _config g' = _config g
  /\ _targetValue g' = _targetValue g
  /\ NeedlePhysics.accumulator (_physics g')
     = NeedlePhysics.accumulator (_physics g)
  /\ _renderer g' = _renderer g /\ _size g' = _size g
  /\ ((sweeping g' /\ completions (dispatched g') = completions (dispatched g))
      \/ (completed g'
          /\ completions (dispatched g') = S (completions (dispatched g))
          /\ NeedlePhysics.targetAngle (_physics g')
             = angleOf g (_targetValue g))).
Proof.
  intros (Hs & [[Hp Ht]|[Hp Ht]]); cbv zeta; unfold _updateSweep; rewrite Hp.
  - destruct (_ >=? _).
    + cbn [_config _targetValue _physics _renderer _size dispatched].
      repeat (split; [try reflexivity; apply setTarget_targetAngle|]).
      left. split; [|reflexivity]. split; [exact Hs|]. right.
      split; [reflexivity|]. apply setTarget_targetAngle.
    + repeat (split; [reflexivity|]). left.
      split; [|reflexivity]. split; [exact Hs|]. left. split; assumption.
  - destruct (NeedlePhysics.isSettled _ _).
    + cbn [_config _targetValue _physics _renderer _size dispatched].
      repeat (split; [try reflexivity; apply setTarget_targetAngle|]).
      right. split; [split; reflexivity|].
      split; [|apply setTarget_targetAngle].
      rewrite completions_app. cbn. lia.
    + repeat (split; [reflexivity|]). left.
      split; [|reflexivity]. split; [exact Hs|]. right. split; assumption.
Qed.

Lemma _render_progress (timestamp random : num) (before : nat) (g : t) :
  accumulator_ok (_physics g) -> sweep_progress before g ->
  exists g' drawn,
    _render timestamp random g = Some (g', drawn)
    /\ accumulator_ok (_physics g')
    /\ sweep_progress before g'
    /\ _config g' = _config g
    /\ _targetValue g' = _targetValue g.
Proof.
  intros Hacc Hprog. unfold _render.
  assert (Hskip : exists g' drawn,
            Some (g, @None num) = Some (g', drawn)
            /\ accumulator_ok (_physics g')
            /\ sweep_progress before g'
            /\ _config g' = _config g
            /\ _targetValue g' = _targetValue g).
  { exists g, None. split; [reflexivity|]. split; [exact Hacc|].
    split; [exact Hprog|]. split; reflexivity. }
  destruct (negb (_renderer g)); [exact Hskip|].
  destruct (_size g) as [size|]; [|exact Hskip].
  destruct (negb (truthy size) || (size <=? ofZ 0)); [exact Hskip|].
  clear Hskip.
  set (g1 := if _isSweeping g then _updateSweep timestamp g else g).
  assert (H1 : accumulator_ok (_physics g1) /\ sweep_progress before g1
               /\ _config g1 = _config g /\ _targetValue g1 = _targetValue g).
  { unfold g1. destruct Hprog as [[Hsw Hc]|[[Hs Hp] Hc]].
    - destruct Hsw as [Hs Hcases]. rewrite Hs.
      destruct (@_updateSweep_step timestamp g (conj Hs Hcases))
        as (E1 & E2 & E3 & _ & _ & Hnext).
      split; [unfold accumulator_ok; rewrite E3; exact Hacc|].
      split; [|split; assumption].
      destruct Hnext as [[Hsw' Hc']|(Hdone & Hc' & Ht)].
      + left. split; [assumption|congruence].
      + right. split; [assumption|]. split; [congruence|].
        unfold angleOf in *. rewrite E1, E2. exact Ht.
    - rewrite Hs. split; [assumption|]. split; [|split; reflexivity].
      right. split; [split; assumption|assumption]. }
  clearbody g1. destruct H1 as (Hacc1 & Hprog1 & Hcfg & Hval).
  destruct (update_total timestamp random Hacc1)
    as (p' & out & Hu & Hacc' & _ & _ & Htg).
  rewrite Hu.
  assert (Hkeep : forall q : NeedlePhysics.t,
            NeedlePhysics.targetAngle q = NeedlePhysics.targetAngle p' ->
            sweep_progress before (set_physics q g1)).
  { intros q Hq. destruct Hprog1 as [[[Hs Hcases] Hc]|[Hdone [Hc Ht]]].
    - left. split; [|exact Hc]. split; [exact Hs|].
      unfold angleOf in *.
      cbn [set_physics _sweepPhase _physics _config].
      rewrite Hq, Htg. exact Hcases.
    - right. split; [exact Hdone|]. split; [exact Hc|].
      unfold angleOf in *.
      cbn [set_physics _physics _config _targetValue].
      rewrite Hq, Htg. exact Ht. }
  destruct (negb (isFinite out)).
  - eexists _, _. split; [reflexivity|].
    split; [exact Hacc'|]. split; [apply Hkeep; reflexivity|].
    split; assumption.
  - eexists _, _. split; [reflexivity|].
    split; [exact Hacc'|]. split; [apply Hkeep; reflexivity|].
    split; assumption.
Qed.

Lemma setValue_progress (value : num) (immediate : bool) (before : nat) (g : t) :
  accumulator_ok (_physics g) -> sweep_progress before g ->
  accumulator_ok (_physics (setValue value immediate g))
  /\ sweep_progress before (setValue value immediate g)
  /\ _config (setValue value immediate g) = _config g
  /\ _targetValue (setValue value immediate g) = value.
Proof.
  intros Hacc [[[Hs Hcases] Hc]|[[Hs Hp] [Hc Ht]]]; unfold setValue; rewrite Hs;
    cbn [negb _physics _config _targetValue].
  - split; [exact Hacc|]. split; [|split; reflexivity].
    left. split; [|exact Hc]. split; [reflexivity|exact Hcases].
  - destruct (setTarget_targetAngle
                (_valueToAngle (Some (_config g)) value) immediate (_physics g))
      as [Etg Eacc].
    split; [unfold accumulator_ok; rewrite Eacc; exact Hacc|].
    split; [|split; reflexivity].
    right. split; [split; [reflexivity|exact Hp]|].
    cbn [dispatched _physics]. split.
    + rewrite completions_app. cbn. lia.
    + exact Etg.
Qed.

Lemma run_gauge_progress (ops : list op) (before : nat) :
  forall g : t,
    accumulator_ok (_physics g) -> sweep_progress before g ->
    exists g',
      run_gauge ops g = Some g'
      /\ sweep_progress before g'
      /\ _config g' = _config g
      /\ _targetValue g' = remembered ops (_targetValue g).
Proof.
  induction ops as [|o ops IH]; intros g Hacc Hprog.
  - exists g. repeat split; assumption.
  - cbn [run_gauge]. destruct o as [timestamp random|value immediate].
    + destruct (_render_progress timestamp random Hacc Hprog)
        as (g1 & drawn & Hr & Hacc1 & Hprog1 & Hcfg & Hval).
      cbn [apply_op]. rewrite Hr. cbn [option_map fst].
      destruct (IH g1 Hacc1 Hprog1) as (g' & Hrun & Hp' & Hc' & Hv').
      exists g'. split; [assumption|]. split; [assumption|].
      split; [congruence|]. cbn [remembered List.fold_left].
      unfold remembered in Hv'. congruence.
    + destruct (setValue_progress value immediate Hacc Hprog)
        as (Hacc1 & Hprog1 & Hcfg & Hval).
      cbn [apply_op].
      destruct (IH _ Hacc1 Hprog1) as (g' & Hrun & Hp' & Hc' & Hv').
      exists g'. split; [assumption|]. split; [assumption|].
      split; [congruence|]. cbn [remembered List.fold_left].
      unfold remembered in Hv'. congruence.
Qed.

(** C5.  The sweep sequence of a gauge [g]:
    - [sweep()] sets the machine sweeping, phase up, and aims the
      simulator at the angle of [max], leaving the remembered value;
    - in phase up, a frame whose timestamp is at least 800 ms after the
      phase start moves the machine to phase down, restarts the phase
      clock and aims the simulator at the angle of [min]; an earlier
      frame changes nothing;
    - in phase down, a frame finding the simulator settled within 0.01
      aims it at the angle of the remembered value, returns the machine
      to idle and dispatches one completion event; otherwise nothing
      changes;
    - while sweeping, [setValue] stores the value and leaves the
      simulator, the phase and the event log as they are;
    - whatever frames and [setValue] calls follow a [sweep()], the run
      returns, the last value set is the one remembered, and either the
      sweep is still under way and no completion event was added, or it
      is over, exactly one was added and the simulator is aimed at the
      angle of the remembered value. *)
Theorem sweep_sequence (g : t) :
  (forall now, 
     let g' := sweep now g in
     _isSweeping g' = true /\ _sweepPhase g' = up
     /\ _sweepStartTime g' = now
     /\ NeedlePhysics.targetAngle (_physics g') = angleOf g (max (_config g))
     /\ _targetValue g' = _targetValue g)
  /\ (forall timestamp,
        _sweepPhase g = up ->
        ((timestamp - _sweepStartTime g >=? ofZ 800) = true ->
         let g' := _updateSweep timestamp g in
         _sweepPhase g' = down
         /\ _isSweeping g' = _isSweeping g
         /\ _sweepStartTime g' = timestamp
         /\ NeedlePhysics.targetAngle (_physics g')
            = angleOf g (min (_config g))
         /\ _targetValue g' = _targetValue g
         /\ dispatched g' = dispatched g)
        /\ ((timestamp - _sweepStartTime g >=? ofZ 800) = false ->
            _updateSweep timestamp g = g))
  /\ (forall timestamp,
        _sweepPhase g = down ->
        (NeedlePhysics.isSettled (ofQ (1 # 100)) (_physics g) = true ->
         let g' := _updateSweep timestamp g in
         _sweepPhase g' = idle
         /\ _isSweeping g' = false
         /\ NeedlePhysics.targetAngle (_physics g')
            = angleOf g (_targetValue g)
         /\ _targetValue g' = _targetValue g
         /\ dispatched g' = (dispatched g ++ [gauge_sweepcomplete])%list)
        /\ (NeedlePhysics.isSettled (ofQ (1 # 100)) (_physics g) = false ->
            _updateSweep timestamp g = g))
  /\ (forall value immediate,
        _isSweeping g = true ->
        let g' := setValue value immediate g in
        _targetValue g' = value
        /\ _physics g' = _physics g
        /\ _isSweeping g' = true
        /\ _sweepPhase g' = _sweepPhase g
        /\ _sweepStartTime g' = _sweepStartTime g
        /\ dispatched g' = dispatched g)
  /\ (forall now ops,
        accumulator_ok (_physics g) ->
        exists g',
          run_gauge ops (sweep now g) = Some g'
          /\ _targetValue g' = remembered ops (_targetValue g)
          /\ (sweeping g' /\ _config g' = _config g
              /\ completions (dispatched g') = completions (dispatched g)
              \/ completed g' /\ _config g' = _config g
                 /\ completions (dispatched g')
                    = S (completions (dispatched g))
                 /\ NeedlePhysics.targetAngle (_physics g')
                    = angleOf g' (_targetValue g'))).
Proof.
  split.
  { intros now. destruct (sweep_starts now g) as (?&?&?&?&?&_).
    repeat split; assumption. }
  split; [intros; apply sweep_up_phase; assumption|].
  split; [intros; apply sweep_down_phase; assumption|].
  split; [intros; apply setValue_while_sweeping; assumption|].
  intros now ops Hacc.
  destruct (sweep_starts now g) as (Hs & Hp & _ & Ht & Hv & Hc & Hd).
  assert (Hacc0 : accumulator_ok (_physics (sweep now g))).
  { unfold sweep. cbn [_physics]. unfold accumulator_ok.
    destruct (setTarget_targetAngle
                (_valueToAngle (Some (_config g)) (max (_config g))) false
                (_physics g)) as [_ E].
    rewrite E. exact Hacc. }
  assert (Hprog0 : sweep_progress (completions (dispatched g)) (sweep now g)).
  { left. split; [|rewrite Hd; reflexivity].
    split; [exact Hs|]. left. split; [exact Hp|]. exact Ht. }
  destruct (run_gauge_progress ops Hacc0 Hprog0) as (g' & Hrun & Hp' & Hc' & Hv').
  exists g'. split; [exact Hrun|]. split; [congruence|].
  destruct Hp' as [[Hsw Hn]|(Hdone & Hn & Htg)].
  - left. split; [exact Hsw|]. split; [congruence|exact Hn].
  - right. split; [exact Hdone|]. split; [congruence|]. split; assumption.
Qed.


End SweepFacts.

(* ===================================================================== *)
(** * Zones, ticks and gradient stops                                   *)
(* ===================================================================== *)

Section FaceplateFacts.
Import Presets Mapping GaugeRenderer Faceplate.

(** C6, the failing input.  A legacy threshold that is present and 0 is
    read as absent: with empty [zones] and [redlineStart = 0] no zone is
    generated and [drawZones] fills nothing, where the specification
    asks for the zone [[0, max]]. *)
Lemma zero_threshold_draws_no_zone :
  zones rpm_from_zero = []
  /\ redlineStart rpm_from_zero = Some (ofZ 0)
  /\ resolveZones rpm_from_zero = []
  /\ drawZones (constructor (ofZ 200) rpm_from_zero) (ofZ 100) (ofZ 90) = [].
Proof. repeat split. Qed.

(** C6.  What [drawZones] does: with an empty zone list, a
    [redlineStart] that is truthy (a number other than 0 and NaN) yields
    exactly the one zone [[redlineStart, max]]; failing that, a truthy
    [dangerStart] yields exactly the one zone [[dangerStart, max]];
    with neither, no zone.  With a non-empty zone list the configured
    zones are used as they are, whatever the legacy scalars.
    [drawZones] fills one band per zone so obtained, in the zone's
    color, between the angles computed from the zone's bounds. *)
Theorem zone_fallback (config : Config) :
  (zones config = [] ->
   truthy_opt (redlineStart config) = true ->
   resolveZones config
   = [legacyZone (read (redlineStart config)) config])
  /\ (zones config = [] ->
      truthy_opt (redlineStart config) = false ->
      truthy_opt (dangerStart config) = true ->
      resolveZones config
      = [legacyZone (read (dangerStart config)) config])
  /\ (zones config = [] ->
      truthy_opt (redlineStart config) = false ->
      truthy_opt (dangerStart config) = false ->
      resolveZones config = [])
  /\ (zones config <> [] -> resolveZones config = zones config)
  /\ (forall size center radius,
        List.length (drawZones (constructor size config) center radius)
        = List.length (resolveZones config)
        /\ forall k zone,
             List.nth_error (resolveZones config) k = Some zone ->
             exists band : Band,
               List.nth_error
                 (drawZones (constructor size config) center radius) k
               = Some band
               /\ band_fill band = zone_color zone
               /\ band_from band
                  = toRadians (startAngle config - ofZ 90)
                    + ((zone_start zone - min config)
                       / (max config - min config))
                      * (toRadians (endAngle config - ofZ 90)
                         - toRadians (startAngle config - ofZ 90))
               /\ band_to band
                  = toRadians (startAngle config - ofZ 90)
                    + ((zone_end zone - min config)
                       / (max config - min config))
                      * (toRadians (endAngle config - ofZ 90)
                         - toRadians (startAngle config - ofZ 90))).
Proof.
  unfold resolveZones, legacyZone.
  split; [intros -> ->; reflexivity|].
  split; [intros -> -> ->; reflexivity|].
  split; [intros -> -> ->; reflexivity|].
  split.
  - intros Hne. destruct (zones config); [contradiction|reflexivity].
  - intros size center radius. unfold drawZones.
    cbn [GaugeRenderer.config constructor]. split.
    + apply List.length_map.
    + intros k zone Hk. rewrite List.nth_error_map.
      unfold resolveZones, legacyZone in *. rewrite Hk.
      cbn [option_map]. eexists. split; [reflexivity|].
      cbn [band_fill band_from band_to]. repeat split.
Qed.

Lemma rpm_zone :
  resolveZones rpm = [legacyZone (ofZ 60) rpm]
  /\ zone_start (legacyZone (ofZ 60) rpm) = ofZ 60
  /\ zone_end (legacyZone (ofZ 60) rpm) = ofZ 80.
Proof. repeat split. Qed.

Lemma isDanger_reaches (config : Config) (value : num) :
  isDanger config value
  = reaches (redlineStart config) value || reaches (dangerStart config) value.
Proof.
  unfold isDanger, reaches, truthy_opt, read.
  destruct (redlineStart config), (dangerStart config); reflexivity.
Qed.

Lemma nth_error_map_seq (A : Type) (f : nat -> A) (n i : nat) :
  (i < n)%nat -> List.nth_error (List.map f (List.seq 0 n)) i = Some (f i).
Proof.
  intros Hi. rewrite List.nth_error_map.
  rewrite List.nth_error_nth' with (d := O) by (rewrite List.length_seq; lia).
  rewrite List.seq_nth by lia. reflexivity.
Qed.

(** C7.  What [drawTicks] and [drawNumbers] do: the major tick of index
    [i] and its label are drawn in the redline color exactly when the
    tick's value reaches [redlineStart] or reaches [dangerStart], a
    threshold counting only if it is truthy (a number other than 0 and
    NaN); otherwise in the ticks resp. numbers color.  Either threshold
    alone triggers the coloring. *)
Theorem danger_coloring (this : GaugeRenderer.t) (i : nat) :
  (i < majorTicks (config this))%nat ->
  let config := config this in
  let colors := _resolvedColors this in
  let value := tickValue config i in
  let danger :=
    reaches (redlineStart config) value || reaches (dangerStart config) value in
  option_map tick_style (List.nth_error (drawTicks this) i)
  = Some (if danger then redline colors else ticks colors)
  /\ option_map number_style (List.nth_error (drawNumbers this) i)
     = Some (if danger then redline colors else numbers colors)
  /\ List.length (drawTicks this) = majorTicks config
  /\ List.length (drawNumbers this) = majorTicks config.
Proof.
  intros Hi. cbv zeta. unfold drawTicks, drawNumbers.
  rewrite !nth_error_map_seq by assumption.
  cbn [option_map tick_style number_style].
  rewrite isDanger_reaches.
  rewrite !List.length_map, !List.length_seq. repeat split.
Qed.

(** The rpm dial: the tick of index 6 has value 60 and is drawn in the
    redline color, as is its label. *)
Lemma danger_coloring_rpm :
  tickValue rpm 6 = ofZ 60
  /\ option_map tick_style
       (List.nth_error (drawTicks (constructor (ofZ 200) rpm)) 6)
     = Some "#CC2020"
  /\ option_map number_style
       (List.nth_error (drawNumbers (constructor (ofZ 200) rpm)) 6)
     = Some "#CC2020".
Proof.
  destruct (@danger_coloring (constructor (ofZ 200) rpm) 6)
    as (H1 & H2 & _).
  - cbn. lia.
  - split; [|split].
    + unfold tickValue, rpm, ofZ. cbn. f_equal.
    + rewrite H1. reflexivity.
    + rewrite H2. reflexivity.
Defined.

(** C7, the failing input.  With [redlineStart = 0] every major tick of
    the rpm dial has a value [>= 0], yet all nine ticks and all nine
    labels are drawn in the normal color, none in the redline color as
    the specification asks. *)
Lemma zero_threshold_colors_nothing :
  let this := constructor (ofZ 200) rpm_from_zero in
  tickValue rpm_from_zero 0 = ofZ 0
  /\ (tickValue rpm_from_zero 0 >=? ofZ 0) = true
  /\ redline (_resolvedColors this) = "#CC2020"
  /\ List.map tick_style (drawTicks this)
     = List.repeat "#1A1A1A" 9
  /\ List.map number_style (drawNumbers this)
     = List.repeat "#1A1A1A" 9.
Proof.
  cbv zeta. split.
  - unfold tickValue, rpm_from_zero, ofZ. cbn. f_equal.
  - split; [vm_compute; reflexivity|].
    split; [reflexivity|]. split; reflexivity.
Qed.


Lemma ltb_trans (x y z : num) :
  (x <? y) = true -> (y <? z) = true -> (x <? z) = true.
Proof. intros; num_order. Qed.

Lemma ltb_leb (x y : num) : (x <? y) = true -> (x <=? y) = true.
Proof. intros; num_order. Qed.

Lemma leb_ltb_trans (x y z : num) :
  (x <=? y) = true -> (y <? z) = true -> (x <? z) = true.
Proof. intros; num_order. Qed.

Lemma ltb_not_geb (x y : num) : (x <? y) = true -> (x >=? y) = false.
Proof. intros; num_order. Qed.

Lemma between_Fin (x : num) :
  (ofZ 0 <=? x) = true -> (x <? ofZ 1) = true ->
  exists a : Qc, x = Fin a /\ (0 <= a)%Qc /\ (a < 1)%Qc.
Proof.
  unfold ofZ. intros H0 H1. destruct x as [a| | |]; cbn [leb ltb] in *;
    try discriminate.
  exists a. split; [reflexivity|]. split; qc_lra.
Qed.

Lemma find_bracket_adjacent (stops : list Stop) (t : num) (lo up : Stop) :
  find_bracket stops t = Some (lo, up) ->
  exists i,
    List.nth_error stops i = Some lo
    /\ List.nth_error stops (S i) = Some up
    /\ (t >=? at_ lo) = true /\ (t <=? at_ up) = true
    /\ forall j a b,
         (j < i)%nat ->
         List.nth_error stops j = Some a ->
         List.nth_error stops (S j) = Some b ->
         (t >=? at_ a) && (t <=? at_ b) = false.
Proof.
  induction stops as [|s0 rest IH]; [discriminate|].
  cbn [find_bracket]. destruct rest as [|s1 rest']; [discriminate|].
  destruct ((t >=? at_ s0) && (t <=? at_ s1)) eqn:Hc.
  - intros H. injection H as <- <-. exists O.
    apply andb_true_iff in Hc. destruct Hc.
    repeat split; try assumption; try reflexivity. intros; lia.
  - intros H. destruct (IH H) as (i & H1 & H2 & H3 & H4 & H5).
    exists (S i). repeat split; try assumption.
    intros j a b Hj Ha Hb. destruct j as [|j].
    + cbn in Ha, Hb. injection Ha as <-. injection Hb as <-. exact Hc.
    + apply (H5 j a b); [lia|exact Ha|exact Hb].
Qed.

Lemma _interpolateGradient_unfold (s0 s1 : Stop) (rest : list Stop) (t : num) :
  let stops := s0 :: s1 :: rest in
  let t' := clamp01 t in
  _interpolateGradient stops t
  = match find_bracket stops t' with
    | Some (lower, upper) => mix lower upper t'
    | None => mix s0 (List.last stops s0) t'
    end.
Proof.
  cbv zeta. unfold _interpolateGradient.
  fold (clamp01 t).
  destruct (find_bracket (s0 :: s1 :: rest) (clamp01 t)) as [[lo up]|];
    unfold mix, channel;
    repeat match goal with
           | |- context [_parseHex ?c] => destruct (_parseHex c) as [[? ?] ?]
           end; reflexivity.
Qed.

Lemma increasing_tail (s : Stop) (rest : list Stop) :
  increasing (s :: rest) -> increasing rest.
Proof. destruct rest; cbn; tauto. Qed.

Lemma find_bracket_cons (s0 s1 : Stop) (rest : list Stop) (t : num) :
  find_bracket (s0 :: s1 :: rest) t
  = if (t >=? at_ s0) && (t <=? at_ s1) then Some (s0, s1)
    else find_bracket (s1 :: rest) t.
Proof. reflexivity. Qed.

Lemma last_default (A : Type) (l : list A) (d1 d2 : A) :
  l <> [] -> List.last l d1 = List.last l d2.
Proof.
  induction l as [|x l IH]; intros Hne; [contradiction|].
  destruct l as [|y l']; [reflexivity|].
  change (List.last (x :: y :: l') d1) with (List.last (y :: l') d1).
  change (List.last (x :: y :: l') d2) with (List.last (y :: l') d2).
  apply IH. discriminate.
Qed.

Lemma last_cons (A : Type) (x y : A) (l : list A) (d : A) :
  List.last (x :: y :: l) d = List.last (y :: l) d.
Proof. reflexivity. Qed.

Lemma increasing_below_last (rest : list Stop) :
  forall s d, increasing (s :: rest) -> rest <> [] ->
              (at_ s <? at_ (List.last rest d)) = true.
Proof.
  induction rest as [|s1 rest IH]; intros s d Hinc Hne; [contradiction|].
  destruct Hinc as [H01 Hinc].
  destruct rest as [|s2 rest'].
  - exact H01.
  - rewrite last_cons.
    eapply ltb_trans; [exact H01|]. apply IH; [exact Hinc|discriminate].
Qed.

(** A query between the first and the last position is bracketed. *)
Lemma find_bracket_exists (rest : list Stop) :
  forall (s0 : Stop) (t : num),
    rest <> [] ->
    increasing (s0 :: rest) ->
    (t >=? at_ s0) = true ->
    (t <=? at_ (List.last rest s0)) = true ->
    exists lo up, find_bracket (s0 :: rest) t = Some (lo, up).
Proof.
  induction rest as [|s1 rest IH]; intros s0 t Hne Hinc Hlo Hhi;
    [contradiction|].
  rewrite find_bracket_cons, Hlo. cbn [andb].
  destruct (t <=? at_ s1) eqn:H1; [eauto|].
  destruct rest as [|s2 rest'].
  - cbn [List.last] in Hhi. congruence.
  - apply IH.
    + discriminate.
    + eapply increasing_tail; eassumption.
    + destruct Hinc as [_ [H12 _]].
      destruct t, (at_ s1); cbn [leb geb] in *; try discriminate;
        try reflexivity; qc_lra.
    + rewrite last_cons in Hhi.
      rewrite (@last_default _ (s2 :: rest') s1 s0) by discriminate.
      exact Hhi.
Qed.

Lemma find_bracket_at_one (rest : list Stop) :
  forall (s0 : Stop),
    rest <> [] ->
    increasing (s0 :: rest) ->
    (ofZ 0 <=? at_ s0) = true ->
    at_ (List.last rest s0) = ofZ 1 ->
    exists lo,
      find_bracket (s0 :: rest) (ofZ 1) = Some (lo, List.last rest s0)
      /\ (ofZ 0 <=? at_ lo) = true /\ (at_ lo <? ofZ 1) = true.
Proof.
  induction rest as [|s1 rest IH]; intros s0 Hne Hinc H0 Hlast;
    [contradiction|].
  pose proof (@increasing_below_last (s1 :: rest) s0 s0 Hinc Hne) as Hs0.
  rewrite Hlast in Hs0.
  rewrite find_bracket_cons.
  destruct rest as [|s2 rest'].
  - cbn [List.last] in *. exists s0.
    rewrite Hlast.
    replace (ofZ 1 >=? at_ s0) with true
      by (symmetry; apply ltb_leb; exact Hs0).
    split; [reflexivity|]. split; assumption.
  - destruct Hinc as [H01 Hinc].
    rewrite last_cons in Hlast.
    assert (Hs1 : (at_ s1 <? ofZ 1) = true).
    { pose proof (@increasing_below_last (s2 :: rest') s1 s0 Hinc
                    ltac:(discriminate)) as H.
      rewrite Hlast in H. exact H. }
    assert (H1 : (ofZ 0 <=? at_ s1) = true).
    { apply ltb_leb. eapply leb_ltb_trans; eassumption. }
    assert (Hlast1 : at_ (List.last (s2 :: rest') s1) = ofZ 1).
    { rewrite (@last_default _ (s2 :: rest') s1 s0) by discriminate.
      exact Hlast. }
    destruct (IH s1 ltac:(discriminate) Hinc H1 Hlast1)
      as (lo & Hf & Hlo0 & Hlo1).
    exists lo. split; [|split; assumption].
    replace (ofZ 1 <=? at_ s1) with false
      by (symmetry; apply (@ltb_not_geb (at_ s1) (ofZ 1) Hs1)).
    rewrite andb_false_r, Hf, last_cons.
    rewrite (@last_default _ (s2 :: rest') s1 s0) by discriminate.
    reflexivity.
Qed.

Lemma parseInt16_cases (s : string) :
  parseInt16 s = NaN \/ exists z : Z, parseInt16 s = ofZ z.
Proof.
  unfold parseInt16.
  destruct (skip_whitespace s) as [|c r].
  - cbn. left. reflexivity.
  - set (pr := match String c r with
               | String "-" r => (true, r)
               | String "+" r => (false, r)
               | _ => (false, String c r)
               end).
    destruct pr as [negative s'].
    destruct (hex_prefix (strip_0x s') None); [right; eauto|left; reflexivity].
Qed.

Lemma Math_round_integer (q : Qc) (z : Z) :
  (this q == inject_Z z)%Q -> Math_round (Fin q) = ofZ z.
Proof.
  intros Hq. unfold Math_round. f_equal.
  apply Qfloor_unique.
  - qc_to_q. rewrite Hq. lra.
  - rewrite inject_Z_plus. qc_to_q. rewrite Hq. lra.
Qed.

Lemma channel_at_zero (z : Z) (c2 : num) (l : Qc) :
  isFinite c2 = true -> l = 0%Qc -> channel (ofZ z) c2 (Fin l) = ofZ z.
Proof.
  intros H2 ->. apply isFinite_Fin in H2. destruct H2 as (q2 & ->).
  unfold channel, ofZ. cbn [sub neg add mul].
  apply Math_round_integer. qc_to_q. lra.
Qed.

Lemma channel_at_one (c1 : num) (z : Z) (l : Qc) :
  isFinite c1 = true -> l = 1%Qc -> channel c1 (ofZ z) (Fin l) = ofZ z.
Proof.
  intros H1 ->. apply isFinite_Fin in H1. destruct H1 as (q1 & ->).
  unfold channel, ofZ. cbn [sub neg add mul].
  apply Math_round_integer. qc_to_q. lra.
Qed.

Lemma finite_channel (s : string) :
  isFinite (parseInt16 s) = true -> exists z, parseInt16 s = ofZ z.
Proof.
  intros H. destruct (parseInt16_cases s) as [E|E]; [|exact E].
  rewrite E in H. discriminate.
Qed.

Lemma mix_at_lower (lo up : Stop) (a : Qc) :
  hex_ok lo -> hex_ok up ->
  at_ lo = Fin a -> (at_ lo <? at_ up) = true ->
  mix lo up (Fin a) = rgb_of lo.
Proof.
  unfold hex_ok, mix, rgb_of, _parseHex.
  intros (Hr1 & Hg1 & Hb1) (Hr2 & Hg2 & Hb2) Ha Hlt.
  apply finite_channel in Hr1, Hg1, Hb1.
  destruct Hr1 as (r1 & Hr1), Hg1 as (g1 & Hg1), Hb1 as (b1 & Hb1).
  rewrite Hr1, Hg1, Hb1, Ha in *.
  assert (HT : exists l : Qc,
            (if at_ up - Fin a >? ofZ 0
             then (Fin a - Fin a) / (at_ up - Fin a) else ofZ 0) = Fin l
            /\ l = 0%Qc).
  { unfold ofZ. destruct (at_ up) as [b| | |]; cbn [ltb] in Hlt;
      try discriminate; cbn [sub neg add gtb ltb div].
    - replace (qc_ltb (Q2Qc (inject_Z 0)) (b + - a)) with true
        by (symmetry; qc_lra).
      replace (qc_eqb (b + - a) 0) with false.
      + eexists. split; [reflexivity|]. unfold Qcdiv.
        replace (a + - a)%Qc with 0%Qc by ring. ring.
      + symmetry. apply qc_eqb_false_iff. intros E. qc_lra.
    - eexists. split; [reflexivity|reflexivity]. }
  destruct HT as (l & -> & Hl).
  rewrite !channel_at_zero by assumption. reflexivity.
Qed.

Lemma mix_at_upper (lo up : Stop) (a b : Qc) :
  hex_ok lo -> hex_ok up ->
  at_ lo = Fin a -> at_ up = Fin b -> (a < b)%Qc ->
  mix lo up (Fin b) = rgb_of up.
Proof.
  unfold hex_ok, mix, rgb_of, _parseHex.
  intros (Hr1 & Hg1 & Hb1) (Hr2 & Hg2 & Hb2) Ha Hb Hlt.
  apply finite_channel in Hr2, Hg2, Hb2.
  destruct Hr2 as (r2 & Hr2), Hg2 as (g2 & Hg2), Hb2 as (b2 & Hb2).
  rewrite Hr2, Hg2, Hb2, Ha, Hb in *.
  assert (HT : exists l : Qc,
            (if Fin b - Fin a >? ofZ 0
             then (Fin b - Fin a) / (Fin b - Fin a) else ofZ 0) = Fin l
            /\ l = 1%Qc).
  { unfold ofZ. cbn [sub neg add gtb ltb div].
    replace (qc_ltb (Q2Qc (inject_Z 0)) (b + - a)) with true
      by (symmetry; qc_lra).
    assert (Hne : (b + - a)%Qc <> 0%Qc) by (intros E; qc_lra).
    replace (qc_eqb (b + - a) 0) with false
      by (symmetry; apply qc_eqb_false_iff; exact Hne).
    eexists. split; [reflexivity|].
    unfold Qcdiv. apply Qcmult_inv_r. exact Hne. }
  destruct HT as (l & -> & Hl).
  rewrite !channel_at_one by assumption. reflexivity.
Qed.

Lemma clamp01_low (t : num) : (t <=? ofZ 0) = true -> clamp01 t = ofZ 0.
Proof.
  unfold clamp01, ofZ. intros H.
  destruct t as [a| | |]; cbn [leb] in H; try discriminate;
    cbn [Math_min Math_max ltb];
    repeat (case_cmp; cbn [Math_min Math_max ltb]);
    try reflexivity; try (exfalso; qc_lra); f_equal; qc_lra.
Qed.

Lemma clamp01_high (t : num) : (t >=? ofZ 1) = true -> clamp01 t = ofZ 1.
Proof.
  unfold clamp01, ofZ. intros H.
  destruct t as [a| | |]; cbn [geb leb] in H; try discriminate;
    cbn [Math_min Math_max ltb];
    repeat (case_cmp; cbn [Math_min Math_max ltb]);
    try reflexivity; try (exfalso; qc_lra); f_equal; qc_lra.
Qed.

Lemma interpolate_endpoints (s0 : Stop) (rest : list Stop) (t : num) :
  rest <> [] ->
  increasing (s0 :: rest) ->
  at_ s0 = ofZ 0 ->
  at_ (List.last rest s0) = ofZ 1 ->
  Forall hex_ok (s0 :: rest) ->
  ((t <=? ofZ 0) = true -> _interpolateGradient (s0 :: rest) t = rgb_of s0)
  /\ ((t >=? ofZ 1) = true ->
      _interpolateGradient (s0 :: rest) t = rgb_of (List.last rest s0)).
Proof.
  intros Hne Hinc H0 H1 Hok.
  destruct rest as [|s1 rest']; [contradiction|].
  split; intros Ht.
  - rewrite _interpolateGradient_unfold. cbv zeta.
    rewrite (@clamp01_low t Ht), find_bracket_cons, H0.
    destruct Hinc as [H01 _]. rewrite H0 in H01.
    replace (ofZ 0 >=? ofZ 0) with true by reflexivity.
    replace (ofZ 0 <=? at_ s1) with true by (symmetry; apply ltb_leb; exact H01).
    cbn [andb]. inversion Hok as [|? ? Hs0 Hrest]; subst.
    inversion Hrest as [|? ? Hs1 _]; subst.
    apply mix_at_lower; try assumption. rewrite H0. exact H01.
  - rewrite _interpolateGradient_unfold. cbv zeta.
    rewrite (@clamp01_high t Ht).
    destruct (@find_bracket_at_one (s1 :: rest') s0 Hne Hinc) as (lo & Hf & Hlo0 & Hlo1);
      [rewrite H0; reflexivity|exact H1|].
    rewrite Hf.
    destruct (@find_bracket_adjacent _ _ _ _ Hf) as (i & Hi & Hi' & _).
    apply List.nth_error_In in Hi, Hi'.
    rewrite List.Forall_forall in Hok.
    destruct (@between_Fin _ Hlo0 Hlo1) as (a & Ha & _ & Ha1).
    apply (@mix_at_upper lo (List.last (s1 :: rest') s0) a (Q2Qc (inject_Z 1)));
      auto.
Qed.

(** C9, counterexample.  Stops at 0.25 (black) and 0.75 (rgb 100): the
    queries 0 and 1 lie outside the range the stops cover and are
    extrapolated to rgb(-50,-50,-50) and rgb(150,150,150), where the
    nearest end stops are rgb(0,0,0) and rgb(100,100,100). *)
Lemma uncovered_query_is_extrapolated :
  _interpolateGradient inner_stops (ofZ 0)
  = rgb (ofZ (-50)) (ofZ (-50)) (ofZ (-50))
  /\ rgb_of (List.hd (mkStop NaN "") inner_stops)
     = rgb (ofZ 0) (ofZ 0) (ofZ 0)
  /\ _interpolateGradient inner_stops (ofZ 1)
     = rgb (ofZ 150) (ofZ 150) (ofZ 150)
  /\ rgb_of (List.last inner_stops (mkStop NaN ""))
     = rgb (ofZ 100) (ofZ 100) (ofZ 100).
Proof. repeat split. Qed.

(** C9, amended.  For a list of two or more stops and a query [t], with
    [t' = clamp01 t]:
    - if the search finds a pair, it is the first pair of neighbours with
      [lower.at <= t' <= upper.at], and the result is the rounded linear
      interpolation of their channels at [t'];
    - strictly increasing stops whose first and last positions enclose
      [t'] always have such a pair;
    - if no pair brackets [t'], the result is the same interpolation
      formula applied to the first and the last stop (an extrapolation);
    - for strictly increasing stops from position 0 to position 1 with
      well-formed colors, any [t <= 0] yields the color of the first stop
      and any [t >= 1] the color of the last. *)
Theorem gradient_interpolation (s0 s1 : Stop) (rest : list Stop) (t : num) :
  let stops := s0 :: s1 :: rest in
  let t' := clamp01 t in
  (forall lower upper,
     find_bracket stops t' = Some (lower, upper) ->
     _interpolateGradient stops t = mix lower upper t'
     /\ exists i,
          List.nth_error stops i = Some lower
          /\ List.nth_error stops (S i) = Some upper
          /\ (t' >=? at_ lower) = true /\ (t' <=? at_ upper) = true
          /\ forall j a b,
               (j < i)%nat ->
               List.nth_error stops j = Some a ->
               List.nth_error stops (S j) = Some b ->
               (t' >=? at_ a) && (t' <=? at_ b) = false)
  /\ (increasing stops ->
      (t' >=? at_ s0) = true ->
      (t' <=? at_ (List.last stops s0)) = true ->
      exists lower upper, find_bracket stops t' = Some (lower, upper))
  /\ (find_bracket stops t' = None ->
      _interpolateGradient stops t = mix s0 (List.last stops s0) t')
  /\ (increasing stops ->
      at_ s0 = ofZ 0 ->
      at_ (List.last stops s0) = ofZ 1 ->
      Forall hex_ok stops ->
      ((t <=? ofZ 0) = true -> _interpolateGradient stops t = rgb_of s0)
      /\ ((t >=? ofZ 1) = true ->
          _interpolateGradient stops t = rgb_of (List.last stops s0))).
Proof.
  cbv zeta. split; [|split; [|split]].
  - intros lower upper Hf. split.
    + rewrite _interpolateGradient_unfold. cbv zeta. rewrite Hf. reflexivity.
    + apply find_bracket_adjacent. exact Hf.
  - intros Hinc Hlo Hhi. rewrite last_cons in Hhi.
    apply find_bracket_exists; try assumption. discriminate.
  - intros Hf. rewrite _interpolateGradient_unfold. cbv zeta.
    rewrite Hf. reflexivity.
  - intros Hinc H0 H1 Hok. rewrite last_cons in *.
    apply interpolate_endpoints; try assumption. discriminate.
Qed.


End FaceplateFacts.

(* ===================================================================== *)
(** * Further properties of the mapping, the simulator and the frame    *)
(* ===================================================================== *)

Section FurtherFacts.
Import Presets Mapping.

Lemma clamp01_mono (x y : Qc) :
  (x <= y)%Qc ->
  exists cx cy : Qc,
    clamp01 (Fin x) = Fin cx /\ clamp01 (Fin y) = Fin cy
    /\ (0 <= cx)%Qc /\ (cx <= cy)%Qc /\ (cy <= 1)%Qc.
Proof.
  intros Hxy. unfold clamp01, ofZ. cbn [Math_min Math_max ltb].
  repeat (case_cmp; cbn [Math_min Math_max ltb]);
    do 2 eexists; (split; [reflexivity|]); (split; [reflexivity|]);
    repeat split; qc_lra.
Qed.

Lemma Qcdiv_mono (a b d : Qc) :
  (0 < d)%Qc -> (a <= b)%Qc -> (a / d <= b / d)%Qc.
Proof.
  intros Hd Hab. unfold Qcdiv.
  apply Qcmult_le_compat_r; [exact Hab|].
  apply Qclt_le_weak.
  assert (H : (0 < / this d)%Q) by (apply Qinv_lt_0_compat; exact Hd).
  unfold Qclt, Qcinv, Q2Qc. cbn [this].
  rewrite (Qred_correct (/ this d)). exact H.
Qed.

(** The mapping is monotone in the value and never gives an angle
    before the start of the dial: with finite [min < max] whose
    difference is finite, and [startAngle <= endAngle] with a finite
    angular span, finite values [v1 <= v2] are mapped to angles in the
    same order, none below [toRadians(startAngle - 90)]. *)
Theorem valueToAngle_monotone (config : Config) (v1 v2 : num) :
  isFinite (min config) = true ->
  isFinite (max config) = true ->
  isFinite (max config - min config) = true ->
  isFinite (startAngle config) = true ->
  isFinite (endAngle config) = true ->
  isFinite (toRadians (endAngle config - ofZ 90)
            - toRadians (startAngle config - ofZ 90)) = true ->
  (min config <? max config) = true ->
  (startAngle config <=? endAngle config) = true ->
  isFinite v1 = true ->
  isFinite v2 = true ->
  (v1 <=? v2) = true ->
  (toRadians (startAngle config - ofZ 90)
   <=? Gauge._valueToAngle (Some config) v1) = true
  /\ (Gauge._valueToAngle (Some config) v1
      <=? Gauge._valueToAngle (Some config) v2) = true.
Proof.
  intros Hmin Hmax _ Hs He _ Hlt Hse Hv1 Hv2 Hle.
  assert (Hne : (max config === min config) = false).
  { destruct (max config), (min config); cbn [ltb seq] in *;
      try discriminate; try reflexivity.
    apply qc_eqb_false_iff. intros E. qc_lra. }
  rewrite !_valueToAngle_formula by assumption.
  apply isFinite_Fin in Hmin, Hmax, Hs, He, Hv1, Hv2.
  destruct Hmin as (mn & Hmin), Hmax as (mx & Hmax), Hs as (s & Hs),
    He as (e & He), Hv1 as (a & Hv1), Hv2 as (b & Hv2).
  unfold angle_formula. rewrite Hmin, Hmax, Hs, He, Hv1, Hv2 in *.
  cbn [ltb leb seq] in Hlt, Hse, Hle, Hne.
  assert (Hd : (0 < mx + - mn)%Qc) by qc_lra.
  assert (Hr : qc_eqb (mx + - mn) 0 = false).
  { apply qc_eqb_false_iff. intros E. qc_lra. }
  unfold ofZ. cbn [sub neg add div]. rewrite Hr, !toRadians_Fin.
  assert (Hq : ((a + - mn) / (mx + - mn) <= (b + - mn) / (mx + - mn))%Qc).
  { apply Qcdiv_mono; [exact Hd|qc_lra]. }
  destruct (@clamp01_mono _ _ Hq) as (ca & cb & Ea & Eb & H0 & Hab & H1).
  fold (clamp01 (Fin ((a + - mn) / (mx + - mn))%Qc)).
  fold (clamp01 (Fin ((b + - mn) / (mx + - mn))%Qc)).
  rewrite Ea, Eb. cbn [sub neg add mul leb].
  clear Ea Eb Hq Hr Hne.
  split; qc_nra.
Qed.

(** The speed preset: values 35 and 70. *)
Lemma valueToAngle_monotone_speed :
  (toRadians (startAngle speed - ofZ 90)
   <=? Gauge._valueToAngle (Some speed) (ofZ 35)) = true
  /\ (Gauge._valueToAngle (Some speed) (ofZ 35)
      <=? Gauge._valueToAngle (Some speed) (ofZ 70)) = true.
Proof.
  apply (@valueToAngle_monotone speed (ofZ 35) (ofZ 70)); reflexivity.
Defined.

Lemma isFinite_Math_abs (x : num) : isFinite (Math_abs x) = isFinite x.
Proof. destruct x; cbn [Math_abs isFinite]; try reflexivity.
  destruct (qc_ltb _ _); reflexivity. Qed.

(** [isSettled] fails safe: when the angle error or the velocity is not
    finite the needle counts as settled, whatever the threshold. *)
Theorem isSettled_fails_safe (threshold : num) (p : NeedlePhysics.t) :
  isFinite (NeedlePhysics.angle p - NeedlePhysics.targetAngle p) = false
  \/ isFinite (NeedlePhysics.velocity p) = false ->
  NeedlePhysics.isSettled threshold p = true.
Proof.
  intros H. unfold NeedlePhysics.isSettled. cbv zeta.
  rewrite !isFinite_Math_abs.
  destruct H as [-> | ->]; [reflexivity|].
  rewrite orb_true_r. reflexivity.
Qed.

(** A needle snapped to a NaN target. *)
Lemma isSettled_fails_safe_nan :
  NeedlePhysics.isSettled (ofQ (1 # 1000))
    (NeedlePhysics.setTarget NaN true
       (NeedlePhysics.constructor defaults false)) = true.
Proof. apply isSettled_fails_safe. left. reflexivity. Defined.


End FurtherFacts.

(* ===================================================================== *)
(** * Bounds on one call of the simulator                               *)
(* ===================================================================== *)

Section SimulatorBounds.
Import Presets NeedlePhysics Simulation.

(** A frame whose timestamp is not later than the previous one, or is
    not finite, integrates nothing: angle, velocity and accumulator
    stay as they are; only [lastTime] takes the new timestamp. *)
Theorem update_ignores_bad_timestamp
  (currentTime random last : num) (p : t) :
  lastTime p = Some last ->
  reducedMotion p = false ->
  accumulator_ok p ->
  isFinite currentTime = false \/ isFinite last = false
  \/ (currentTime <=? last) = true ->
  exists p' : t,
    update currentTime random p = Some (p', outputAngle random p')
    /\ angle p' = angle p
    /\ velocity p' = velocity p
    /\ accumulator p' = accumulator p
    /\ lastTime p' = Some currentTime.
Proof.
  intros Hl Hr Hacc Hbad.
  apply accumulator_ok_iff in Hacc. destruct Hacc as (a & Ha & Ha0 & Ha1).
  destruct (@update_running_spec currentTime random last p a Hl Hr Ha)
    as (f & Hf & Hf0 & Hf1 & Hu).
  cbv zeta in Hu.
  assert (Hf' : f = 0%Qc).
  { assert (E : frameTime last currentTime = ofZ 0).
    { unfold frameTime.
      destruct currentTime as [c| | |], last as [l| | |];
        try reflexivity;
        try (destruct Hbad as [Hb|[Hb|Hb]]; discriminate).
      destruct Hbad as [Hb|[Hb|Hb]]; try discriminate.
      cbn [leb] in Hb. unfold ofZ. cbn [sub neg add div].
      replace (qc_eqb (Q2Qc (inject_Z 1000)) 0) with false by reflexivity.
      cbn [isFinite negb orb ltb gtb].
      destruct (qc_ltb ((c + - l) / Q2Qc (inject_Z 1000)) (Q2Qc (inject_Z 0)))
        eqn:Hs.
      - reflexivity.
      - unfold MAX_FRAME_TIME, ofQ. cbn [gtb ltb].
        match goal with
        | |- context [qc_ltb ?u ?v] => destruct (qc_ltb u v) eqn:Hs2
        end; [qc_lra|].
        f_equal. qc_lra. }
    rewrite E in Hf. unfold ofZ in Hf. injection Hf as <-. reflexivity. }
  subst f.
  assert (Hd : due (a + 0) = 0%nat).
  { unfold due.
    assert (Hq : Qfloor (this (a + 0)%Qc * 120) = 0%Z).
    { clear Hu. apply Qfloor_unique; unfold dtq in *.
      - change (inject_Z 0) with 0%Q. qc_lra.
      - change (inject_Z (0 + 1)) with 1%Q. qc_lra. }
    rewrite Hq. reflexivity. }
  rewrite Hd in Hu. cbn [steps Nat.iter] in Hu.
  eexists. split; [exact Hu|].
  cbn [angle velocity accumulator lastTime set_accumulator set_lastTime].
  repeat split. rewrite Ha. f_equal.
  change (Z.of_nat 0) with 0%Z. unfold dtq. qc_lra.
Qed.

(** A NaN timestamp on a running default simulator. *)
Lemma update_ignores_bad_timestamp_nan :
  exists p' : t,
    update NaN (ofQ (1 # 2)) started = Some (p', outputAngle (ofQ (1 # 2)) p')
    /\ angle p' = angle started
    /\ velocity p' = velocity started
    /\ accumulator p' = accumulator started
    /\ lastTime p' = Some NaN.
Proof.
  apply (@update_ignores_bad_timestamp NaN (ofQ (1 # 2)) (ofZ 0) started).
  - reflexivity.
  - reflexivity.
  - split; reflexivity.
  - left. reflexivity.
Defined.

Lemma update_snapped (currentTime random : num) (p : t) :
  reducedMotion p = true ->
  angle p = targetAngle p -> velocity p = ofZ 0 -> accumulator p = ofZ 0 ->
  exists p',
    update currentTime random p = Some (p', targetAngle p)
    /\ reducedMotion p' = true
    /\ angle p' = targetAngle p' /\ velocity p' = ofZ 0
    /\ accumulator p' = ofZ 0.
Proof.
  intros Hr Ha Hv Hacc.
  destruct (lastTime p) as [last|] eqn:Hl.
  - destruct (@update_reduced currentTime random last p Hl Hr)
      as (p' & Hu & Ha' & Hv' & Hac' & _ & Ht' & _ & _ & _ & _ & Hr' & _).
    exists p'. split; [exact Hu|].
    repeat split; congruence.
  - rewrite (update_first currentTime random p Hl). rewrite Ha.
    eexists. split; [reflexivity|]. repeat split; assumption.
Qed.

Lemma run_snapped (calls : list call) :
  forall p : t,
    reducedMotion p = true ->
    angle p = targetAngle p -> velocity p = ofZ 0 -> accumulator p = ofZ 0 ->
    exists p',
      run calls p = Some p'
      /\ reducedMotion p' = true
      /\ angle p' = targetAngle p' /\ velocity p' = ofZ 0
      /\ accumulator p' = ofZ 0.
Proof.
  induction calls as [|c calls IH]; intros p Hr Ha Hv Hacc.
  - exists p. repeat split; assumption.
  - destruct c as [a immediate|currentTime random]; cbn [run apply_call].
    + apply IH; unfold setTarget; rewrite Hr, orb_true_r;
        try reflexivity; assumption.
    + destruct (@update_snapped currentTime random p Hr Ha Hv Hacc)
        as (p1 & Hu & Hr1 & Ha1 & Hv1 & Hacc1).
      rewrite Hu. cbn [option_map fst]. apply IH; assumption.
Qed.

(** Under the reduced-motion preference the needle never animates:
    after any sequence of [setTarget] and [update] calls on a new
    simulator, whatever their arguments, the needle sits on its target
    with velocity 0 and an empty accumulator, and the next [update]
    returns the target. *)
Theorem reduced_motion_never_animates
  (config : Config) (calls : list call) :
  exists p : t,
    run calls (constructor config true) = Some p
    /\ angle p = targetAngle p
    /\ velocity p = ofZ 0
    /\ accumulator p = ofZ 0
    /\ forall currentTime random : num,
         exists p' : t,
           update currentTime random p = Some (p', targetAngle p)
           /\ angle p' = targetAngle p.
Proof.
  destruct (@run_snapped calls (constructor config true))
    as (p & Hrun & Hr & Ha & Hv & Hacc); try reflexivity.
  exists p. repeat (split; [assumption|]).
  intros currentTime random.
  destruct (@update_snapped currentTime random p Hr Ha Hv Hacc)
    as (p' & Hu & _ & Ha' & _).
  exists p'. split; [exact Hu|].
  destruct (lastTime p) as [last|] eqn:Hl.
  - destruct (@update_reduced currentTime random last p Hl Hr)
      as (p2 & Hu2 & Ha2 & _).
    rewrite Hu in Hu2. injection Hu2 as <-. exact Ha2.
  - rewrite (update_first currentTime random p Hl) in Hu.
    injection Hu as <- _. exact Ha.
Qed.





End SimulatorBounds.

(* ===================================================================== *)
(** * The simulator without a spring                                    *)
(* ===================================================================== *)

Section SpringFacts.
Import Presets NeedlePhysics Simulation Spring Configs.

Lemma step_springless (a : Qc) (p : t) :
  springless a p -> step FIXED_TIMESTEP p = p.
Proof.
  intros [Hs Hv Ha Ht Hd Hma Hmv _].
  apply isFinite_Fin in Ht, Hd.
  destruct Ht as (tg & Ht), Hd as (kd & Hd).
  destruct p as [a0 v tg0 st da mv ma ac lt ve va rm].
  cbn [angle velocity targetAngle stiffness damping maxVelocity maxAccel]
    in *.
  subst. unfold step, ofZ.
  cbn [angle velocity targetAngle stiffness damping maxVelocity maxAccel
       accumulator lastTime vibrationEnabled vibrationAmount reducedMotion].
  rewrite FIXED_TIMESTEP_Fin. cbn [sub neg add mul].
  rewrite (@clamp_zero ma
             (Q2Qc (inject_Z 0) * (tg + - a) + - (kd * Q2Qc (inject_Z 0)))%Qc)
    by (try assumption; qc_lra).
  cbn [mul add].
  rewrite (@clamp_zero mv (Q2Qc (inject_Z 0) + 0 * dtq)%Qc)
    by (try assumption; unfold dtq; qc_lra).
  cbn [mul add]. f_equal; f_equal; unfold dtq; qc_lra.
Qed.

Lemma steps_springless (n : nat) (a : Qc) (p : t) :
  springless a p -> steps n p = p.
Proof.
  intros Hs. unfold steps. induction n as [|n IH]; [reflexivity|].
  rewrite Nat.iter_succ, IH. eapply step_springless; eassumption.
Qed.

Lemma update_springless (currentTime random : num) (a : Qc) (p : t) :
  accumulator_ok p -> springless a p ->
  exists p' out,
    update currentTime random p = Some (p', out)
    /\ accumulator_ok p' /\ springless a p'.
Proof.
  intros Hacc Hs.
  destruct (lastTime p) as [last|] eqn:Hl.
  - pose proof (sl_reducedMotion Hs) as Hrm.
    apply accumulator_ok_iff in Hacc. destruct Hacc as (x & Hx & Hx0 & Hx1).
    destruct (@update_running_spec currentTime random last p x Hl Hrm Hx)
      as (f & Hf & Hf0 & Hf1 & Hu).
    cbv zeta in Hu.
    assert (Hs0 : springless a (set_lastTime (Some currentTime) p)).
    { destruct Hs. constructor; assumption. }
    rewrite (@steps_springless (due (x + f)) a _ Hs0) in Hu.
    eexists _, _. split; [exact Hu|]. split.
    + apply accumulator_ok_iff. eexists. split; [reflexivity|].
      apply due_remainder. qc_lra.
    + destruct Hs. constructor; assumption.
  - rewrite (update_first currentTime random p Hl).
    eexists _, _. split; [reflexivity|]. split; [exact Hacc|].
    destruct Hs. constructor; assumption.
Qed.

Lemma updates_springless (a : Qc) (frames : list (num * num)) :
  forall p : t,
    accumulator_ok p -> springless a p ->
    exists p' outs,
      updates frames p = Some (p', outs) /\ springless a p'.
Proof.
  induction frames as [|[currentTime random] frames IH]; intros p Hacc Hs.
  - exists p, []. split; [reflexivity|assumption].
  - destruct (@update_springless currentTime random a p Hacc Hs)
      as (p1 & out & Hu & Hacc1 & Hs1).
    destruct (IH p1 Hacc1 Hs1) as (p' & outs & Hus & Hs').
    exists p', (out :: outs). cbn [updates]. rewrite Hu, Hus.
    split; [reflexivity|assumption].
Qed.

End SpringFacts.

(* ===================================================================== *)
(** * A gauge configured with stiffness 0                               *)
(* ===================================================================== *)

Section GaugeSpringFacts.
Import Presets Gauge Simulation Spring Configs SweepRun Frames.







End GaugeSpringFacts.

(* ===================================================================== *)
(** * Frames and resizes of the gauge                                   *)
(* ===================================================================== *)

Section GaugeFrameFacts.
Import Presets Gauge Simulation SweepRun Frames.


Lemma add_Fin_inv (x y : num) (q : Qc) :
  x + y = Fin q -> isFinite x = true.
Proof. destruct x, y; cbn; congruence. Qed.


Lemma setValue_keeps (value : num) (immediate : bool) (g : t) :
  let g' := setValue value immediate g in
  _renderer g' = _renderer g /\ _size g' = _size g
  /\ _config g' = _config g
  /\ NeedlePhysics.accumulator (_physics g')
     = NeedlePhysics.accumulator (_physics g)
  /\ NeedlePhysics.lastTime (_physics g')
     = NeedlePhysics.lastTime (_physics g).
Proof.
  cbv zeta. unfold setValue. destruct (negb (_isSweeping g)).
  - cbn [_renderer _size _config _physics]. do 3 (split; [reflexivity|]).
    unfold NeedlePhysics.setTarget.
    destruct (immediate || NeedlePhysics.reducedMotion (_physics g));
      split; reflexivity.
  - repeat split.
Qed.

Lemma run_gauge_without_renderer (ops : list op) :
  forall g : t,
    _renderer g = false ->
    run_gauge ops g = run_gauge (setValues ops) g
    /\ exists g',
         run_gauge ops g = Some g'
         /\ _renderer g' = false
         /\ NeedlePhysics.lastTime (_physics g')
            = NeedlePhysics.lastTime (_physics g)
         /\ NeedlePhysics.accumulator (_physics g')
            = NeedlePhysics.accumulator (_physics g).
Proof.
  induction ops as [|o ops IH]; intros g Hr.
  - split; [reflexivity|]. exists g. repeat split. exact Hr.
  - destruct o as [timestamp random|value immediate].
    + cbn [setValues List.filter run_gauge apply_op]. unfold _render.
      rewrite Hr. cbn [negb option_map fst]. apply IH. exact Hr.
    + cbn [setValues List.filter run_gauge apply_op].
      destruct (setValue_keeps value immediate g) as (E1 & _ & _ & E4 & E5).
      destruct (IH (setValue value immediate g)) as (H1 & g' & H2 & H3 & H4 & H5);
        [congruence|].
      split; [exact H1|]. exists g'. split; [exact H2|].
      split; [exact H3|]. split; congruence.
Qed.

(** Until the container has been resized to a positive size there is
    no renderer, and animation frames do nothing at all: a sequence of
    frames and [setValue] calls on a new gauge ends in the state its
    [setValue] calls alone lead to, and the simulator has not seen a
    timestamp. *)
Theorem frames_before_first_resize_do_nothing
  (config : Config) (prefersReduced : bool) (ops : list op) :
  run_gauge ops (constructor config prefersReduced)
  = run_gauge (setValues ops) (constructor config prefersReduced)
  /\ exists g' : t,
       run_gauge ops (constructor config prefersReduced) = Some g'
       /\ _renderer g' = false
       /\ NeedlePhysics.lastTime (_physics g') = None
       /\ NeedlePhysics.accumulator (_physics g') = ofZ 0.
Proof.
  destruct (@run_gauge_without_renderer ops (constructor config prefersReduced))
    as (H1 & g' & H2 & H3 & H4 & H5); [reflexivity|].
  split; [exact H1|]. exists g'. repeat (split; [assumption|]).
  rewrite H5. cbn [constructor _physics]. unfold NeedlePhysics.setTarget.
  reflexivity.
Qed.




(** [_handleResize] is idempotent, and a rectangle whose smaller side
    is zero, negative or NaN leaves the gauge as it is. *)
Theorem handleResize_idempotent (width height : num) (g : t) :
  _handleResize width height (_handleResize width height g)
  = _handleResize width height g
  /\ ((Math_min width height >? ofZ 0) = false ->
      _handleResize width height g = g).
Proof.
  split.
  2:{ intros H. unfold _handleResize. rewrite H. reflexivity. }
  remember (_handleResize width height g) as g1 eqn:Hg1.
  unfold _handleResize in Hg1.
  destruct ((Math_min width height >? ofZ 0)
            && (match _size g with
                | Some s => negb (s === Math_min width height)
                | None => true
                end || negb (_renderer g))) eqn:Hc.
  2:{ subst g1. unfold _handleResize. rewrite Hc. reflexivity. }
  apply andb_true_iff in Hc. destruct Hc as [Hpos _].
  unfold _rebuildRenderer in Hg1. cbn [_size] in Hg1.
  assert (Hok : negb (truthy (Math_min width height))
                || (Math_min width height <=? ofZ 0) = false).
  { destruct (Math_min width height) as [q| | |];
      cbn [gtb ltb leb truthy] in *; try discriminate; try reflexivity.
    unfold ofZ in *. cbn [gtb ltb leb] in *.
    replace (qc_eqb q 0) with false
      by (symmetry; apply qc_eqb_false_iff; intros E; qc_lra).
    cbn [negb orb]. apply qc_leb_false_iff. qc_lra. }
  rewrite Hok in Hg1.
  assert (Hsame : (Math_min width height === Math_min width height) = true).
  { destruct (Math_min width height) as [q| | |]; cbn [seq gtb ltb] in *;
      try discriminate; try reflexivity.
    apply qc_eqb_iff. reflexivity. }
  unfold _handleResize.
  replace (_size g1) with (Some (Math_min width height)) by (subst g1; reflexivity).
  replace (_renderer g1) with true by (subst g1; reflexivity).
  rewrite Hsame. cbn [negb orb]. rewrite andb_false_r. reflexivity.
Qed.

End GaugeFrameFacts.

(* ===================================================================== *)
(** * Saturation of the mapping                                         *)
(* ===================================================================== *)

Section SaturationFacts.
Import Presets Mapping.

Lemma Qcdiv_nonpos (a d : Qc) :
  (0 < d)%Qc -> (a <= 0)%Qc -> (a / d <= 0)%Qc.
Proof.
  intros Hd Ha.
  assert (H : (0 < / this d)%Q) by (apply Qinv_lt_0_compat; exact Hd).
  unfold Qcle, Qcdiv, Qcmult, Qcinv, Q2Qc in *. cbn [this] in *.
  rewrite !Qred_correct. rewrite Qred_correct in Ha.
  change (this 0%Qc) with 0%Q in *. nra.
Qed.

Lemma Qcdiv_ge_1 (a d : Qc) :
  (0 < d)%Qc -> (d <= a)%Qc -> (1 <= a / d)%Qc.
Proof.
  intros Hd Ha.
  assert (H : (0 < / this d)%Q) by (apply Qinv_lt_0_compat; exact Hd).
  assert (E : (this d * / this d == 1)%Q).
  { apply Qmult_inv_r. intros E. unfold Qclt in Hd.
    change (this (Q2Qc 0)) with 0%Q in Hd. lra. }
  unfold Qcle, Qclt, Qcdiv, Qcmult, Qcinv, Q2Qc in *. cbn [this] in *.
  rewrite !Qred_correct.
  change (Qred 1) with 1%Q. change (Qred 0) with 0%Q in *. nra.
Qed.

(** Values outside the range saturate: a finite value at or below [min]
    is mapped like [min], one at or above [max] like [max]; a value that
    is not finite (NaN, +Infinity or -Infinity) is mapped like [min]. *)
Theorem valueToAngle_saturates (config : Config) (value : num) :
  isFinite (min config) = true ->
  isFinite (max config) = true ->
  isFinite (startAngle config) = true ->
  isFinite (endAngle config) = true ->
  (min config <? max config) = true ->
  (isFinite value = false ->
   Gauge._valueToAngle (Some config) value
   = Gauge._valueToAngle (Some config) (min config))
  /\ (isFinite value = true -> (value <=? min config) = true ->
      Gauge._valueToAngle (Some config) value
      = Gauge._valueToAngle (Some config) (min config))
  /\ (isFinite value = true -> (max config <=? value) = true ->
      Gauge._valueToAngle (Some config) value
      = Gauge._valueToAngle (Some config) (max config)).
Proof.
  intros Hmin Hmax Hs He Hlt.
  assert (Hne : (max config === min config) = false).
  { destruct (max config), (min config); cbn [ltb seq] in *;
      try discriminate; try reflexivity.
    apply qc_eqb_false_iff. intros E. qc_lra. }
  split; [|split].
  - intros Hv. unfold Gauge._valueToAngle. rewrite Hv, Hmin. reflexivity.
  - intros Hv Hle. rewrite !_valueToAngle_formula by assumption.
    unfold angle_formula. do 2 f_equal.
    apply isFinite_Fin in Hmin, Hmax, Hv.
    destruct Hmin as (mn & Hmin), Hmax as (mx & Hmax), Hv as (v & Hv).
    rewrite Hmin, Hmax, Hv in *. cbn [ltb leb seq] in Hlt, Hle, Hne.
    assert (Hd : (0 < mx + - mn)%Qc) by qc_lra.
    assert (Hr : qc_eqb (mx + - mn) 0 = false).
    { apply qc_eqb_false_iff. intros E. qc_lra. }
    cbn [sub neg add div]. rewrite Hr.
    rewrite !clamp01_low; try reflexivity; unfold ofZ; cbn [leb];
      apply qc_leb_iff; apply Qcdiv_nonpos; try assumption; qc_lra.
  - intros Hv Hle. rewrite !_valueToAngle_formula by assumption.
    unfold angle_formula. do 2 f_equal.
    apply isFinite_Fin in Hmin, Hmax, Hv.
    destruct Hmin as (mn & Hmin), Hmax as (mx & Hmax), Hv as (v & Hv).
    rewrite Hmin, Hmax, Hv in *. cbn [ltb leb seq] in Hlt, Hle, Hne.
    assert (Hd : (0 < mx + - mn)%Qc) by qc_lra.
    assert (Hr : qc_eqb (mx + - mn) 0 = false).
    { apply qc_eqb_false_iff. intros E. qc_lra. }
    cbn [sub neg add div]. rewrite Hr.
    rewrite !clamp01_high; try reflexivity; unfold ofZ; cbn [geb leb];
      apply qc_leb_iff; apply Qcdiv_ge_1; try assumption; qc_lra.
Qed.

(** The speed preset: NaN and -1 are drawn as 0, 200 as 140. *)
Lemma valueToAngle_saturates_speed :
  Gauge._valueToAngle (Some speed) NaN
  = Gauge._valueToAngle (Some speed) (min speed)
  /\ Gauge._valueToAngle (Some speed) (ofZ (-1))
     = Gauge._valueToAngle (Some speed) (min speed)
  /\ Gauge._valueToAngle (Some speed) (ofZ 200)
     = Gauge._valueToAngle (Some speed) (max speed).
Proof.
  split; [|split].
  - destruct (@valueToAngle_saturates speed NaN) as (H & _);
      [reflexivity..|].
    apply H. reflexivity.
  - destruct (@valueToAngle_saturates speed (ofZ (-1))) as (_ & H & _);
      [reflexivity..|].
    apply H; reflexivity.
  - destruct (@valueToAngle_saturates speed (ofZ 200)) as (_ & _ & H);
      [reflexivity..|].
    apply H; reflexivity.
Defined.

End SaturationFacts.

(* ===================================================================== *)
(** * Ticks and zone bands on the scale                                 *)
(* ===================================================================== *)

Section ScaleFacts.
Import Presets GaugeRenderer Scale Mapping.

Lemma filter_all (A : Type) (f : A -> bool) (l : list A) :
  Forall (fun x => f x = true) l -> List.filter f l = l.
Proof.
  induction 1 as [|x l Hx _ IH]; [reflexivity|].
  cbn [List.filter]. rewrite Hx, IH. reflexivity.
Qed.

Lemma minor_block (m n : nat) :
  (0 < m)%nat ->
  List.length
    (List.filter (fun i => negb (Nat.eqb (i mod m) 0))
                 (List.seq (n * m + 1) m))
  = (m - 1)%nat.
Proof.
  intros Hm. destruct m as [|m']; [lia|]. clear Hm.
  rewrite List.seq_S, List.filter_app, List.length_app.
  rewrite filter_all.
  - rewrite List.length_seq. cbn [List.filter].
    replace (n * S m' + 1 + m')%nat with ((n + 1) * S m')%nat by lia.
    rewrite Nat.Div0.mod_mul. cbn. lia.
  - apply Forall_forall. intros i Hi. apply List.in_seq in Hi.
    apply negb_true_iff, Nat.eqb_neq.
    replace i with ((i - n * S m') + n * S m')%nat by lia.
    rewrite Nat.Div0.mod_add. rewrite Nat.mod_small by lia. lia.
Qed.

Lemma minor_count (m n : nat) :
  (0 < m)%nat ->
  List.length
    (List.filter (fun i => negb (Nat.eqb (i mod m) 0))
                 (List.seq 0 (n * m + 1)))
  = (n * (m - 1))%nat.
Proof.
  intros Hm. induction n as [|n IH].
  - cbn [Nat.mul Nat.add List.seq List.filter].
    rewrite Nat.Div0.mod_0_l. reflexivity.
  - replace (S n * m + 1)%nat with ((n * m + 1) + m)%nat by lia.
    rewrite List.seq_app, List.filter_app, List.length_app, IH.
    cbn [Nat.add]. rewrite (minor_block n Hm). lia.
Qed.

Lemma inject_Z_nonzero (z : Z) : z <> 0%Z -> ~ (inject_Z z == 0)%Q.
Proof.
  intros Hz E. apply Hz. change 0%Q with (inject_Z 0) in E.
  apply eq_Zeq_inject_Z in E || (unfold Qeq in E; cbn in E; lia).
Qed.

Lemma div_ofZ (a b : Z) :
  b <> 0%Z ->
  ofZ a / ofZ b = Fin (Q2Qc (inject_Z a) / Q2Qc (inject_Z b))%Qc.
Proof.
  intros Hb. unfold ofZ. cbn [div].
  replace (qc_eqb (Q2Qc (inject_Z b)) 0) with false; [reflexivity|].
  symmetry. apply qc_eqb_false_iff. intros E. apply qc_eq_Qeq in E.
  unfold Q2Qc in E. cbn [this] in E. rewrite !Qred_correct in E.
  exact (inject_Z_nonzero Hb E).
Qed.

Lemma ratio_scale (k M m : nat) :
  (2 <= M)%nat -> (0 < m)%nat ->
  (Q2Qc (inject_Z (Z.of_nat (k * m)))
   / Q2Qc (inject_Z ((Z.of_nat M - 1) * Z.of_nat m))
   = Q2Qc (inject_Z (Z.of_nat k))
     / (Q2Qc (inject_Z (Z.of_nat M)) + - Q2Qc (inject_Z 1)))%Qc.
Proof.
  intros HM Hm. apply Qc_is_canon.
  unfold Qcdiv, Qcmult, Qcinv, Qcplus, Qcopp, Q2Qc. cbn [this].
  rewrite !Qred_correct.
  rewrite Nat2Z.inj_mul, !inject_Z_mult, inject_Z_sub.
  assert (H1 : ~ (inject_Z (Z.of_nat m) == 0)%Q)
    by (apply inject_Z_nonzero; lia).
  assert (H2 : ~ (inject_Z (Z.of_nat M) + - inject_Z 1 == 0)%Q).
  { rewrite <- inject_Z_sub. apply inject_Z_nonzero. lia. }
  field. split; assumption.
Qed.

(** The minor ticks: [minorTicks] divisions between two major ticks
    give [minorTicks - 1] minor ticks there, all in the minor-tick
    color; the positions the loop skips are those of the major ticks. *)
Theorem minor_ticks_between_majors (this : t) :
  let config := config this in
  List.length (drawTicks_minor this)
  = ((majorTicks config - 1) * (minorTicks config - 1))%nat
  /\ Forall (fun tk => tick_style tk = minorTicksColor (_resolvedColors this))
            (drawTicks_minor this)
  /\ (isFinite (startAngle config) = true ->
      isFinite (endAngle config) = true ->
      (2 <= majorTicks config)%nat -> (0 < minorTicks config)%nat ->
      forall k : nat,
        (k < majorTicks config)%nat ->
        option_map tick_angle (List.nth_error (drawTicks this) k)
        = Some (minorAngle config (k * minorTicks config))).
Proof.
  cbv zeta. split; [|split].
  - unfold drawTicks_minor.
    destruct (Nat.ltb 0 (minorTicks (config this))) eqn:Hm.
    + apply Nat.ltb_lt in Hm. rewrite List.length_map. unfold totalMinor.
      destruct (majorTicks (config this)) as [|n].
      * replace (Z.to_nat ((Z.of_nat 0 - 1) * Z.of_nat (minorTicks (config this)) + 1))
          with 0%nat by lia.
        reflexivity.
      * replace (Z.to_nat ((Z.of_nat (S n) - 1)
                           * Z.of_nat (minorTicks (config this)) + 1))
          with (n * minorTicks (config this) + 1)%nat by lia.
        rewrite (minor_count n Hm). f_equal. lia.
    + apply Nat.ltb_ge in Hm.
      replace (minorTicks (config this)) with 0%nat by lia.
      cbn [List.length]. lia.
  - unfold drawTicks_minor.
    destruct (Nat.ltb 0 (minorTicks (config this))); [|constructor].
    apply Forall_forall. intros tk Hin. apply List.in_map_iff in Hin.
    destruct Hin as (i & <- & _). reflexivity.
  - intros Hs He HM Hm k Hk.
    unfold drawTicks. rewrite nth_error_map_seq by exact Hk.
    cbn [option_map tick_angle]. f_equal.
    unfold minorAngle, totalMinor.
    apply isFinite_Fin in Hs, He. destruct Hs as (s & Hs), He as (e & He).
    rewrite Hs, He.
    rewrite div_ofZ by nia.
    unfold ofZ. cbn [sub neg add div mul].
    replace (qc_eqb (Q2Qc (inject_Z (Z.of_nat (majorTicks (config this))))
                     + - Q2Qc (inject_Z 1)) 0) with false.
    2:{ symmetry. apply qc_eqb_false_iff. intros E. apply qc_eq_Qeq in E.
        unfold Qcplus, Qcopp, Q2Qc in E. cbn [Qcanon.this] in E.
        rewrite !Qred_correct in E. rewrite <- inject_Z_sub in E.
        revert E. apply inject_Z_nonzero. lia. }
    rewrite (ratio_scale k HM Hm). reflexivity.
Qed.

Lemma range_ratio (v mn mx : Qc) :
  (mn < mx)%Qc -> (mn <= v)%Qc -> (v <= mx)%Qc ->
  (0 <= (v + - mn) / (mx + - mn))%Qc /\ ((v + - mn) / (mx + - mn) <= 1)%Qc.
Proof.
  intros Hlt Hlo Hhi.
  assert (Hd : (0 < this (mx + - mn)%Qc)%Q). { qc_to_q. lra. }
  pose proof (Qinv_lt_0_compat _ Hd) as Hinv.
  assert (E : (this (mx + - mn)%Qc * / this (mx + - mn)%Qc == 1)%Q).
  { apply Qmult_inv_r. lra. }
  assert (Hn0 : (0 <= this (v + - mn)%Qc)%Q) by qc_lra.
  assert (Hn1 : (this (v + - mn)%Qc <= this (mx + - mn)%Qc)%Q) by qc_lra.
  unfold Qcle, Qcdiv, Qcmult, Qcinv, Q2Qc. cbn [this].
  rewrite !Qred_correct.
  revert Hd Hinv E Hn0 Hn1.
  generalize (this (v + - mn)%Qc) (this (mx + - mn)%Qc). intros n d Hd.
  generalize (/ d)%Q. intros w Hw E Hn0 Hn1. split; nra.
Qed.

Lemma in_range_angle (config : Config) (v mn mx s e : Qc) :
  min config = Fin mn -> max config = Fin mx ->
  startAngle config = Fin s -> endAngle config = Fin e ->
  (mn < mx)%Qc -> (mn <= v)%Qc -> (v <= mx)%Qc ->
  (startAngle config - ofZ 90) * Math_PI / ofZ 180
  + ((Fin v - min config) / (max config - min config))
    * ((endAngle config - ofZ 90) * Math_PI / ofZ 180
       - (startAngle config - ofZ 90) * Math_PI / ofZ 180)
  = angle_formula config (Fin v).
Proof.
  intros Hmin Hmax Hs He Hlt Hlo Hhi.
  destruct (range_ratio Hlt Hlo Hhi) as (H0 & H1).
  unfold angle_formula. rewrite Hmin, Hmax, Hs, He.
  fold (toRadians (Fin s - ofZ 90)). fold (toRadians (Fin e - ofZ 90)).
  unfold ofZ. cbn [sub neg add]. rewrite !toRadians_Fin.
  assert (Hr : qc_eqb (mx + - mn) 0 = false).
  { apply qc_eqb_false_iff. intros E. qc_lra. }
  cbn [div]. rewrite Hr.
  destruct (clamp01_Fin ((v + - mn) / (mx + - mn))%Qc) as (c & Hc & _ & _ & Ec).
  rewrite Hc, (Ec H0 H1). reflexivity.
Qed.

(** A zone whose bounds lie in [[min, max]] is drawn between the angles
    the needle takes for its bounds, in the zone's color; without
    [offset] and [width] the band lies between 0.72 and 0.88 of the
    face radius. *)
Theorem zone_bands_follow_the_mapping
  (this : t) (center radius : num) (k : nat) (zone : Zone) :
  isFinite (min (config this)) = true ->
  isFinite (max (config this)) = true ->
  isFinite (startAngle (config this)) = true ->
  isFinite (endAngle (config this)) = true ->
  (min (config this) <? max (config this)) = true ->
  List.nth_error (resolveZones (config this)) k = Some zone ->
  isFinite (zone_start zone) = true ->
  isFinite (zone_end zone) = true ->
  (min (config this) <=? zone_start zone) = true ->
  (zone_start zone <=? max (config this)) = true ->
  (min (config this) <=? zone_end zone) = true ->
  (zone_end zone <=? max (config this)) = true ->
  exists band : Band,
    List.nth_error (drawZones this center radius) k = Some band
    /\ band_from band = valueToAngle this (zone_start zone)
    /\ band_to band = valueToAngle this (zone_end zone)
    /\ band_fill band = zone_color zone
    /\ (zone_offset zone = None -> zone_width zone = None ->
        isFinite radius = true ->
        band_outer band = radius * ofQ (88 # 100) * ofQ (88 # 100)
        /\ band_inner band = radius * ofQ (88 # 100) * ofQ (72 # 100)).
Proof.
  intros Hmin Hmax Hs He Hlt Hz Hzs Hze L1 U1 L2 U2.
  apply isFinite_Fin in Hmin, Hmax, Hs, He, Hzs, Hze.
  destruct Hmin as (mn & Hmin), Hmax as (mx & Hmax), Hs as (s & Hs),
    He as (e & He), Hzs as (zs & Hzs), Hze as (ze & Hze).
  unfold drawZones. rewrite List.nth_error_map, Hz. cbn [option_map].
  eexists. split; [reflexivity|].
  cbn [band_from band_to band_fill band_outer band_inner].
  change (valueToAngle this (zone_start zone))
    with (angle_formula (config this) (zone_start zone)).
  change (valueToAngle this (zone_end zone))
    with (angle_formula (config this) (zone_end zone)).
  rewrite Hmin, Hmax in Hlt. rewrite Hmin, Hzs in L1.
  rewrite Hzs, Hmax in U1. rewrite Hmin, Hze in L2. rewrite Hze, Hmax in U2.
  rewrite Hzs, Hze.
  cbn [ltb leb] in Hlt, L1, U1, L2, U2.
  apply qc_ltb_iff in Hlt. apply qc_leb_iff in L1, U1, L2, U2.
  split; [apply (@in_range_angle (config this) zs mn mx s e); assumption|].
  split; [apply (@in_range_angle (config this) ze mn mx s e); assumption|].
  split; [reflexivity|].
  intros -> -> Hr. apply isFinite_Fin in Hr. destruct Hr as (r & ->).
  unfold ofQ. cbn [mul sub neg add]. split; [reflexivity|].
  f_equal. ring.
Qed.

(** The zone the rpm preset gets from [redlineStart = 60]. *)
Lemma zone_bands_follow_the_mapping_rpm :
  exists band : Band,
    List.nth_error
      (drawZones (constructor (ofZ 200) rpm) (ofZ 100) (ofZ 90)) 0
    = Some band
    /\ band_from band = valueToAngle (constructor (ofZ 200) rpm) (ofZ 60)
    /\ band_to band = valueToAngle (constructor (ofZ 200) rpm) (ofZ 80)
    /\ band_fill band = "rgba(204, 32, 32, 0.15)"
    /\ (@None num = None -> @None num = None ->
        isFinite (ofZ 90) = true ->
        band_outer band = ofZ 90 * ofQ (88 # 100) * ofQ (88 # 100)
        /\ band_inner band = ofZ 90 * ofQ (88 # 100) * ofQ (72 # 100)).
Proof.
  apply (@zone_bands_follow_the_mapping (constructor (ofZ 200) rpm)
           (ofZ 100) (ofZ 90) 0
           (Faceplate.legacyZone (ofZ 60) rpm)); reflexivity.
Defined.

End ScaleFacts.

(* ===================================================================== *)
(** * The illuminated ticks                                             *)
(* ===================================================================== *)

Section ActiveTickFacts.
Import Presets GaugeRenderer Scale ActiveTickLayer Mapping Configs.

Lemma seq_sorted (n : nat) : forall a, StronglySorted lt (List.seq a n).
Proof.
  induction n as [|n IH]; intros a; cbn [List.seq]; constructor.
  - apply IH.
  - apply Forall_forall. intros x Hx. apply List.in_seq in Hx. lia.
Qed.

Lemma filter_sorted (p : nat -> bool) (l : list nat) :
  StronglySorted lt l -> StronglySorted lt (List.filter p l).
Proof.
  induction 1 as [|a l Hs IH Hall]; cbn [List.filter]; [constructor|].
  destruct (p a); [|exact IH]. constructor; [exact IH|].
  apply Forall_forall. intros x Hx. apply List.filter_In in Hx.
  rewrite Forall_forall in Hall. apply Hall. tauto.
Qed.

Lemma until_beyond_sorted (c : num) (g : nat -> Qc) (style : string)
  (l : list nat) :
  StronglySorted lt l ->
  (forall i j, (i <= j)%nat -> (g i <= g j)%Qc) ->
  until_beyond c
    (List.map (fun i => {| tick_angle := Fin (g i); tick_style := style |}) l)
  = List.filter (fun tk => negb (tick_angle tk >? c))
      (List.map (fun i => {| tick_angle := Fin (g i); tick_style := style |}) l).
Proof.
  intros Hs Hg. induction Hs as [|a l Hs IH Hall];
    cbn [List.map until_beyond List.filter tick_angle]; [reflexivity|].
  destruct (Fin (g a) >? c) eqn:Ha; cbn [negb].
  - symmetry. clear IH.
    induction l as [|x l IHl]; [reflexivity|].
    cbn [List.map List.filter tick_angle].
    inversion Hall as [|? ? Hx Hrest]; subst.
    inversion Hs as [|? ? Hs' Hall']; subst.
    replace (Fin (g x) >? c) with true.
    + cbn [negb]. apply IHl; assumption.
    + symmetry. assert (Hle : (g a <= g x)%Qc) by (apply Hg; lia).
      destruct c as [q| | |]; cbn [gtb ltb] in *; try discriminate;
        try reflexivity. apply qc_ltb_iff. qc_lra.
  - rewrite IH. reflexivity.
Qed.

Lemma map_filter_angle (p : num -> bool) (l : list Tick) :
  List.map tick_angle (List.filter (fun tk => p (tick_angle tk)) l)
  = List.filter p (List.map tick_angle l).
Proof.
  induction l as [|tk l IH]; [reflexivity|].
  cbn [List.filter List.map]. destruct (p (tick_angle tk));
    cbn [List.map]; rewrite IH; reflexivity.
Qed.

Lemma until_beyond_style (c : num) (style : string) (l : list Tick) :
  Forall (fun tk => tick_style tk = style) l ->
  Forall (fun tk => tick_style tk = style) (until_beyond c l).
Proof.
  induction 1 as [|tk l Htk _ IH]; cbn [until_beyond]; [constructor|].
  destruct (tick_angle tk >? c); constructor; assumption.
Qed.

Lemma major_angle_Fin (config : Config) (s e : Qc) (i : nat) :
  startAngle config = Fin s -> endAngle config = Fin e ->
  (2 <= majorTicks config)%nat ->
  (startAngle config - ofZ 90) * Math_PI / ofZ 180
  + (ofZ (Z.of_nat i) / (ofZ (Z.of_nat (majorTicks config)) - ofZ 1))
    * ((endAngle config - ofZ 90) * Math_PI / ofZ 180
       - (startAngle config - ofZ 90) * Math_PI / ofZ 180)
  = Fin ((s + - Q2Qc (inject_Z 90)) * Q2Qc (884279719003555 # 281474976710656)
         / Q2Qc (inject_Z 180)
         + Q2Qc (inject_Z (Z.of_nat i))
           / (Q2Qc (inject_Z (Z.of_nat (majorTicks config)))
              + - Q2Qc (inject_Z 1))
           * ((e + - Q2Qc (inject_Z 90))
              * Q2Qc (884279719003555 # 281474976710656)
              / Q2Qc (inject_Z 180)
              + - ((s + - Q2Qc (inject_Z 90))
                   * Q2Qc (884279719003555 # 281474976710656)
                   / Q2Qc (inject_Z 180))))%Qc.
Proof.
  intros Hs He HM. rewrite Hs, He.
  fold (toRadians (Fin s - ofZ 90)). fold (toRadians (Fin e - ofZ 90)).
  unfold ofZ. cbn [sub neg add]. rewrite !toRadians_Fin.
  assert (Hd : qc_eqb (Q2Qc (inject_Z (Z.of_nat (majorTicks config)))
                       + - Q2Qc (inject_Z 1)) 0 = false).
  { apply qc_eqb_false_iff. intros E. apply qc_eq_Qeq in E.
    unfold Qcplus, Qcopp, Q2Qc in E. cbn [this] in E.
    rewrite !Qred_correct in E. rewrite <- inject_Z_sub in E.
    revert E. apply inject_Z_nonzero. lia. }
  cbn [div]. rewrite Hd. reflexivity.
Qed.

Lemma scaled_mono (s' T d : Qc) (i j : nat) :
  (0 < d)%Qc -> (0 <= T)%Qc -> (i <= j)%nat ->
  (s' + Q2Qc (inject_Z (Z.of_nat i)) / d * T
   <= s' + Q2Qc (inject_Z (Z.of_nat j)) / d * T)%Qc.
Proof.
  intros Hd HT Hij.
  assert (H1 : (Q2Qc (inject_Z (Z.of_nat i)) <= Q2Qc (inject_Z (Z.of_nat j)))%Qc).
  { unfold Qcle, Q2Qc. cbn [this]. rewrite !Qred_correct.
    rewrite <- Zle_Qle. lia. }
  pose proof (Qcdiv_mono Hd H1) as H2.
  pose proof (Qcmult_le_compat_r _ _ _ H2 HT) as H3.
  apply Qcplus_le_compat; [apply Qcle_refl|exact H3].
Qed.

Lemma sweep_nonneg (s e : Qc) :
  (s <= e)%Qc ->
  (0 <= (e + - Q2Qc (inject_Z 90)) * Q2Qc (884279719003555 # 281474976710656)
        / Q2Qc (inject_Z 180)
        + - ((s + - Q2Qc (inject_Z 90))
             * Q2Qc (884279719003555 # 281474976710656)
             / Q2Qc (inject_Z 180)))%Qc.
Proof. intros H. qc_lra. Qed.

(** With [startAngle <= endAngle] the ticks lit are exactly the ticks of
    the scale that are not beyond the needle, majors and minors alike,
    all in the active color. *)
Theorem active_ticks_follow_the_needle
  (this : t) (active : ActiveTicks) (currentAngle : num) :
  isFinite (startAngle (config this)) = true ->
  isFinite (endAngle (config this)) = true ->
  (startAngle (config this) <=? endAngle (config this)) = true ->
  (2 <= majorTicks (config this))%nat ->
  let lit := drawActiveTicks (Some active) currentAngle (config this) in
  List.map tick_angle (fst lit)
  = List.filter (fun a => negb (a >? currentAngle))
      (List.map tick_angle (drawTicks this))
  /\ List.map tick_angle (snd lit)
     = List.filter (fun a => negb (a >? currentAngle))
         (List.map tick_angle (drawTicks_minor this))
  /\ Forall (fun tk => tick_style tk = str_or_else (at_color active) "#FF8800")
            (fst lit ++ snd lit).
Proof.
  intros Hs He Hse HM. cbv zeta.
  apply isFinite_Fin in Hs, He. destruct Hs as (s & Hs), He as (e & He).
  assert (HT := @sweep_nonneg s e).
  rewrite Hs, He in Hse. cbn [leb] in Hse. apply qc_leb_iff in Hse.
  specialize (HT Hse).
  unfold drawActiveTicks. cbn [fst snd].
  set (color := str_or_else (at_color active) "#FF8800").
  set (p := fun a : num => negb (a >? currentAngle)).
  split; [|split].
  - unfold drawTicks.
    set (g := fun i : nat =>
                ((s + - Q2Qc (inject_Z 90))
                 * Q2Qc (884279719003555 # 281474976710656)
                 / Q2Qc (inject_Z 180)
                 + Q2Qc (inject_Z (Z.of_nat i))
                   / (Q2Qc (inject_Z (Z.of_nat (majorTicks (config this))))
                      + - Q2Qc (inject_Z 1))
                   * ((e + - Q2Qc (inject_Z 90))
                      * Q2Qc (884279719003555 # 281474976710656)
                      / Q2Qc (inject_Z 180)
                      + - ((s + - Q2Qc (inject_Z 90))
                           * Q2Qc (884279719003555 # 281474976710656)
                           / Q2Qc (inject_Z 180))))%Qc).
    assert (Hang : forall i, _ = Fin (g i))
      by (intros i; exact (@major_angle_Fin (config this) s e i Hs He HM)).
    match goal with
    | |- context [until_beyond _ (List.map ?f ?l)] =>
        rewrite (List.map_ext f
                   (fun i => {| tick_angle := Fin (g i); tick_style := color |}))
          by (intros i; cbv beta; rewrite Hang; reflexivity)
    end.
    rewrite until_beyond_sorted.
    + rewrite (map_filter_angle p), !List.map_map. cbn [tick_angle].
      f_equal. apply List.map_ext. intros i. rewrite Hang. reflexivity.
    + apply seq_sorted.
    + intros i j Hij. apply scaled_mono; try assumption.
      unfold Qclt, Qcplus, Qcopp, Q2Qc. cbn [Qcanon.this].
      rewrite !Qred_correct. rewrite <- inject_Z_sub.
      change 0%Q with (inject_Z 0). rewrite <- Zlt_Qlt. lia.
  - unfold drawTicks_minor.
    destruct (Nat.ltb 0 (minorTicks (config this))) eqn:Hm; [|reflexivity].
    apply Nat.ltb_lt in Hm.
    assert (Htm : (0 < totalMinor (config this))%Z)
      by (unfold totalMinor; nia).
    set (g := fun i : nat =>
                ((s + - Q2Qc (inject_Z 90))
                 * Q2Qc (884279719003555 # 281474976710656)
                 / Q2Qc (inject_Z 180)
                 + Q2Qc (inject_Z (Z.of_nat i))
                   / Q2Qc (inject_Z (totalMinor (config this)))
                   * ((e + - Q2Qc (inject_Z 90))
                      * Q2Qc (884279719003555 # 281474976710656)
                      / Q2Qc (inject_Z 180)
                      + - ((s + - Q2Qc (inject_Z 90))
                           * Q2Qc (884279719003555 # 281474976710656)
                           / Q2Qc (inject_Z 180))))%Qc).
    assert (Hang : forall i, minorAngle (config this) i = Fin (g i)).
    { intros i. unfold minorAngle, g. rewrite Hs, He.
      fold (toRadians (Fin s - ofZ 90)). fold (toRadians (Fin e - ofZ 90)).
      rewrite div_ofZ by lia.
      unfold ofZ. cbn [sub neg add]. rewrite !toRadians_Fin. reflexivity. }
    match goal with
    | |- context [until_beyond _ (List.map ?f ?l)] =>
        rewrite (List.map_ext f
                   (fun i => {| tick_angle := Fin (g i); tick_style := color |}))
          by (intros i; cbv beta; rewrite Hang; reflexivity)
    end.
    rewrite until_beyond_sorted.
    + rewrite (map_filter_angle p), !List.map_map. cbn [tick_angle].
      f_equal. apply List.map_ext. intros i. rewrite Hang. reflexivity.
    + apply filter_sorted, seq_sorted.
    + intros i j Hij. apply scaled_mono; try assumption.
      unfold Qclt, Q2Qc. cbn [Qcanon.this]. rewrite !Qred_correct.
      change 0%Q with (inject_Z 0). rewrite <- Zlt_Qlt. exact Htm.
  - apply Forall_app. split.
    + apply until_beyond_style. apply Forall_forall. intros tk Hin.
      apply List.in_map_iff in Hin. destruct Hin as (i & <- & _). reflexivity.
    + destruct (Nat.ltb 0 (minorTicks (config this))); [|constructor].
      apply until_beyond_style. apply Forall_forall. intros tk Hin.
      apply List.in_map_iff in Hin. destruct Hin as (i & <- & _). reflexivity.
Qed.

(** The modern preset, needle pointing straight up. *)
Lemma active_ticks_follow_the_needle_modern :
  let this := constructor (ofZ 200) modern in
  let lit :=
    drawActiveTicks (Some (mkActiveTicks (Some "#FFAA00"))) (ofZ 0)
      (config this) in
  List.map tick_angle (fst lit)
  = List.filter (fun a => negb (a >? ofZ 0))
      (List.map tick_angle (drawTicks this))
  /\ List.map tick_angle (snd lit)
     = List.filter (fun a => negb (a >? ofZ 0))
         (List.map tick_angle (drawTicks_minor this))
  /\ Forall (fun tk => tick_style tk
                      = str_or_else (at_color (mkActiveTicks (Some "#FFAA00")))
                          "#FF8800")
            (fst lit ++ snd lit).
Proof.
  apply (@active_ticks_follow_the_needle (constructor (ofZ 200) modern)
           (mkActiveTicks (Some "#FFAA00")) (ofZ 0));
    try reflexivity.
  cbn. lia.
Defined.

Lemma until_beyond_none (c : num) (l : list Tick) :
  Forall (fun tk => (tick_angle tk >? c) = false) l ->
  until_beyond c l = l.
Proof.
  induction 1 as [|tk l Htk _ IH]; cbn [until_beyond]; [reflexivity|].
  rewrite Htk, IH. reflexivity.
Qed.

(** On a dial that runs counter-clockwise ([endAngle < startAngle]) the
    major ticks are lit all or none: none while the needle angle is
    below the angle of the first tick, [toRadians(startAngle - 90)],
    all once it is at or above it. *)
Theorem counter_clockwise_dial_lights_all_or_none
  (active : ActiveTicks) (config : Config) (currentAngle : num) :
  isFinite (startAngle config) = true ->
  isFinite (endAngle config) = true ->
  isFinite (toRadians (endAngle config - ofZ 90)
            - toRadians (startAngle config - ofZ 90)) = true ->
  (endAngle config <? startAngle config) = true ->
  (2 <= majorTicks config)%nat ->
  ((currentAngle <? toRadians (startAngle config - ofZ 90)) = true ->
   fst (drawActiveTicks (Some active) currentAngle config) = [])
  /\ ((toRadians (startAngle config - ofZ 90) <=? currentAngle) = true ->
      List.length (fst (drawActiveTicks (Some active) currentAngle config))
      = majorTicks config).
Proof.
  intros Hs He _ Hes HM.
  apply isFinite_Fin in Hs, He.
  destruct Hs as (s & Hs), He as (e & He).
  rewrite Hs, He in Hes. cbn [ltb] in Hes. apply qc_ltb_iff in Hes.
  unfold drawActiveTicks. cbn [fst].
  rewrite (toRadians_minus_90 Hs).
  assert (Hd : (0 < Q2Qc (inject_Z (Z.of_nat (majorTicks config)))
                    + - Q2Qc (inject_Z 1))%Qc).
  { assert (H2 : (2 <= inject_Z (Z.of_nat (majorTicks config)))%Q).
    { change 2%Q with (inject_Z 2). rewrite <- Zle_Qle. lia. }
    revert H2. generalize (inject_Z (Z.of_nat (majorTicks config))).
    intros m H2. qc_lra. }
  split.
  - intros Hc.
    destruct (majorTicks config) as [|M] eqn:EM; [lia|].
    cbn [List.seq List.map until_beyond tick_angle].
    rewrite <- EM. rewrite (@major_angle_Fin config s e 0 Hs He) by lia.
    replace (_ >? currentAngle) with true; [reflexivity|].
    symmetry. destruct currentAngle as [c| | |]; cbn [ltb gtb] in *;
      try discriminate; try reflexivity.
    apply qc_ltb_iff in Hc. apply qc_ltb_iff.
    change (Q2Qc (inject_Z (Z.of_nat 0))) with 0%Qc.
    revert Hc.
    generalize ((s + - Q2Qc (inject_Z 90))
                * Q2Qc (884279719003555 # 281474976710656)
                / Q2Qc (inject_Z 180))%Qc.
    intros s' Hc. unfold Qcdiv.
    replace (s' + 0 * / _ * _)%Qc with s' by ring. exact Hc.
  - intros Hc. rewrite until_beyond_none.
    + rewrite List.length_map, List.length_seq. reflexivity.
    + apply Forall_forall. intros tk Hin. apply List.in_map_iff in Hin.
      destruct Hin as (i & <- & _). cbn [tick_angle].
      rewrite (@major_angle_Fin config s e i Hs He) by lia.
      destruct currentAngle as [c| | |]; cbn [leb gtb ltb] in *;
        try discriminate; try reflexivity.
      apply qc_leb_iff in Hc. apply qc_ltb_false_iff.
      assert (HT : ((e + - Q2Qc (inject_Z 90))
                    * Q2Qc (884279719003555 # 281474976710656)
                    / Q2Qc (inject_Z 180)
                    + - ((s + - Q2Qc (inject_Z 90))
                         * Q2Qc (884279719003555 # 281474976710656)
                         / Q2Qc (inject_Z 180)) <= 0)%Qc) by qc_lra.
      assert (Hi : (0 <= Q2Qc (inject_Z (Z.of_nat i)))%Qc).
      { assert (H0 : (0 <= inject_Z (Z.of_nat i))%Q).
        { change 0%Q with (inject_Z 0). rewrite <- Zle_Qle. lia. }
        revert H0. generalize (inject_Z (Z.of_nat i)). intros k H0. qc_lra. }
      revert Hc HT Hd Hi.
      generalize ((s + - Q2Qc (inject_Z 90))
                  * Q2Qc (884279719003555 # 281474976710656)
                  / Q2Qc (inject_Z 180))%Qc
                 ((e + - Q2Qc (inject_Z 90))
                  * Q2Qc (884279719003555 # 281474976710656)
                  / Q2Qc (inject_Z 180))%Qc
                 (Q2Qc (inject_Z (Z.of_nat i)))
                 (Q2Qc (inject_Z (Z.of_nat (majorTicks config)))
                  + - Q2Qc (inject_Z 1))%Qc.
      intros s' e' k d Hc HT Hd Hi.
      assert (Hq : (0 <= k / d)%Qc).
      { pose proof (@Qcdiv_mono 0 k d Hd Hi) as H.
        unfold Qcdiv in H at 1. replace (0 * / d)%Qc with 0%Qc in H by ring.
        exact H. }
      revert Hq. generalize (k / d)%Qc. intros q Hq. qc_nra.
Qed.

Lemma counter_clockwise_dial_lights_all_or_none_default :
  fst (drawActiveTicks (Some (mkActiveTicks None))
         (Gauge._valueToAngle (Some counter_clockwise) (ofZ 50))
         counter_clockwise) = []
  /\ List.length
       (fst (drawActiveTicks (Some (mkActiveTicks None))
               (Gauge._valueToAngle (Some counter_clockwise) (ofZ 0))
               counter_clockwise)) = 5%nat.
Proof.
  split.
  - destruct (@counter_clockwise_dial_lights_all_or_none (mkActiveTicks None)
                counter_clockwise
                (Gauge._valueToAngle (Some counter_clockwise) (ofZ 50)))
      as (H & _); [reflexivity|reflexivity|reflexivity|reflexivity|cbn; lia|].
    apply H. vm_compute. reflexivity.
  - destruct (@counter_clockwise_dial_lights_all_or_none (mkActiveTicks None)
                counter_clockwise
                (Gauge._valueToAngle (Some counter_clockwise) (ofZ 0)))
      as (_ & H); [reflexivity|reflexivity|reflexivity|reflexivity|cbn; lia|].
    apply H. vm_compute. reflexivity.
Defined.

End ActiveTickFacts.

(* ===================================================================== *)
(** * Gradient arcs and the progress arc                                *)
(* ===================================================================== *)

Section ArcFacts.
Import Presets GaugeRenderer Scale ActiveTickLayer Arcs Mapping.

Lemma Q2Qc_inject_Z_this (z : Z) : (this (Q2Qc (inject_Z z)) == inject_Z z)%Q.
Proof. unfold Q2Qc. cbn [this]. apply Qred_correct. Qed.

Lemma Qceiling_ofZ (z : Z) : Qceiling (this (Q2Qc (inject_Z z))) = z.
Proof. rewrite Q2Qc_inject_Z_this. apply Qceiling_Z. Qed.

Lemma Math_max_ofZ (a b : Z) : Math_max (ofZ a) (ofZ b) = ofZ (Z.max a b).
Proof.
  unfold ofZ. cbn [Math_max ltb].
  destruct (qc_ltb (Q2Qc (inject_Z a)) (Q2Qc (inject_Z b))) eqn:H.
  - apply qc_ltb_iff in H. unfold Qclt in H.
    rewrite !Q2Qc_inject_Z_this in H. rewrite <- Zlt_Qlt in H.
    rewrite Z.max_r by lia. reflexivity.
  - apply qc_ltb_false_iff in H. unfold Qcle in H.
    rewrite !Q2Qc_inject_Z_this in H. rewrite <- Zle_Qle in H.
    rewrite Z.max_l by lia. reflexivity.
Qed.

Lemma segmentAngle_Fin : ofZ 2 * Math_PI / ofZ 180 = Fin sigmaq.
Proof. reflexivity. Qed.

Lemma sigmaq_pos : (0 < sigmaq)%Qc.
Proof. unfold sigmaq. qc_lra. Qed.

Lemma gradientSegment_Fin (a S : Qc) (N : Z) (st fs : num)
  (gradient : list Stop) (i : nat) :
  (1 <= N)%Z ->
  let sg := gradientSegment (Fin a) (Fin S) (ofZ N) st fs gradient i in
  seg_start sg
  = Fin (a + Q2Qc (inject_Z (Z.of_nat i)) / Q2Qc (inject_Z N) * S)%Qc
  /\ seg_end sg
     = Fin (a + (Q2Qc (inject_Z (Z.of_nat i)) + Q2Qc (inject_Z 1))
                / Q2Qc (inject_Z N) * S)%Qc
  /\ seg_drawn_to sg = seg_end sg + ofQ (5 # 1000).
Proof.
  intros HN. cbv zeta. unfold gradientSegment.
  cbn [seg_start seg_end seg_drawn_to].
  rewrite div_ofZ by lia.
  assert (Hd : qc_eqb (Q2Qc (inject_Z N)) 0 = false).
  { apply qc_eqb_false_iff. intros E. apply qc_eq_Qeq in E.
    rewrite Q2Qc_inject_Z_this in E. revert E. apply inject_Z_nonzero. lia. }
  unfold ofZ. cbn [add div]. rewrite Hd. cbn [mul add].
  repeat split.
Qed.

Lemma _drawGradientArc_Fin (a b : Qc) (st en : num) (gradient : list Stop) :
  (Math_abs (Fin b - Fin a) <? ofQ (1 # 1000)) = false ->
  exists N : Z,
    (1 <= N)%Z
    /\ (- (inject_Z N * this sigmaq) <= this (b + - a)%Qc)%Q
    /\ (this (b + - a)%Qc <= inject_Z N * this sigmaq)%Q
    /\ _drawGradientArc (Fin a) (Fin b) st en gradient
       = Some (List.map
                 (gradientSegment (Fin a) (Fin (b + - a)%Qc) (ofZ N) st
                    (en - st) gradient)
                 (List.seq 0 (Z.to_nat N))).
Proof.
  intros Hbig. unfold _drawGradientArc. rewrite Hbig.
  rewrite segmentAngle_Fin. cbn [sub neg add] in *.
  set (S := (b + - a)%Qc) in *.
  assert (Habs : exists A : Qc,
             Math_abs (Fin S) = Fin A /\ (0 <= A)%Qc
             /\ (- A <= S)%Qc /\ (S <= A)%Qc).
  { cbn [Math_abs]. destruct (qc_ltb S 0) eqn:Hs; eexists;
      (split; [reflexivity|]); repeat split; qc_lra. }
  destruct Habs as (A & -> & HA0 & HA1 & HA2).
  assert (Hsig : qc_eqb sigmaq 0 = false).
  { reflexivity. }
  cbn [div]. rewrite Hsig. cbn [Math_ceil].
  change (ofZ 1) with (ofZ 1%Z). rewrite Math_max_ofZ.
  set (N := Z.max 1 (Qceiling (this (A / sigmaq)%Qc))).
  unfold ofZ at 1. rewrite Qceiling_ofZ.
  exists N. split; [lia|].
  assert (Hrho : (this (A / sigmaq)%Qc <= inject_Z N)%Q).
  { eapply Qle_trans; [apply Qle_ceiling|]. rewrite <- Zle_Qle. lia. }
  assert (HAN : (this A <= inject_Z N * this sigmaq)%Q).
  { pose proof sigmaq_pos as Hp. unfold Qclt in Hp.
    change (this 0%Qc) with 0%Q in Hp.
    assert (E : (this sigmaq * / this sigmaq == 1)%Q)
      by (apply Qmult_inv_r; lra).
    unfold Qcdiv, Qcmult, Qcinv, Q2Qc in Hrho. cbn [this] in Hrho.
    rewrite !Qred_correct in Hrho.
    revert Hrho E Hp. generalize (this sigmaq) (inject_Z N) (this A).
    intros sg n x. generalize (/ sg)%Q. intros w Hrho E Hp.
    assert (H1 : (x * w * sg <= n * sg)%Q)
      by (apply Qmult_le_compat_r; lra).
    assert (H2 : (x * w * sg == x)%Q).
    { rewrite <- Qmult_assoc, (Qmult_comm w sg), E. ring. }
    lra. }
  unfold Qcle, Qcopp, Q2Qc in HA1, HA2. cbn [this] in HA1, HA2.
  rewrite Qred_correct in HA1.
  split; [lra|]. split; [lra|]. reflexivity.
Qed.

Lemma width_Q (a S k n sg w : Q) :
  (n * w == 1)%Q -> (0 < n)%Q -> (0 < w)%Q ->
  (- (n * sg) <= S)%Q -> (S <= n * sg)%Q ->
  (- sg <= a + (k + 1) * w * S + - (a + k * w * S))%Q
  /\ (a + (k + 1) * w * S + - (a + k * w * S) <= sg)%Q.
Proof.
  intros E Hn Hw L U.
  assert (E1 : (a + (k + 1) * w * S + - (a + k * w * S) == S * w)%Q) by ring.
  rewrite E1.
  assert (H1 : (S * w <= n * sg * w)%Q) by (apply Qmult_le_compat_r; lra).
  assert (H2 : (- (n * sg) * w <= S * w)%Q) by (apply Qmult_le_compat_r; lra).
  assert (E2 : (n * sg * w == sg)%Q).
  { rewrite (Qmult_comm n sg), <- Qmult_assoc, E. ring. }
  assert (E3 : (- (n * sg) * w == - sg)%Q).
  { setoid_replace (- (n * sg) * w)%Q with (- (n * sg * w))%Q by ring.
    rewrite E2. reflexivity. }
  rewrite E2 in H1. rewrite E3 in H2. split; assumption.
Qed.

Lemma succ_ofZ (k : nat) :
  (Q2Qc (inject_Z (Z.of_nat k)) + Q2Qc (inject_Z 1))%Qc
  = Q2Qc (inject_Z (Z.of_nat (S k))).
Proof.
  apply Qc_is_canon. unfold Qcplus, Q2Qc. cbn [this].
  rewrite !Qred_correct, <- inject_Z_plus.
  replace (Z.of_nat k + 1)%Z with (Z.of_nat (S k)) by lia. reflexivity.
Qed.

(** In exact arithmetic the segments tile the sweep from [fromAngle]
    to [toAngle], none of them spanning more than 2 degrees. *)
Lemma gradient_arc_shape
  (fromAngle toAngle startAngle endAngle : num) (gradient : list Stop) :
  isFinite fromAngle = true ->
  isFinite toAngle = true ->
  (Math_abs (toAngle - fromAngle) <? ofQ (1 # 1000)) = false ->
  exists segs : list ArcSegment,
    _drawGradientArc fromAngle toAngle startAngle endAngle gradient
    = Some segs
    /\ (1 <= List.length segs)%nat
    /\ option_map seg_start (List.nth_error segs 0) = Some fromAngle
    /\ option_map seg_end (List.nth_error segs (List.length segs - 1))
       = Some toAngle
    /\ (forall k sg sg',
          List.nth_error segs k = Some sg ->
          List.nth_error segs (S k) = Some sg' ->
          seg_start sg' = seg_end sg)
    /\ Forall (fun sg =>
                (Math_abs (seg_end sg - seg_start sg)
                 <=? ofZ 2 * Math_PI / ofZ 180) = true
                /\ seg_drawn_to sg = seg_end sg + ofQ (5 # 1000)) segs.
Proof.
  intros Hf Ht Hbig.
  apply isFinite_Fin in Hf, Ht. destruct Hf as (a & ->), Ht as (b & ->).
  destruct (@_drawGradientArc_Fin a b startAngle endAngle gradient Hbig)
    as (N & HN & L & U & Hd).
  set (sw := (b + - a)%Qc) in *.
  set (f := gradientSegment (Fin a) (Fin sw) (ofZ N) startAngle
              (endAngle - startAngle) gradient) in *.
  assert (Hshape : forall i,
             seg_start (f i)
             = Fin (a + Q2Qc (inject_Z (Z.of_nat i)) / Q2Qc (inject_Z N) * sw)%Qc
             /\ seg_end (f i)
                = Fin (a + Q2Qc (inject_Z (Z.of_nat (S i)))
                           / Q2Qc (inject_Z N) * sw)%Qc
             /\ seg_drawn_to (f i) = seg_end (f i) + ofQ (5 # 1000)).
  { intros i. destruct (@gradientSegment_Fin a sw N startAngle
                          (endAngle - startAngle) gradient i HN)
      as (E1 & E2 & E3).
    fold f in E1, E2, E3. rewrite succ_ofZ in E2. repeat split; assumption. }
  assert (HQN : Q2Qc (inject_Z N) <> 0%Qc).
  { intros E. apply qc_eq_Qeq in E. rewrite Q2Qc_inject_Z_this in E.
    revert E. apply inject_Z_nonzero. lia. }
  exists (List.map f (List.seq 0 (Z.to_nat N))). split; [exact Hd|].
  rewrite List.length_map, List.length_seq.
  split; [lia|]. split; [|split; [|split]].
  - rewrite nth_error_map_seq by lia. cbn [option_map].
    destruct (Hshape 0%nat) as (E1 & _). rewrite E1. do 2 f_equal.
    change (Q2Qc (inject_Z (Z.of_nat 0))) with 0%Qc. field. exact HQN.
  - rewrite nth_error_map_seq by lia. cbn [option_map].
    destruct (Hshape (Z.to_nat N - 1)%nat) as (_ & E2 & _). rewrite E2.
    do 2 f_equal.
    replace (Z.of_nat (S (Z.to_nat N - 1))) with N by lia.
    unfold sw. field. exact HQN.
  - intros k sg sg' H1 H2.
    assert (Hk : (S k < Z.to_nat N)%nat).
    { assert (H : List.nth_error (List.map f (List.seq 0 (Z.to_nat N))) (S k)
                  <> None) by congruence.
      apply List.nth_error_Some in H.
      rewrite List.length_map, List.length_seq in H. exact H. }
    rewrite nth_error_map_seq in H1, H2 by lia.
    injection H1 as <-. injection H2 as <-.
    destruct (Hshape k) as (_ & E2 & _).
    destruct (Hshape (S k)) as (E1 & _). congruence.
  - apply Forall_forall. intros sg Hin. apply List.in_map_iff in Hin.
    destruct Hin as (i & <- & _).
    destruct (Hshape i) as (E1 & E2 & E3). split; [|exact E3].
    rewrite E1, E2, segmentAngle_Fin. rewrite <- succ_ofZ.
    cbn [sub neg add].
    assert (Hw : (0 < / inject_Z N)%Q).
    { apply Qinv_lt_0_compat. change 0%Q with (inject_Z 0).
      rewrite <- Zlt_Qlt. lia. }
    assert (Hn : (0 < inject_Z N)%Q).
    { change 0%Q with (inject_Z 0). rewrite <- Zlt_Qlt. lia. }
    assert (E : (inject_Z N * / inject_Z N == 1)%Q)
      by (apply Qmult_inv_r; lra).
    destruct (@width_Q (this a) (this sw) (inject_Z (Z.of_nat i)) (inject_Z N)
                (this sigmaq) (/ inject_Z N) E Hn Hw L U) as (W1 & W2).
    cbn [Math_abs].
    match goal with
    | |- context [qc_ltb ?x 0] => destruct (qc_ltb x 0) eqn:Hs
    end; cbn [leb]; apply qc_leb_iff;
      unfold Qcdiv; unfold Qcle, Qcplus, Qcmult, Qcinv, Qcopp, Q2Qc;
      cbn [this]; rewrite !Qred_correct; change (inject_Z 1) with 1%Q; lra.
Qed.

Lemma gradient_arc_ends (a b : Qc) (st en : num) (gradient : list Stop) :
  (Math_abs (Fin b - Fin a) <? ofQ (1 # 1000)) = false ->
  exists segs : list ArcSegment,
    _drawGradientArc (Fin a) (Fin b) st en gradient = Some segs
    /\ (1 <= List.length segs)%nat
    /\ option_map seg_start (List.nth_error segs 0) = Some (Fin a)
    /\ option_map seg_end (List.nth_error segs (List.length segs - 1))
       = Some (Fin b).
Proof.
  intros Hbig.
  destruct (@_drawGradientArc_Fin a b st en gradient Hbig)
    as (N & HN & _ & _ & Hd).
  set (sw := (b + - a)%Qc) in *.
  set (f := gradientSegment (Fin a) (Fin sw) (ofZ N) st (en - st) gradient)
    in *.
  assert (HQN : Q2Qc (inject_Z N) <> 0%Qc).
  { intros E. apply qc_eq_Qeq in E. rewrite Q2Qc_inject_Z_this in E.
    revert E. apply inject_Z_nonzero. lia. }
  exists (List.map f (List.seq 0 (Z.to_nat N))). split; [exact Hd|].
  rewrite List.length_map, List.length_seq.
  split; [lia|]. split.
  - rewrite nth_error_map_seq by lia. cbn [option_map].
    destruct (@gradientSegment_Fin a sw N st (en - st) gradient 0%nat HN)
      as (E1 & _). fold f in E1. rewrite E1. do 2 f_equal.
    change (Q2Qc (inject_Z (Z.of_nat 0))) with 0%Qc. field. exact HQN.
  - rewrite nth_error_map_seq by lia. cbn [option_map].
    destruct (@gradientSegment_Fin a sw N st (en - st) gradient
                (Z.to_nat N - 1)%nat HN) as (_ & E2 & _).
    fold f in E2. rewrite E2, succ_ofZ. do 2 f_equal.
    replace (Z.of_nat (S (Z.to_nat N - 1))) with N by lia.
    unfold sw. field. exact HQN.
Qed.

Lemma add_sub_cancel (a b : Qc) : Fin a + (Fin b - Fin a) = Fin b.
Proof. cbn [sub neg add]. f_equal. ring. Qed.

(** A gradient arc over a sweep of at least 0.001 rad (and at most
    1000 rad, so that a double counts its segments) returns after
    stroking one or more segments that leave no gap: the first starts at
    [fromAngle], each starts where the one before ends, the last ends
    at [fromAngle + (toAngle - fromAngle)], and each is drawn 0.005 rad
    past its end. *)
Theorem gradient_arc_leaves_no_gap
  (fromAngle toAngle startAngle endAngle : num) (gradient : list Stop) :
  isFinite fromAngle = true ->
  isFinite toAngle = true ->
  (Math_abs (toAngle - fromAngle) <? ofQ (1 # 1000)) = false ->
  (Math_abs (toAngle - fromAngle) <=? ofZ 1000) = true ->
  exists segs : list ArcSegment,
    _drawGradientArc fromAngle toAngle startAngle endAngle gradient
    = Some segs
    /\ (1 <= List.length segs)%nat
    /\ option_map seg_start (List.nth_error segs 0) = Some fromAngle
    /\ option_map seg_end (List.nth_error segs (List.length segs - 1))
       = Some (fromAngle + (toAngle - fromAngle))
    /\ (forall k sg sg',
          List.nth_error segs k = Some sg ->
          List.nth_error segs (S k) = Some sg' ->
          seg_start sg' = seg_end sg)
    /\ Forall (fun sg => seg_drawn_to sg = seg_end sg + ofQ (5 # 1000)) segs.
Proof.
  intros Hf Ht Hbig _.
  destruct (@gradient_arc_shape fromAngle toAngle startAngle endAngle
              gradient Hf Ht Hbig)
    as (segs & Hd & Hlen & Hfirst & Hlast & Hjoin & Hall).
  exists segs. split; [exact Hd|]. split; [exact Hlen|].
  split; [exact Hfirst|]. split.
  - apply isFinite_Fin in Hf, Ht. destruct Hf as (a & ->), Ht as (b & ->).
    rewrite add_sub_cancel. exact Hlast.
  - split; [exact Hjoin|].
    eapply Forall_impl; [|exact Hall]. intros sg (_ & H). exact H.
Qed.

(** From 0 to 1 rad on a dial from 0 to 2 rad. *)
Lemma gradient_arc_leaves_no_gap_unit :
  exists segs : list ArcSegment,
    _drawGradientArc (ofZ 0) (ofZ 1) (ofZ 0) (ofZ 2) progressGradient
    = Some segs
    /\ (1 <= List.length segs)%nat
    /\ option_map seg_start (List.nth_error segs 0) = Some (ofZ 0)
    /\ option_map seg_end (List.nth_error segs (List.length segs - 1))
       = Some (ofZ 0 + (ofZ 1 - ofZ 0))
    /\ (forall k sg sg',
          List.nth_error segs k = Some sg ->
          List.nth_error segs (S k) = Some sg' ->
          seg_start sg' = seg_end sg)
    /\ Forall (fun sg => seg_drawn_to sg = seg_end sg + ofQ (5 # 1000)) segs.
Proof.
  apply (@gradient_arc_leaves_no_gap (ofZ 0) (ofZ 1) (ofZ 0) (ofZ 2)
           progressGradient); reflexivity.
Defined.

(** The fill of the progress arc runs from the start of the dial
    towards the needle and never past the end of the dial: with the
    needle at or before the start angle nothing is filled; otherwise,
    when the sweep from the start angle to
    [fillEnd = min(currentAngle, endAngle)] is at least 0.001 rad (and
    at most 1000 rad), the segments begin at the start angle and end at
    [startAngle + (fillEnd - startAngle)]. *)
Theorem progress_arc_runs_to_the_needle
  (arc : ProgressArc) (radius currentAngle : num) (config : Config) :
  isFinite (startAngle config) = true ->
  isFinite (endAngle config) = true ->
  isFinite currentAngle = true ->
  let startRad := toRadians (startAngle config - ofZ 90) in
  let endRad := toRadians (endAngle config - ofZ 90) in
  let fillEnd := Math_min currentAngle endRad in
  ((currentAngle <=? startRad) = true ->
   exists drawn : ProgressDrawn,
     drawProgressArc (Some arc) radius currentAngle config
     = Some (Some drawn)
     /\ pd_fill drawn = [] /\ pd_glow drawn = None)
  /\ ((currentAngle <=? startRad) = false ->
      (Math_abs (fillEnd - startRad) <? ofQ (1 # 1000)) = false ->
      (Math_abs (fillEnd - startRad) <=? ofZ 1000) = true ->
      exists drawn : ProgressDrawn,
        drawProgressArc (Some arc) radius currentAngle config
        = Some (Some drawn)
        /\ (1 <= List.length (pd_fill drawn))%nat
        /\ option_map seg_start (List.nth_error (pd_fill drawn) 0)
           = Some startRad
        /\ option_map seg_end
             (List.nth_error (pd_fill drawn)
                (List.length (pd_fill drawn) - 1))
           = Some (startRad + (fillEnd - startRad))
        /\ (fillEnd <=? endRad) = true).
Proof.
  intros Hs He Hc. cbv zeta.
  apply isFinite_Fin in Hs, He, Hc.
  destruct Hs as (s & Hs), He as (e & He), Hc as (c & ->).
  unfold drawProgressArc.
  change ((startAngle config - ofZ 90) * Math_PI / ofZ 180)
    with (toRadians (startAngle config - ofZ 90)).
  change ((endAngle config - ofZ 90) * Math_PI / ofZ 180)
    with (toRadians (endAngle config - ofZ 90)).
  rewrite (toRadians_minus_90 Hs), (toRadians_minus_90 He).
  generalize ((s + - Q2Qc (inject_Z 90))
              * Q2Qc (884279719003555 # 281474976710656)
              / Q2Qc (inject_Z 180))%Qc
             ((e + - Q2Qc (inject_Z 90))
              * Q2Qc (884279719003555 # 281474976710656)
              / Q2Qc (inject_Z 180))%Qc.
  intros s' e'.
  split.
  - intros Hcs. rewrite Hcs. eexists. split; [reflexivity|].
    split; reflexivity.
  - intros Hcs Hbig _. rewrite Hcs.
    assert (Hmin : exists m : Qc,
               Math_min (Fin c) (Fin e') = Fin m /\ (m <= e')%Qc).
    { cbn [Math_min ltb]. destruct (qc_ltb e' c) eqn:Hec; eexists;
        (split; [reflexivity|]); qc_lra. }
    destruct Hmin as (m & Hm & Hme). rewrite Hm in *.
    destruct (@gradient_arc_ends s' m (Fin s') (Fin e')
                match pa_gradient arc with
                | Some g => g
                | None => progressGradient
                end Hbig)
      as (segs & Hd & Hlen & Hfirst & Hlast).
    rewrite Hd. eexists. split; [reflexivity|]. cbn [pd_fill].
    split; [exact Hlen|]. split; [exact Hfirst|].
    split; [rewrite add_sub_cancel; exact Hlast|].
    cbn [leb]. apply qc_leb_iff. exact Hme.
Qed.

(** The modern preset with a progress arc and the needle at 0 rad. *)
Lemma progress_arc_runs_to_the_needle_modern :
  exists drawn : ProgressDrawn,
    drawProgressArc (Some bareProgressArc) (ofZ 135) (ofZ 0) modern
    = Some (Some drawn)
    /\ (1 <= List.length (pd_fill drawn))%nat
    /\ option_map seg_start (List.nth_error (pd_fill drawn) 0)
       = Some (toRadians (startAngle modern - ofZ 90)).
Proof.
  destruct (@progress_arc_runs_to_the_needle bareProgressArc (ofZ 135)
              (ofZ 0) modern) as (_ & H); [reflexivity..|].
  destruct H as (d & Hd & H1 & H2 & _); [reflexivity..|].
  exists d. split; [exact Hd|]. split; [exact H1|exact H2].
Defined.

End ArcFacts.

(* ===================================================================== *)
(** * Ring indicators                                                   *)
(* ===================================================================== *)

Section RingFacts.
Import Presets GaugeRenderer Scale ActiveTickLayer Arcs Rings Mapping.

Lemma ringNormalized_Fin (ring : Ring) (value : num) (config : Config)
  (mn mx : Qc) :
  or_else (ring_min ring) (ofZ 0) = Fin mn ->
  match ring_max ring with Some m => m | None => max config end = Fin mx ->
  ringNormalized ring value config
  = if qc_ltb 0 (mx + - mn)
    then clamp01 ((value - Fin mn) / Fin (mx + - mn)%Qc)
    else ofZ 0.
Proof. intros Hmn Hmx. unfold ringNormalized. rewrite Hmn, Hmx. reflexivity. Qed.

Lemma ring_fill_fraction_aux
  (ring : Ring) (ringValues : list (option num)) (i : nat) (config : Config) :
  let mn := or_else (ring_min ring) (ofZ 0) in
  let mx := match ring_max ring with Some m => m | None => max config end in
  let value := ringValue ringValues i ring in
  isFinite mn = true ->
  isFinite mx = true ->
  isFinite value = true -> (mn <? mx) = true -> (mx <=? value) = true ->
  ringNormalized ring value config = ofZ 1.
Proof.
  cbv zeta. intros Hmn Hmx.
  apply isFinite_Fin in Hmn, Hmx.
  destruct Hmn as (mn & Hmn), Hmx as (mx & Hmx).
  rewrite (@ringNormalized_Fin ring _ config mn mx Hmn Hmx).
  rewrite Hmn, Hmx.
  intros Hv Hlt Hge. apply isFinite_Fin in Hv. destruct Hv as (v & Hv).
  rewrite Hv in *. cbn [leb ltb] in Hge, Hlt.
  apply qc_ltb_iff in Hlt. apply qc_leb_iff in Hge.
  replace (qc_ltb 0 (mx + - mn)) with true
    by (symmetry; apply qc_ltb_iff; qc_lra).
  cbn [sub neg add div].
  replace (qc_eqb (mx + - mn) 0) with false
    by (symmetry; apply qc_eqb_false_iff; intros E; qc_lra).
  apply clamp01_high. unfold ofZ. cbn [geb leb]. apply qc_leb_iff.
  apply Qcdiv_ge_1; qc_lra.
Qed.

Lemma clamp01_never_outside (x : num) :
  (clamp01 x <? ofZ 0) = false /\ (clamp01 x >? ofZ 1) = false.
Proof.
  destruct x as [q| | |]; try (split; reflexivity).
  destruct (clamp01_Fin q) as (c & -> & H0 & H1 & _).
  unfold ofZ. cbn [ltb gtb]. split; apply qc_ltb_false_iff; qc_lra.
Qed.

(** The filled fraction of a ring is never below 0 and never above 1,
    whatever the ring and its value are (it is NaN when the quotient
    is); it is 0 when [max <= min], and for a missing or null value of a
    ring with a finite [min]; it is 1 for a finite value at or above
    [max] when [min] is finite and the range [max - min] is finite and
    positive; and with a fraction of 0 the call returns with nothing
    filled. *)
Theorem ring_fill_fraction
  (ring : Ring) (radius : num) (ringValues : list (option num)) (i : nat)
  (config : Config) :
  let mn := or_else (ring_min ring) (ofZ 0) in
  let mx := match ring_max ring with Some m => m | None => max config end in
  let value := ringValue ringValues i ring in
  let normalized := ringNormalized ring value config in
  ((normalized <? ofZ 0) = false /\ (normalized >? ofZ 1) = false)
  /\ ((mx <=? mn) = true -> normalized = ofZ 0)
  /\ (isFinite mn = true ->
      List.nth_error ringValues i = None
      \/ List.nth_error ringValues i = Some None ->
      normalized = ofZ 0)
  /\ (isFinite mn = true -> isFinite (mx - mn) = true ->
      (mx - mn >? ofZ 0) = true ->
      isFinite value = true -> (mx <=? value) = true ->
      normalized = ofZ 1)
  /\ (normalized = ofZ 0 ->
      exists drawn : RingDrawn,
        drawRing radius ringValues config i ring = Some drawn
        /\ rd_fill drawn = []).
Proof.
  cbv zeta.
  split; [|split; [|split; [|split]]].
  - unfold ringNormalized.
    destruct (_ >? ofZ 0); [apply clamp01_never_outside|split; reflexivity].
  - intros Hle. unfold ringNormalized.
    set (mn := or_else (ring_min ring) (ofZ 0)) in *.
    set (mx := match ring_max ring with Some m => m | None => max config end)
      in *.
    replace (mx - mn >? ofZ 0) with false; [reflexivity|].
    symmetry. clearbody mn mx. unfold ofZ.
    destruct mx as [mx| | |], mn as [mn| | |];
      cbn [leb sub neg add gtb ltb] in *; try discriminate; try reflexivity.
    apply qc_leb_iff in Hle. apply qc_ltb_false_iff. qc_lra.
  - intros Hmn Hmiss. apply isFinite_Fin in Hmn. destruct Hmn as (mn & Hmn).
    assert (Hval : ringValue ringValues i ring = Fin mn).
    { unfold ringValue. destruct Hmiss as [-> | ->]; exact Hmn. }
    rewrite Hval. unfold ringNormalized. rewrite Hmn.
    set (mx := match ring_max ring with Some m => m | None => max config end)
      in *.
    destruct (mx - Fin mn >? ofZ 0) eqn:Hr; [|reflexivity].
    apply clamp01_low. clearbody mx.
    destruct mx as [mx| | |]; unfold ofZ in *;
      cbn [sub neg add gtb ltb div leb] in *; try discriminate;
      try (apply qc_leb_iff; qc_lra).
    apply qc_ltb_iff in Hr.
    replace (qc_eqb (mx + - mn) 0) with false
      by (symmetry; apply qc_eqb_false_iff; intros E;
          change (Q2Qc (inject_Z 0)) with 0%Qc in Hr; qc_lra).
    cbn [leb]. apply qc_leb_iff.
    replace (mn + - mn)%Qc with 0%Qc by ring. unfold Qcdiv.
    replace (0 * / (mx + - mn))%Qc with 0%Qc by ring. apply Qcle_refl.
  - intros Hmn Hrange Hpos Hv Hge.
    apply isFinite_sub in Hrange. destruct Hrange as (Hmx & _).
    apply ring_fill_fraction_aux; try assumption.
    apply isFinite_Fin in Hmn, Hmx.
    destruct Hmn as (mn & Hmn), Hmx as (mx & Hmx).
    rewrite Hmn, Hmx in *. unfold ofZ in Hpos.
    cbn [sub neg add gtb ltb] in *.
    apply qc_ltb_iff in Hpos. apply qc_ltb_iff.
    change (Q2Qc (inject_Z 0)) with 0%Qc in Hpos. qc_lra.
  - intros Hz. unfold drawRing. rewrite Hz.
    eexists. split; reflexivity.
Qed.

End RingFacts.

(* ===================================================================== *)
(** * Needle and face colors                                            *)
(* ===================================================================== *)

Section ColorFacts.
Import Presets GaugeRenderer Paint Configs.

Lemma hex_digit_range (c : ascii) (d : Z) :
  hex_digit c = Some d -> (0 <= d <= 15)%Z.
Proof.
  unfold hex_digit. intros H.
  destruct ((48 <=? Z.of_nat (nat_of_ascii c))%Z
            && (Z.of_nat (nat_of_ascii c) <=? 57)%Z) eqn:H1.
  { injection H as <-. apply andb_true_iff in H1. lia. }
  destruct ((65 <=? Z.of_nat (nat_of_ascii c))%Z
            && (Z.of_nat (nat_of_ascii c) <=? 70)%Z) eqn:H2.
  { injection H as <-. apply andb_true_iff in H2. lia. }
  destruct ((97 <=? Z.of_nat (nat_of_ascii c))%Z
            && (Z.of_nat (nat_of_ascii c) <=? 102)%Z) eqn:H3.
  { injection H as <-. apply andb_true_iff in H3. lia. }
  discriminate.
Qed.

Lemma strip_0x_hex (c1 c2 : ascii) (r : string) :
  is_hex_digit c2 = true ->
  strip_0x (String c1 (String c2 r)) = String c1 (String c2 r).
Proof.
  intros H2.
  destruct c1 as [[] [] [] [] [] [] [] []]; try reflexivity.
  destruct c2 as [[] [] [] [] [] [] [] []]; try reflexivity;
    discriminate H2.
Qed.

Lemma sign_hex (c : ascii) (r : string) :
  is_hex_digit c = true ->
  match String c r with
  | String "-" r' => (true, r')
  | String "+" r' => (false, r')
  | _ => (false, String c r)
  end = (false, String c r).
Proof.
  intros H. destruct c as [[] [] [] [] [] [] [] []]; try reflexivity;
    discriminate H.
Qed.

Lemma whitespace_hex (c : ascii) :
  is_hex_digit c = true -> is_whitespace c = false.
Proof.
  intros H. destruct c as [[] [] [] [] [] [] [] []]; try reflexivity;
    discriminate H.
Qed.

Lemma is_hex_digit_Some (c : ascii) :
  is_hex_digit c = true -> exists d, hex_digit c = Some d /\ (0 <= d <= 15)%Z.
Proof.
  unfold is_hex_digit. destruct (hex_digit c) as [d|] eqn:H; [|discriminate].
  intros _. exists d. split; [reflexivity|]. eapply hex_digit_range; eassumption.
Qed.

Lemma parseInt16_pair (c1 c2 : ascii) :
  is_hex_digit c1 = true -> is_hex_digit c2 = true ->
  exists z : Z,
    parseInt16 (String c1 (String c2 EmptyString)) = ofZ z
    /\ (0 <= z <= 255)%Z.
Proof.
  intros H1 H2.
  destruct (is_hex_digit_Some c1 H1) as (d1 & E1 & R1).
  destruct (is_hex_digit_Some c2 H2) as (d2 & E2 & R2).
  exists (16 * (16 * 0 + d1) + d2)%Z. split; [|lia].
  unfold parseInt16. cbn [skip_whitespace].
  rewrite (whitespace_hex c1 H1), (sign_hex c1 _ H1), (strip_0x_hex c1 c2 _ H2).
  cbn [hex_prefix]. rewrite E1. cbn [hex_prefix]. rewrite E2.
  reflexivity.
Qed.

Lemma add_ofZ (a b : Z) : ofZ a + ofZ b = ofZ (a + b).
Proof.
  unfold ofZ. cbn [add]. f_equal. apply Qc_is_canon.
  unfold Qcplus, Q2Qc. cbn [this]. rewrite !Qred_correct.
  rewrite inject_Z_plus. reflexivity.
Qed.

Lemma sub_ofZ (a b : Z) : ofZ a - ofZ b = ofZ (a - b).
Proof.
  unfold ofZ, sub. cbn [neg add]. f_equal. apply Qc_is_canon.
  unfold Qcplus, Qcopp, Q2Qc. cbn [this]. rewrite !Qred_correct.
  unfold Z.sub. rewrite inject_Z_plus, inject_Z_opp. reflexivity.
Qed.

Lemma Math_min_ofZ (a b : Z) : Math_min (ofZ a) (ofZ b) = ofZ (Z.min a b).
Proof.
  unfold ofZ. cbn [Math_min ltb].
  destruct (qc_ltb (Q2Qc (inject_Z b)) (Q2Qc (inject_Z a))) eqn:H.
  - apply qc_ltb_iff in H. unfold Qclt in H.
    rewrite !Q2Qc_inject_Z_this in H. rewrite <- Zlt_Qlt in H.
    rewrite Z.min_r by lia. reflexivity.
  - apply qc_ltb_false_iff in H. unfold Qcle in H.
    rewrite !Q2Qc_inject_Z_this in H. rewrite <- Zle_Qle in H.
    rewrite Z.min_l by lia. reflexivity.
Qed.

Lemma lighter_byte (n : num) (k : Z) :
  (0 <= k)%Z -> byte_channel n -> byte_channel (Math_min (ofZ 255) (n + ofZ k)).
Proof.
  intros Hk (z & -> & Hz). rewrite add_ofZ, Math_min_ofZ.
  eexists. split; [reflexivity|]. lia.
Qed.

Lemma darker_byte (n : num) (k : Z) :
  (0 <= k)%Z -> byte_channel n -> byte_channel (Math_max (ofZ 0) (n - ofZ k)).
Proof.
  intros Hk (z & -> & Hz). rewrite sub_ofZ, Math_max_ofZ.
  eexists. split; [reflexivity|]. lia.
Qed.

Lemma matches_hex6_inv (s : string) :
  matches_hex6 s = true ->
  exists c1 c2 c3 c4 c5 c6,
    s = String "#" (String c1 (String c2 (String c3 (String c4 (String c5
          (String c6 EmptyString))))))
    /\ is_hex_digit c1 = true /\ is_hex_digit c2 = true
    /\ is_hex_digit c3 = true /\ is_hex_digit c4 = true
    /\ is_hex_digit c5 = true /\ is_hex_digit c6 = true.
Proof.
  intros H.
  destruct s as [|c0 [|c1 [|c2 [|c3 [|c4 [|c5 [|c6 [|c7 r]]]]]]]];
    try (cbn in H; discriminate H);
    try (destruct c0 as [[] [] [] [] [] [] [] []]; discriminate H).
  assert (c0 = "#"%char) as ->
    by (destruct c0 as [[] [] [] [] [] [] [] []];
        first [reflexivity | discriminate H]).
  cbn [matches_hex6] in H.
  repeat (apply andb_true_iff in H; destruct H as [H ?]).
  exists c1, c2, c3, c4, c5, c6. repeat split; assumption.
Qed.

Lemma hex_not_hash (c : ascii) :
  is_hex_digit c = true -> Ascii.eqb c "#" = false.
Proof.
  intros H. destruct c as [[] [] [] [] [] [] [] []]; try reflexivity;
    discriminate H.
Qed.

(** The needle body is never filled with a gradient that has a channel
    outside 0..255 or a channel that is not a number: the gradient is
    built for colors of the form [#RRGGBB] only, and every other needle
    color is used as it is. *)
Theorem needle_fill_has_byte_channels (this : t) :
  match needleFill this with
  | gradientFill stops =>
      List.length stops = 5%nat /\ Forall (fun st => byte_color (snd st)) stops
  | colorFill s => s = needle (_resolvedColors this)
  end.
Proof.
  unfold needleFill.
  destruct (matches_hex6 (needle (_resolvedColors this))) eqn:Hm;
    [|reflexivity].
  destruct (matches_hex6_inv _ Hm)
    as (c1 & c2 & c3 & c4 & c5 & c6 & -> & H1 & H2 & H3 & H4 & H5 & H6).
  unfold _needleGradient, slice. cbn [Nat.sub substring].
  pose proof (parseInt16_pair c1 c2 H1 H2) as Hr.
  pose proof (parseInt16_pair c3 c4 H3 H4) as Hg.
  pose proof (parseInt16_pair c5 c6 H5 H6) as Hb.
  split; [reflexivity|].
  repeat constructor; cbn [snd byte_color]; fold (byte_channel);
    try assumption;
    first [ apply lighter_byte; [lia|assumption]
          | apply darker_byte; [lia|assumption] ].
Qed.

(** For a face color of the form [#RRGGBB] every stop of the face
    gradient is the color itself or has three channels that are
    integers from 0 to 255, on a light and on a dark face. *)
Theorem face_gradient_has_byte_channels (this : t) :
  matches_hex6 (face (_resolvedColors this)) = true ->
  List.length (drawFace this) = 4%nat
  /\ Forall (fun st => byte_color (snd st)) (drawFace this).
Proof.
  intros Hm.
  destruct (matches_hex6_inv _ Hm)
    as (c1 & c2 & c3 & c4 & c5 & c6 & E & H1 & H2 & H3 & H4 & H5 & H6).
  pose proof (parseInt16_pair c1 c2 H1 H2) as Hr.
  pose proof (parseInt16_pair c3 c4 H3 H4) as Hg.
  pose proof (parseInt16_pair c5 c6 H5 H6) as Hb.
  unfold drawFace. rewrite E.
  unfold _lightenColor, _darkenColor, _parseHex, slice.
  cbn [remove_first_hash]. rewrite Ascii.eqb_refl.
  cbn [Nat.sub substring].
  destruct (String.eqb (faceStyle (config this)) "dark");
    (split; [reflexivity|]);
    repeat constructor; cbn [snd byte_color];
    first [ apply lighter_byte; [lia|assumption]
          | apply darker_byte; [lia|assumption] ].
Qed.

Lemma face_gradient_has_byte_channels_modern :
  matches_hex6 (face (_resolvedColors (constructor (ofZ 300) modern))) = true
  /\ List.length (drawFace (constructor (ofZ 300) modern)) = 4%nat
  /\ Forall (fun st => byte_color (snd st))
       (drawFace (constructor (ofZ 300) modern)).
Proof.
  split; [reflexivity|].
  apply (@face_gradient_has_byte_channels (constructor (ofZ 300) modern)).
  reflexivity.
Defined.

Lemma substring_beyond (s : string) (n m : nat) :
  (String.length s <= n)%nat -> substring n m s = EmptyString.
Proof.
  revert n m. induction s as [|c r IH]; intros n m H.
  - destruct n, m; reflexivity.
  - destruct n as [|n]; [cbn in H; lia|].
    cbn [substring]. apply IH. cbn in H. lia.
Qed.

(** A face color with at most four characters besides its first [#]
    (the short form [#RGB], say) loses its blue channel: every stop of
    the face gradient that is computed from it has a blue channel that
    is not a number, so that only the stop that takes the color over is
    a color at all. *)
Theorem short_face_color_loses_blue (this : t) :
  (String.length (remove_first_hash (face (_resolvedColors this))) <= 4)%nat ->
  Forall (fun st => blue_lost (face (_resolvedColors this)) (snd st))
    (drawFace this).
Proof.
  intros Hl.
  assert (Hb : parseInt16
                 (slice 4 6 (remove_first_hash (face (_resolvedColors this))))
               = NaN).
  { unfold slice. rewrite substring_beyond by exact Hl. reflexivity. }
  unfold drawFace, _lightenColor, _darkenColor, _parseHex. rewrite Hb.
  assert (Hmax : forall x y, Math_max x (NaN - y) = NaN).
  { intros x y. destruct y; destruct x; reflexivity. }
  assert (Hmin : forall x y, Math_min x (NaN + y) = NaN).
  { intros x y. destruct y; destruct x; reflexivity. }
  destruct (String.eqb (faceStyle (config this)) "dark");
    repeat constructor; cbn [snd blue_lost];
    first [reflexivity | apply Hmax | apply Hmin].
Qed.

Lemma short_face_color_loses_blue_FFF :
  (String.length
     (remove_first_hash (face (_resolvedColors (constructor (ofZ 300) short_face))))
   <= 4)%nat
  /\ Forall
       (fun st =>
          blue_lost (face (_resolvedColors (constructor (ofZ 300) short_face)))
            (snd st))
       (drawFace (constructor (ofZ 300) short_face)).
Proof.
  split; [cbn; lia|].
  apply (@short_face_color_loses_blue (constructor (ofZ 300) short_face)).
  cbn. lia.
Defined.


End ColorFacts.

(* ===================================================================== *)
(** * The numbers on the dial                                           *)
(* ===================================================================== *)

Section NumberFacts.
Import Presets GaugeRenderer Scale Mapping Configs.

Lemma add_nan_right (x : num) : x + NaN = NaN.
Proof. destruct x; reflexivity. Qed.

Lemma mul_nan_left (x : num) : NaN * x = NaN.
Proof. destruct x; reflexivity. Qed.

(** A dial with a single major tick divides 0 by 0: the tick is stroked
    at an angle that is not a number, in the plain tick color, and
    without custom labels its label is the text of [Math.round(NaN)],
    in the plain number color, whatever the range, the angles and the
    thresholds are. *)
Theorem single_major_tick_is_not_a_number (this : t) :
  majorTicks (config this) = 1%nat ->
  List.map tick_angle (drawTicks this) = [NaN]
  /\ List.map tick_style (drawTicks this) = [ticks (_resolvedColors this)]
  /\ List.map number_angle (drawNumbers this) = [NaN]
  /\ List.map number_style (drawNumbers this)
     = [numbers (_resolvedColors this)]
  /\ (customLabels (config this) = None ->
      List.map number_text (drawNumbers this) = [numeric NaN]).
Proof.
  intros HM.
  assert (Hr : ofZ (Z.of_nat 0) / (ofZ (Z.of_nat 1) - ofZ 1) = NaN)
    by reflexivity.
  assert (Hv : tickValue (config this) 0 = NaN).
  { unfold tickValue. rewrite HM, Hr, mul_nan_left, add_nan_right. reflexivity. }
  assert (Hd : isDanger (config this) NaN = false).
  { unfold isDanger.
    assert (H : forall x, (NaN >=? x) = false) by (intros []; reflexivity).
    rewrite !H, !andb_false_r. reflexivity. }
  unfold drawTicks, drawNumbers. rewrite HM.
  cbn [List.seq List.map tick_angle tick_style number_angle number_style
       number_text].
  rewrite Hr, Hv, Hd, mul_nan_left, add_nan_right.
  repeat split. intros ->. reflexivity.
Qed.

Lemma single_major_tick_is_not_a_number_default :
  List.map tick_angle (drawTicks (constructor (ofZ 200) one_tick)) = [NaN]
  /\ List.map number_text (drawNumbers (constructor (ofZ 200) one_tick))
     = [numeric NaN].
Proof.
  destruct (@single_major_tick_is_not_a_number
              (constructor (ofZ 200) one_tick)) as (H1 & _ & _ & _ & H2);
    [reflexivity|].
  split; [exact H1|]. apply H2. reflexivity.
Defined.

End NumberFacts.
